(** * galax / galdynamix: composite potentials, constant parameters and the
      mock-stream generator

    A shallow embedding of
      - [galdynamix/potential/_potential/composite.py] (CompositePotential),
      - [galdynamix/potential/_potential/param/core.py] and
        [galax/potential/_src/params/core.py] (ConstantParameter),
      - [galax/dynamics/_dynamics/mockstream/mockstream_generator.py]
        (MockStreamGenerator),
      - [galax/coordinates/_src/psps/base_composite.py]
        (AbstractCompositePhaseSpacePosition, replace),
      - [galax/coordinates/_src/operators/rotating.py]
        (ConstantRotationZOperator).

    Conventions.
      - Floating-point scalars are kept abstract: a type [F] with the
        operations the code applies to it.  Nothing is assumed about them
        unless a theorem says so.
        The concrete instances use binary64 floats and, where a theorem
        needs exact arithmetic, integers.
      - A computation that may raise is a [result]: [Ok v] is a returned
        value, [Raise e] a raised exception.
      - A Python [dict] is an association list in insertion order.
      - The error names of the specification stand for the exceptions of the
        code: ConfigurationError for [ValueError], InvalidProgenitorState
        for the error of [eqx.error_if].  [InvalidTimeGrid] is the
        specification's name for the error of the integrator on the values
        of a time grid.
      - A function compiled by [jax.jit] is traced, then executed: what is
        raised while its body is traced comes before what depends on the
        values of its traced arguments. *)

From stdpp Require Import base list strings.
From Stdlib Require Import ZArith Lia Ring.
From Corelib Require Import PrimFloat.

Set Default Proof Using "Type".
Set Warnings "-register-all,-inexact-float".
Open Scope string_scope.
Open Scope list_scope.

(** ** Exceptions *)

Inductive exn : Type :=
| ValueError (msg : string)
| IndexError
| StopIteration
| RuntimeError (msg : string)
| InvalidTimeGrid.

Inductive result (A : Type) : Type :=
| Ok (a : A)
| Raise (e : exn).
Arguments Ok {A} a.
Arguments Raise {A} e.

#[global] Instance result_ret : MRet result := fun A a => Ok a.
#[global] Instance result_bind : MBind result := fun A B k m =>
  match m with
  | Ok a => k a
  | Raise e => Raise e
  end.

(** The messages of the errors that the theorems tell apart. *)
Definition units_msg : string := "all potentials must have the same unit system".
Definition vmap_msg : string :=
  "vmap got inconsistent sizes for array axes to be mapped".
Definition no_arm_msg : string :=
  "You must generate either leading or trailing tails (or both!)".

(** ** Insertion-ordered dictionaries (Python [dict]) *)

Section Dict.
Context {V : Type}.

Definition dict : Type := list (string * V).

Definition dict_keys (d : dict) : list string := d.*1.
Definition dict_values (d : dict) : list V := d.*2.

(** [d[k]], [None] standing for [KeyError]. *)
Fixpoint dict_getitem (k : string) (d : dict) : option V :=
  match d with
  | [] => None
  | (k', v') :: d' => if decide (k = k') then Some v' else dict_getitem k d'
  end.

(** [d[k] = v]: an existing key keeps its position, a new key goes last. *)
Fixpoint dict_setitem (k : string) (v : V) (d : dict) : dict :=
  match d with
  | [] => [(k, v)]
  | (k', v') :: d' =>
      if decide (k = k') then (k', v) :: d'
      else (k', v') :: dict_setitem k v d'
  end.

(** [d1 | d2]: a copy of [d1] updated with the items of [d2] in order. *)
Definition dict_or (d1 d2 : dict) : dict :=
  fold_left (fun acc kv => dict_setitem kv.1 kv.2 acc) d2 d1.

(** Position of a key in iteration order. *)
Fixpoint key_index (k : string) (ks : list string) : option nat :=
  match ks with
  | [] => None
  | k' :: ks' => if decide (k = k') then Some 0 else S <$> key_index k ks'
  end.

End Dict.

Arguments dict : clear implicits.

(** ** Potentials *)

Section Potential.

(** The unit system of a potential ([galdynamix.units.UnitSystem]) is compared
    with [==] only; it is a parameter with decidable equality. *)
Context {UnitSystem : Type} `{EqDecision UnitSystem}.
Context {F : Type}.
Variable fadd : F -> F -> F.
Variable fzero : F.

(** A potential is either a concrete one, given by its unit system and its
    energy function of position [q] and time [t], or a composite. *)
Inductive potential : Type :=
| SimplePotential (u : UnitSystem) (phi : list F -> F -> F)
| Composite (data : list (string * potential)) (u : UnitSystem).

Definition potential_units (p : potential) : UnitSystem :=
  match p with
  | SimplePotential u _ => u
  | Composite _ u => u
  end.

(** [xp.sum(xp.array(l))], as a left-to-right accumulation from zero. *)
Definition xp_sum (l : list F) : F := fold_left fadd l fzero.

Record CompositePotential : Type := mkCompositePotential {
  _data : dict potential;
  units : UnitSystem
}.

Definition as_potential (c : CompositePotential) : potential :=
  Composite (_data c) (units c).

(** [CompositePotential.__post_init__], on the mapping stored by
    [ImmutableDict.__init__].  The last step, [_init_units], rewrites the
    parameters of the sub-potentials and is outside the model. *)
Definition __post_init__ (data : dict potential) : result CompositePotential :=
  match dict_values data with
  | [] => Raise StopIteration
  | p0 :: _ =>
      let units := potential_units p0 in
      if forallb (fun p => bool_decide (potential_units p = units))
           (dict_values data)
      then Ok (mkCompositePotential data units)
      else Raise (ValueError units_msg)
  end.

(** [CompositePotential(potentials)]. *)
Definition CompositePotential_init (potentials : dict potential)
  : result CompositePotential :=
  __post_init__ potentials.

(** [potential_energy]; for a composite,
    [xp.sum(xp.array([p.potential_energy(q, t) for p in self.values()]))]. *)
Fixpoint potential_energy (p : potential) (q : list F) (t : F) : F :=
  match p with
  | SimplePotential _ phi => phi q t
  | Composite data _ =>
      xp_sum (map (fun kv => potential_energy (snd kv) q t) data)
  end.

Definition composite_energy (c : CompositePotential) (q : list F) (t : F) : F :=
  potential_energy (as_potential c) q t.

(** An arbitrary Python object, as far as [isinstance] tells them apart. *)
Inductive pyobj : Type :=
| PyPotential (p : potential)
| PyOther (n : Z).

Inductive binop (A : Type) : Type :=
| NotImplemented
| Returned (r : result A).
Arguments NotImplemented {A}.
Arguments Returned {A} r.

(** "make [other] into a compatible dictionary"; [uuid4] is the string that
    [str(uuid.uuid4())] produces in this call. *)
Definition compatible_dict (uuid4 : string) (other : potential) : dict potential :=
  match other with
  | Composite data _ => data
  | SimplePotential _ _ => [(uuid4, other)]
  end.

Definition __or__ (uuid4 : string) (self : CompositePotential) (other : pyobj)
  : binop CompositePotential :=
  match other with
  | PyOther _ => NotImplemented
  | PyPotential o =>
      Returned (CompositePotential_init
                  (dict_or (_data self) (compatible_dict uuid4 o)))
  end.

Definition __ror__ (uuid4 : string) (self : CompositePotential) (other : pyobj)
  : binop CompositePotential :=
  match other with
  | PyOther _ => NotImplemented
  | PyPotential o =>
      Returned (CompositePotential_init
                  (dict_or (compatible_dict uuid4 o) (_data self)))
  end.

(** [self + other] is [self | other]; [other] is a potential as annotated, so
    [__or__] answers. *)
Definition __add__ (uuid4 : string) (self : CompositePotential) (other : potential)
  : result CompositePotential :=
  CompositePotential_init (dict_or (_data self) (compatible_dict uuid4 other)).

End Potential.

Arguments potential : clear implicits.
Arguments CompositePotential : clear implicits.
Arguments pyobj : clear implicits.
Arguments PyOther {UnitSystem F} n.
Arguments NotImplemented {A}.
Arguments Returned {A} r.

(** ** Constructed composites *)

Section CompositeSpec.
Context {UnitSystem : Type} `{EqDecision UnitSystem} {F : Type}.
Implicit Types (c : CompositePotential UnitSystem F).
Implicit Types (o : potential UnitSystem F).

(** [c] is what the constructor returns on a mapping without repeated keys. *)
Definition constructed c : Prop :=
  NoDup (dict_keys (_data c)) ∧ CompositePotential_init (_data c) = Ok c.

(** An operand of [|] and [+]: a concrete potential or a constructed
    composite. *)
Definition constructed_potential o : Prop :=
  match o with
  | SimplePotential _ _ => True
  | Composite data u => constructed (mkCompositePotential data u)
  end.

End CompositeSpec.

(** ** JAX arrays *)

Section Arrays.
Context {A : Type}.

(** [x[i]] for [i >= 0] on a JAX array: an axis of size 0 cannot be indexed,
    any other out-of-range index is clamped to the last position. *)
Definition jnp_getitem (x : list A) (i : nat) : result A :=
  match x !! (i `min` (length x - 1)) with
  | Some a => Ok a
  | None => Raise IndexError
  end.

(** [x[-1]]. *)
Definition jnp_last (x : list A) : result A :=
  jnp_getitem x (length x - 1).

(** [x[:, lo:hi]] on a two-dimensional array given by its rows. *)
Definition columns (lo hi : nat) (x : list (list A)) : list (list A) :=
  map (fun row => take (hi - lo) (drop lo row)) x.

(** Modelled from the spec: [interleave_concat] of [mockstream/utils.py] is not
    among the sources.  Along the leading axis (the call sites pass axis 0,
    the arms being two-dimensional) the two arrays are "interleaved
    pairwise": position 0 is from the first array, position 1 the
    corresponding entry of the second, and so on. *)
Fixpoint interleave_concat (a b : list A) : list A :=
  match a, b with
  | x :: a', y :: b' => x :: y :: interleave_concat a' b'
  | _, _ => []
  end.

(** Modelled from the spec: [cond_reverse] of [mockstream/utils.py] is not
    among the sources.  "If [times[1] < times[0]], treat the supplied grid as
    given in reverse-chronological order and reverse it before use". *)
Definition cond_reverse (pred : bool) (x : list A) : list A :=
  if pred then reverse x else x.

End Arrays.

(** [jax.lax.scan(f, init, xs)]: the final carry and the stacked outputs. *)
Fixpoint lax_scan {C X Y : Type} (f : C -> X -> result (C * Y)) (init : C)
    (xs : list X) : result (C * list Y) :=
  match xs with
  | [] => Ok (init, [])
  | x :: xs' =>
      '(c, y) ← f init x;
      '(c', ys) ← lax_scan f c xs';
      Ok (c', y :: ys)
  end.

(** [jax.vmap(f)(xs, ys, zs)] for [f] returning a pair: the mapped axes must
    have one size; the outputs are stacked componentwise. *)
Fixpoint vmap_rows {X Y Z U V : Type} (f : X -> Y -> Z -> result (U * V))
    (xs : list X) (ys : list Y) (zs : list Z) : result (list U * list V) :=
  match xs, ys, zs with
  | x :: xs', y :: ys', z :: zs' =>
      '(u, v) ← f x y z;
      '(us, vs) ← vmap_rows f xs' ys' zs';
      Ok (u :: us, v :: vs)
  | _, _, _ => Ok ([], [])
  end.

Definition jax_vmap3 {X Y Z U V : Type} (f : X -> Y -> Z -> result (U * V))
    (xs : list X) (ys : list Y) (zs : list Z) : result (list U * list V) :=
  if decide (length xs = length ys ∧ length ys = length zs)
  then vmap_rows f xs ys zs
  else Raise (ValueError vmap_msg).

(** ** Constant parameters *)

Section ConstantParameters.
Context {F : Type}.
Variable fzero : F.

(** An array (or Quantity): its shape and its entries in row-major order. *)
Record array : Type := mkArray {
  shape : list nat;
  entries : list F
}.

Definition ndim (a : array) : nat := length (shape a).

(** Modelled from the spec: [expand_batch_dims] of [galax/utils/_shape.py] is
    not among the sources.  "Dimension expansion by appending/prepending
    singleton axes to match [t]'s rank without changing numeric values"; the
    call passes the number of batch axes, which are put in front. *)
Definition expand_batch_dims (arr : array) (n : nat) : array :=
  mkArray (replicate n 1 ++ shape arr) (entries arr).

Record ConstantParameter : Type := mkConstantParameter {
  value : array
}.

(** The default time [t0 = Quantity(0, "Myr")] of galax, [0] of galdynamix: a
    scalar. *)
Definition t0 : array := mkArray [] [fzero].

(** [ConstantParameter.__call__] of [galax/potential/_src/params/core.py]. *)
Definition galax_ConstantParameter__call__ (self : ConstantParameter)
    (t : option array) : array :=
  expand_batch_dims (value self) (ndim (default t0 t)).

(** [ConstantParameter.__call__] of
    [galdynamix/potential/_potential/param/core.py]. *)
Definition galdynamix_ConstantParameter__call__ (self : ConstantParameter)
    (t : option array) : array :=
  value self.

End ConstantParameters.

Arguments array : clear implicits.
Arguments ConstantParameter : clear implicits.

(** ** The mock-stream generator *)

Section MockStreamGenerator.

Context {F : Type}.
(** Floating-point addition, multiplication, [1.0], the literal [1e-3], and
    the comparisons [<] and [<=]. *)
Variable fadd fmul : F -> F -> F.
Variable fone bump : F.
Variable flt fle : F -> F -> bool.

(** The potential ([AbstractPotentialBase]), the integrators and the orbits
    are opaque to the generator. *)
Context {Potential Integrator Orbit : Type}.

Definition Vec6 : Type := list F.

(** [MockStream(q, p, t, release_time)]; positions and velocities are given by
    their rows. *)
Record MockStream : Type := mkMockStream {
  q : list (list F);
  p : list (list F);
  t : list F;
  release_time : list F
}.

(** Modelled from the spec: [MockStream.w] of [mockstream/core.py] is not
    among the sources.  Each particle carries "a per-particle 6-vector": its
    position followed by its velocity. *)
Definition MockStream_w (m : MockStream) : list Vec6 :=
  zip_with app (q m) (p m).

Record PhaseSpaceTimePosition : Type := mkPhaseSpaceTimePosition {
  pstp_q : list F;
  pstp_p : list F;
  pstp_t : F
}.

(** The three accepted forms of the progenitor's initial conditions; [rank] is
    the batch rank [prog_w0.ndim]. *)
Inductive progenitor : Type :=
| Timed (w : PhaseSpaceTimePosition) (rank : nat)
| Untimed (pos vel : list F) (rank : nat)
| Raw (w : Vec6).

(** [AbstractStreamDF]: the two arm flags and the sampler. *)
Record AbstractStreamDF : Type := mkStreamDF {
  lead : bool;
  trail : bool;
  sample : Potential -> Orbit -> F -> Z -> MockStream * MockStream
}.

Record MockStreamGenerator : Type := mkMockStreamGenerator {
  df : AbstractStreamDF;
  potential_ : Potential;
  progenitor_integrator : Integrator;
  stream_integrator : Integrator
}.

(** [integrate_orbit(potential, ics, tstep, integrator).w()]: the states at the
    times of [tstep]. *)
Variable integrate_orbit : Potential -> Vec6 -> list F -> Integrator -> list Vec6.

(** The trajectory that [evaluate_orbit] returns on an accepted time grid. *)
Variable solve_orbit :
  Potential -> PhaseSpaceTimePosition -> list F -> Integrator -> Orbit.

Fixpoint monotone_increasing (ts : list F) : bool :=
  match ts with
  | a :: (b :: _) as ts' => fle a b && monotone_increasing ts'
  | _ => true
  end.

Fixpoint monotone_decreasing (ts : list F) : bool :=
  match ts with
  | a :: (b :: _) as ts' => fle b a && monotone_decreasing ts'
  | _ => true
  end.

(** Modelled from the spec: [evaluate_orbit] of [galax/dynamics/_dynamics/orbit]
    is not among the sources.  The integrator "must support time arrays that
    are monotonically decreasing [...] or monotonically increasing; a
    strictly non-monotonic time array is a caller error (InvalidTimeGrid)".
    Monotonic is read weakly (equal neighbours allowed); the trajectory on
    an accepted grid is the parameter [solve_orbit]. *)
Definition evaluate_orbit (pot : Potential) (w0 : PhaseSpaceTimePosition)
    (ts : list F) (integrator : Integrator) : result Orbit :=
  if monotone_increasing ts || monotone_decreasing ts
  then Ok (solve_orbit pot w0 ts integrator)
  else Raise InvalidTimeGrid.

(** The final state of one released particle: [integrate_orbit(...).w()[-1]]. *)
Definition integ_final (self : MockStreamGenerator) (ics : Vec6)
    (tstep : list F) : result Vec6 :=
  jnp_last (integrate_orbit (potential_ self) ics tstep (stream_integrator self)).

(** [MockStreamGenerator._run_scan]. *)
Definition _run_scan (self : MockStreamGenerator) (ts : list F)
    (mock0_lead mock0_trail : MockStream) : result (list Vec6 * list Vec6) :=
  let w0_lead := MockStream_w mock0_lead in
  let w0_trail := MockStream_w mock0_trail in
  ts_end ← jnp_last ts;
  let t_f := fadd ts_end bump in
  let one_pt_intg (carry : nat * Vec6 * Vec6) (_ : nat)
      : result ((nat * Vec6 * Vec6) * (Vec6 * Vec6)) :=
    let '(i, w0_l_i, w0_t_i) := carry in
    ts_i ← jnp_getitem ts i;
    let tstep := [ts_i; t_f] in
    (* vmap integration over leading and trailing arm *)
    w_l ← integ_final self w0_l_i tstep;
    w_t ← integ_final self w0_t_i tstep;
    (* Prepare for next iteration *)
    next_l ← jnp_getitem w0_lead (i + 1);
    next_t ← jnp_getitem w0_trail (i + 1);
    Ok ((i + 1, next_l, next_t), (w_l, w_t)) in
  first_l ← jnp_getitem w0_lead 0;
  first_t ← jnp_getitem w0_trail 0;
  let carry_init := (0, first_l, first_t) in
  let pt_ids := seq 0 (length w0_lead) in
  '(_, ys) ← lax_scan one_pt_intg carry_init pt_ids;
  Ok (ys.*1, ys.*2).

(** [MockStreamGenerator._run_vmap]. *)
Definition _run_vmap (self : MockStreamGenerator) (ts : list F)
    (mock0_lead mock0_trail : MockStream) : result (list Vec6 * list Vec6) :=
  ts_end ← jnp_last ts;
  let t_f := fadd ts_end bump in
  let one_pt_intg (i : nat) (w0_l_i w0_t_i : Vec6) : result (Vec6 * Vec6) :=
    ts_i ← jnp_getitem ts i;
    let tstep := [ts_i; t_f] in
    w_lead ← integ_final self w0_l_i tstep;
    w_trail ← integ_final self w0_t_i tstep;
    Ok (w_lead, w_trail) in
  let w0_lead := MockStream_w mock0_lead in
  let w0_trail := MockStream_w mock0_trail in
  let pt_ids := seq 0 (length w0_lead) in
  jax_vmap3 one_pt_intg pt_ids w0_lead w0_trail.

(** [MockStreamGenerator.run]; [platform] is [get_backend().platform].

    The method is compiled by [jax.jit] (l.126), with [ts], [prog_w0] and
    [prog_mass] traced: a call first runs the body on tracers, and what Python
    raises there (the error of [eqx.error_if] on the static [prog_w0.ndim],
    an [IndexError] on an array without entries, the [ValueError] of
    [jax.vmap], the [ValueError] of l.219-221) is raised before any time of
    the grid is looked at.  What [evaluate_orbit] raises depends on the values
    of [ts]: it is raised when the compiled function is executed, after the
    whole body has been traced, and while tracing the orbit of the progenitor
    is the symbolic trajectory on the oriented grid. *)
Definition run (platform : string) (self : MockStreamGenerator) (ts : list F)
    (prog_w0 : progenitor) (prog_mass : F) (seed_num : Z)
    (vmapped : option bool) : result (MockStream * Orbit) :=
  (* Parse vmapped *)
  let use_vmap :=
    match vmapped with
    | None => bool_decide (platform = "gpu")
    | Some b => b
    end in
  (* Ensure w0 is a PhaseSpacePosition *)
  w0 ← match prog_w0 with
       | Timed w rank =>
           if decide (0 < rank) then Raise (RuntimeError "prog_w0 must be scalar")
           else Ok w
       | Untimed pos vel rank =>
           if decide (0 < rank) then Raise (RuntimeError "prog_w0 must be scalar")
           else ts_0 ← jnp_getitem ts 0;
                Ok (mkPhaseSpaceTimePosition pos vel ts_0)
       | Raw w =>
           ts_0 ← jnp_getitem ts 0;
           Ok (mkPhaseSpaceTimePosition (take 3 w) (take 3 (drop 3 w)) ts_0)
       end;
  ts_1 ← jnp_getitem ts 1;
  ts_0 ← jnp_getitem ts 0;
  let ts := cond_reverse (flt ts_1 ts_0) ts in
  (* Integrate the progenitor orbit, evaluating at the stripping times: the
     call as it is executed, and the orbit that stands for it in the trace *)
  let executed :=
    evaluate_orbit (potential_ self) w0 ts (progenitor_integrator self) in
  let prog_o := solve_orbit (potential_ self) w0 ts (progenitor_integrator self) in
  (* Generate stream initial conditions along the integrated progenitor orbit *)
  let '(mock0_lead, mock0_trail) :=
    sample (df self) (potential_ self) prog_o prog_mass seed_num in
  '(lead_arm_w, trail_arm_w) ←
    (if use_vmap then _run_vmap self ts mock0_lead mock0_trail
     else _run_scan self ts mock0_lead mock0_trail);
  ts_end ← jnp_last ts;
  let t := map (fun one => fmul one ts_end) (map (fun _ => fone) ts) in
  mockstream ←
    (if lead (df self) && trail (df self) then
       let q := interleave_concat (columns 0 3 trail_arm_w) (columns 0 3 lead_arm_w) in
       let p := interleave_concat (columns 3 6 trail_arm_w) (columns 3 6 lead_arm_w) in
       let t := interleave_concat t t in
       let release_time :=
         interleave_concat (release_time mock0_lead) (release_time mock0_trail) in
       Ok (mkMockStream q p t release_time)
     else if lead (df self) then
       let q := columns 0 3 lead_arm_w in
       let p := columns 3 6 lead_arm_w in
       Ok (mkMockStream q p t (release_time mock0_lead))
     else if trail (df self) then
       let q := columns 0 3 trail_arm_w in
       let p := columns 3 6 trail_arm_w in
       Ok (mkMockStream q p t (release_time mock0_trail))
     else Raise (ValueError no_arm_msg));
  (* The body is traced: the compiled function is executed *)
  prog_o ← executed;
  Ok (mockstream, prog_o).

End MockStreamGenerator.

Arguments MockStream : clear implicits.
Arguments PhaseSpaceTimePosition : clear implicits.
Arguments progenitor : clear implicits.
Arguments AbstractStreamDF : clear implicits.
Arguments MockStreamGenerator : clear implicits.

(** ** The stages of [run], by name *)

Section Stages.
Context {F : Type}.
Variable fadd fmul : F -> F -> F.
Variable fone bump : F.
Variable flt fle : F -> F -> bool.
Context {Potential Integrator Orbit : Type}.
Variable integrate_orbit :
  Potential -> @Vec6 F -> list F -> Integrator -> list (@Vec6 F).
Variable solve_orbit :
  Potential -> PhaseSpaceTimePosition F -> list F -> Integrator -> Orbit.
Implicit Types (self : MockStreamGenerator F Potential Integrator Orbit).
Implicit Types (ts : list F) (w0_lead w0_trail : list (@Vec6 F)).

(** The body of the scan and the body of the vmap, by name. *)
Definition scan_step self ts (t_f : F) w0_lead w0_trail
    (carry : nat * @Vec6 F * @Vec6 F) (_ : nat)
  : result ((nat * @Vec6 F * @Vec6 F) * (@Vec6 F * @Vec6 F)) :=
  let '(i, w0_l_i, w0_t_i) := carry in
  ts_i ← jnp_getitem ts i;
  let tstep := [ts_i; t_f] in
  w_l ← integ_final integrate_orbit self w0_l_i tstep;
  w_t ← integ_final integrate_orbit self w0_t_i tstep;
  next_l ← jnp_getitem w0_lead (i + 1);
  next_t ← jnp_getitem w0_trail (i + 1);
  Ok ((i + 1, next_l, next_t), (w_l, w_t)).

Definition vmap_step self ts (t_f : F) (i : nat) (w0_l_i w0_t_i : @Vec6 F)
  : result (@Vec6 F * @Vec6 F) :=
  ts_i ← jnp_getitem ts i;
  let tstep := [ts_i; t_f] in
  w_lead ← integ_final integrate_orbit self w0_l_i tstep;
  w_trail ← integ_final integrate_orbit self w0_t_i tstep;
  Ok (w_lead, w_trail).

Definition use_vmap_of (platform : string) (vmapped : option bool) : bool :=
  match vmapped with
  | None => bool_decide (platform = "gpu")
  | Some b => b
  end.

(** Stage 1 of [run]: the progenitor as a timed phase-space position. *)
Definition normalise_progenitor ts (prog_w0 : progenitor F) : result (PhaseSpaceTimePosition F) :=
  match prog_w0 with
  | Timed w rank =>
      if decide (0 < rank) then Raise (RuntimeError "prog_w0 must be scalar")
      else Ok w
  | Untimed pos vel rank =>
      if decide (0 < rank) then Raise (RuntimeError "prog_w0 must be scalar")
      else ts_0 ← jnp_getitem ts 0;
           Ok (mkPhaseSpaceTimePosition pos vel ts_0)
  | Raw w =>
      ts_0 ← jnp_getitem ts 0;
      Ok (mkPhaseSpaceTimePosition (take 3 w) (take 3 (drop 3 w)) ts_0)
  end.

(** What [run] holds when it reaches the assembly. *)
Record integrated : Type := mkIntegrated {
  grid : list F;
  prog_orbit : Orbit;
  ics_lead : MockStream F;
  ics_trail : MockStream F;
  lead_arm : list (@Vec6 F);
  trail_arm : list (@Vec6 F);
  eval_time : list F
}.

(** Stages 4 and 5 of [run] on the oriented grid and the progenitor's orbit:
    sampling, and integration by the chosen strategy. *)
Definition stream_stage (use_vmap : bool) self ts (prog_o : Orbit)
    (prog_mass : F) (seed_num : Z) : result integrated :=
  let mocks := sample (df self) (potential_ self) prog_o prog_mass seed_num in
  '(lead_arm_w, trail_arm_w) ←
    (if use_vmap
     then _run_vmap fadd bump integrate_orbit self ts mocks.1 mocks.2
     else _run_scan fadd bump integrate_orbit self ts mocks.1 mocks.2);
  ts_end ← jnp_last ts;
  Ok (mkIntegrated ts prog_o mocks.1 mocks.2 lead_arm_w trail_arm_w
        (map (fun one => fmul one ts_end) (map (fun _ => fone) ts))).

(** Stages 1 to 5 of [run] in the order of the body, with the call of
    [evaluate_orbit] executed: what a call of [run] that returns has gone
    through. *)
Definition integrate_stage (use_vmap : bool) self ts (prog_w0 : progenitor F)
    (prog_mass : F) (seed_num : Z) : result integrated :=
  w0 ← normalise_progenitor ts prog_w0;
  ts_1 ← jnp_getitem ts 1;
  ts_0 ← jnp_getitem ts 0;
  let ts := cond_reverse (flt ts_1 ts_0) ts in
  prog_o ← evaluate_orbit fle solve_orbit (potential_ self) w0 ts
             (progenitor_integrator self);
  stream_stage use_vmap self ts prog_o prog_mass seed_num.

(** Stages 1 to 5 of [run] as [jax.jit] traces them: the orbit of the
    progenitor is symbolic, and no time of the grid is looked at. *)
Definition trace_stage (use_vmap : bool) self ts (prog_w0 : progenitor F)
    (prog_mass : F) (seed_num : Z) : result integrated :=
  w0 ← normalise_progenitor ts prog_w0;
  ts_1 ← jnp_getitem ts 1;
  ts_0 ← jnp_getitem ts 0;
  let ts := cond_reverse (flt ts_1 ts_0) ts in
  stream_stage use_vmap self ts
    (solve_orbit (potential_ self) w0 ts (progenitor_integrator self))
    prog_mass seed_num.

(** The grids that [evaluate_orbit] accepts. *)
Definition accepted_grid ts : bool :=
  monotone_increasing fle ts || monotone_decreasing fle ts.

(** Stage 6 of [run]: the assembly of the arms. *)
Definition assemble (d : AbstractStreamDF F Potential Orbit) (x : integrated)
  : result (MockStream F * Orbit) :=
  if lead d && trail d then
    Ok (mkMockStream
          (interleave_concat (columns 0 3 (trail_arm x)) (columns 0 3 (lead_arm x)))
          (interleave_concat (columns 3 6 (trail_arm x)) (columns 3 6 (lead_arm x)))
          (interleave_concat (eval_time x) (eval_time x))
          (interleave_concat (release_time (ics_lead x))
             (release_time (ics_trail x))),
        prog_orbit x)
  else if lead d then
    Ok (mkMockStream (columns 0 3 (lead_arm x)) (columns 3 6 (lead_arm x))
          (eval_time x) (release_time (ics_lead x)),
        prog_orbit x)
  else if trail d then
    Ok (mkMockStream (columns 0 3 (trail_arm x)) (columns 3 6 (trail_arm x))
          (eval_time x) (release_time (ics_trail x)),
        prog_orbit x)
  else Raise (ValueError no_arm_msg).

Definition progenitor_rank (prog_w0 : progenitor F) : nat :=
  match prog_w0 with
  | Timed _ rank | Untimed _ _ rank => rank
  | Raw _ => 0
  end.

(** The sampler's contract: one leading and one trailing particle for each
    stripping time of the progenitor's orbit. *)
Definition one_particle_per_time self (prog_mass : F) (seed_num : Z) : Prop :=
  forall w0 ts,
    let mocks :=
      sample (df self) (potential_ self)
        (solve_orbit (potential_ self) w0 ts (progenitor_integrator self))
        prog_mass seed_num in
    length (MockStream_w mocks.1) = length ts
    ∧ length (MockStream_w mocks.2) = length ts.

(** The state at the final time of the particle of an arm released at
    stripping-time index [k]: row [k] of the arm's initial conditions,
    integrated from [ts[k]] to the bumped final time. *)
Definition released_particle self ts (w0 : list (@Vec6 F)) (k : nat)
  : result (@Vec6 F) :=
  ts_end ← jnp_last ts;
  ts_k ← jnp_getitem ts k;
  w0_k ← jnp_getitem w0 k;
  integ_final integrate_orbit self w0_k [ts_k; fadd ts_end bump].

End Stages.

(** ** The time of the particles *)

(** The time that [run] gives every particle of the stream on the grid
    [a :: rest]: the last time of the oriented grid, which is the first time
    of a grid given in reverse. *)
Definition final_time {F : Type} (flt : F -> F -> bool) (a : F) (rest : list F)
  : F :=
  if flt (hd a rest) a then a else default a (last rest).

(** ** Parameters that scale and parameters that vary *)

Section Parameters.
Context {F : Type}.
Variable fadd fmul fsub : F -> F -> F.

(** [a * c] and [c * a] for an array [a] and a scalar [c]: the product is
    taken entry by entry. *)
Definition array_mul (a : array F) (c : F) : array F :=
  mkArray (shape a) (map (fun x => fmul x c) (entries a)).

Definition array_rmul (c : F) (a : array F) : array F :=
  mkArray (shape a) (map (fun x => fmul c x) (entries a)).

(** [ConstantParameter.__mul__] and [__rmul__] of
    [galax/potential/_src/params/core.py] for a scalar [other]:
    [replace(self, value=self.value * other)] and
    [replace(self, value=other * self.value)]. *)
Definition ConstantParameter__mul__ (self : ConstantParameter F) (other : F)
  : ConstantParameter F :=
  mkConstantParameter (array_mul (value self) other).

Definition ConstantParameter__rmul__ (self : ConstantParameter F) (other : F)
  : ConstantParameter F :=
  mkConstantParameter (array_rmul other (value self)).

(** [LinearParameter] with its three fields scalar, as documented. *)
Record LinearParameter : Type := mkLinearParameter {
  slope : F;
  point_time : F;
  point_value : F
}.

(** [LinearParameter.__call__]:
    [self.slope * (t - self.point_time) + self.point_value], entry by entry
    of the times [t]. *)
Definition LinearParameter__call__ (self : LinearParameter) (t : array F)
  : array F :=
  mkArray (shape t)
    (map (fun t_i => fadd (fmul (slope self) (fsub t_i (point_time self)))
                       (point_value self))
       (entries t)).

End Parameters.

Arguments LinearParameter : clear implicits.

(** ** Composite phase-space positions *)

(** [{k: f(v) for k, v in items}] where [f] may raise: the items are visited
    in order and stored one by one. *)
Fixpoint dict_comprehension {V W : Type} (f : V -> result W) (items : dict V)
    (acc : dict W) : result (dict W) :=
  match items with
  | [] => Ok acc
  | (k, v) :: items' =>
      w ← f v;
      dict_comprehension f items' (dict_setitem k w acc)
  end.

Definition invalid_keys_msg : string := "invalid keys {extra_keys}.".

Section CompositePhaseSpacePosition.

(** The components ([AbstractBasePhaseSpacePosition]) are opaque: they have a
    length, can be indexed, converted to a unit system and represented in
    other coordinates; each of the last three may raise. *)
Context {PSP Index Units PosCls VelCls : Type}.
Variable psp_len : PSP -> nat.
Variable psp_getitem : PSP -> Index -> result PSP.
Variable psp_to_units : PSP -> Units -> result PSP.
Variable psp_represent_as : PSP -> PosCls -> VelCls -> result PSP.
Variable differential_cls : PosCls -> VelCls.

Record AbstractCompositePhaseSpacePosition : Type := mkCompositePSP {
  psp_data : dict PSP
}.

(** [AbstractCompositePhaseSpacePosition.__init__(psps, **kwargs)]:
    [ImmutableMap.__init__] stores [dict(psps, **kwargs)]. *)
Definition CompositePSP__init__ (psps : list (string * PSP)) (kwargs : dict PSP)
  : AbstractCompositePhaseSpacePosition :=
  mkCompositePSP (dict_or (dict_or [] psps) kwargs).

(** [__len__]: [sum([len(w) or 1 for w in self.values()])]. *)
Definition CompositePSP__len__ (self : AbstractCompositePhaseSpacePosition)
  : nat :=
  sum_list (map (fun w => if decide (psp_len w = 0) then 1 else psp_len w)
              (dict_values (psp_data self))).

(** [__getitem__] for a string key: [self._data[key]], [None] standing for
    [KeyError]. *)
Definition CompositePSP__getitem__str (self : AbstractCompositePhaseSpacePosition)
    (key : string) : option PSP :=
  dict_getitem key (psp_data self).

(** [__getitem__] for any other key:
    [type(self)] applied to the keywords
    [{k: v[key] for k, v in self.items()}]. *)
Definition CompositePSP__getitem__ (self : AbstractCompositePhaseSpacePosition)
    (key : Index) : result AbstractCompositePhaseSpacePosition :=
  kwargs ← dict_comprehension (fun v => psp_getitem v key) (psp_data self) [];
  Ok (CompositePSP__init__ [] kwargs).

(** [to_units]. *)
Definition CompositePSP_to_units (self : AbstractCompositePhaseSpacePosition)
    (units : Units) : result AbstractCompositePhaseSpacePosition :=
  kwargs ← dict_comprehension (fun v => psp_to_units v units) (psp_data self) [];
  Ok (CompositePSP__init__ [] kwargs).

(** [represent_as(psp, position_cls, velocity_cls=None)]. *)
Definition represent_as (psp : AbstractCompositePhaseSpacePosition)
    (position_cls : PosCls) (velocity_cls : option VelCls)
  : result AbstractCompositePhaseSpacePosition :=
  let vel_cls :=
    match velocity_cls with
    | None => differential_cls position_cls
    | Some c => c
    end in
  kwargs ← dict_comprehension (fun v => psp_represent_as v position_cls vel_cls)
              (psp_data psp) [];
  Ok (CompositePSP__init__ [] kwargs).

(** [replace(obj, **kwargs)].  [any(extra_keys)] is the truth value of the
    keys themselves: a string is true unless it is empty. *)
Definition replace (obj : AbstractCompositePhaseSpacePosition)
    (kwargs : dict PSP) : result AbstractCompositePhaseSpacePosition :=
  let extra_keys :=
    filter (fun k => k ∉ dict_keys (psp_data obj)) (dict_keys kwargs) in
  if existsb (fun k => negb (bool_decide (k = ""))) extra_keys
  then Raise (RuntimeError invalid_keys_msg)
  else Ok (CompositePSP__init__ [] (dict_or (psp_data obj) kwargs)).

End CompositePhaseSpacePosition.

Arguments AbstractCompositePhaseSpacePosition : clear implicits.

(** A composite holds a Python [dict]: its keys are distinct. *)
Definition distinct_keys {PSP : Type}
    (self : AbstractCompositePhaseSpacePosition PSP) : Prop :=
  NoDup (dict_keys (psp_data self)).

(** ** The corotating frame *)

Definition core_dimension_msg : string :=
  "inconsistent size for core dimension '3'".

Section Rotation.
Context {F : Type}.
(** Floating-point [0.0], [1.0], addition, multiplication, negation, cosine,
    sine and [==]. *)
Variable fzero fone : F.
Variable fadd fmul : F -> F -> F.
Variable fopp : F -> F.
Variable fcos fsin : F -> F.
Variable feqb : F -> F -> bool.

(** [rot_z(theta)]: the rows of the rotation matrix about the z axis. *)
Definition rot_z (theta : F) : list (list F) :=
  [[fcos theta; fopp (fsin theta); fzero];
   [fsin theta; fcos theta; fzero];
   [fzero; fzero; fone]].

(** [jnp.matmul] of a matrix and a vector: each row times the vector, the
    products summed from the left. *)
Definition matmul (m : list (list F)) (v : list F) : list F :=
  map (fun row => xp_sum fadd fzero (zip_with fmul row v)) m.

(** [vec_matmul = jnp.vectorize(jnp.matmul, signature="(3,3),(3)->(3)")] on a
    matrix of three rows and one vector: the vector must have the size of
    the core dimension. *)
Definition vec_matmul (m : list (list F)) (q : list F) : result (list F) :=
  if decide (length q = 3) then Ok (matmul m q)
  else Raise (ValueError core_dimension_msg).

Record ConstantRotationZOperator : Type := mkConstantRotationZOperator {
  Omega_z : F
}.

(** [ConstantRotationZOperator.is_inertial]. *)
Definition is_inertial (self : ConstantRotationZOperator) : bool := false.

(** [ConstantRotationZOperator.inverse]. *)
Definition inverse (self : ConstantRotationZOperator) : ConstantRotationZOperator :=
  mkConstantRotationZOperator (fopp (Omega_z self)).

(** [ConstantRotationZOperator.__call__(q, t)] for a position [q] of shape
    [(3,)] and a scalar time [t]. *)
Definition ConstantRotationZOperator__call__ (self : ConstantRotationZOperator)
    (q : list F) (t : F) : result (list F * F) :=
  let Rz := rot_z (fmul (Omega_z self) t) in
  q' ← vec_matmul Rz q;
  Ok (q', t).

(** The operators that [simplify_op] returns for a rotation;
    [IdentityOperator] is coordinax's, which returns its arguments. *)
Inductive AbstractOperator : Type :=
| IdentityOperator
| RotationZ (op : ConstantRotationZOperator).

Definition AbstractOperator__call__ (op : AbstractOperator) (q : list F) (t : F)
  : result (list F * F) :=
  match op with
  | IdentityOperator => Ok (q, t)
  | RotationZ r => ConstantRotationZOperator__call__ r q t
  end.

(** [_simplify_op_rotz]. *)
Definition _simplify_op_rotz (frame : ConstantRotationZOperator) : AbstractOperator :=
  if feqb (Omega_z frame) fzero then IdentityOperator else RotationZ frame.

(** The laws of cosine and sine that the theorems use. *)
Record trigonometry : Prop := mkTrigonometry {
  cos_sin_one : forall x, fadd (fmul (fcos x) (fcos x)) (fmul (fsin x) (fsin x)) = fone;
  cos_opp : forall x, fcos (fopp x) = fcos x;
  sin_opp : forall x, fsin (fopp x) = fopp (fsin x);
  cos_zero : fcos fzero = fone;
  sin_zero : fsin fzero = fzero
}.

End Rotation.

Arguments ConstantRotationZOperator : clear implicits.
Arguments AbstractOperator : clear implicits.

(** * Concrete instances *)

(** ** Composites with exact integer energies *)

Definition galactic : string := "galactic".
Definition solarsystem : string := "solarsystem".

Definition uniform_potential (u : string) (e : Z) : potential string Z :=
  SimplePotential u (fun _ _ => e).

Definition disk_halo : CompositePotential string Z :=
  mkCompositePotential
    [("disk", uniform_potential galactic 1); ("halo", uniform_potential galactic 2)]
    galactic.

Definition bulge_nucleus : CompositePotential string Z :=
  mkCompositePotential
    [("bulge", uniform_potential galactic 3);
     ("nucleus", uniform_potential galactic 4)]
    galactic.

Definition disk_thick : CompositePotential string Z :=
  mkCompositePotential
    [("thick", uniform_potential galactic 5); ("disk", uniform_potential galactic 7)]
    galactic.

Definition a_uuid : string := "16fd2706-8baf-433b-82eb-8c7fada847da".

(** ** A generator over binary64 floats *)

Definition fl_add : float -> float -> float := PrimFloat.add.
Definition fl_mul : float -> float -> float := PrimFloat.mul.
Definition fl_sub : float -> float -> float := PrimFloat.sub.
Definition fl_lt : float -> float -> bool := PrimFloat.ltb.
Definition fl_le : float -> float -> bool := PrimFloat.leb.
Definition fl_bump : float := 1e-3%float.

(** A force-free integrator: positions drift with the velocities. *)
Definition drift (w : list float) (dt : float) : list float :=
  zip_with (fun x v => fl_add x (fl_mul v dt)) (take 3 w) (drop 3 w) ++ drop 3 w.

Definition drift_integrate (_ : unit) (ics : list float) (tstep : list float)
    (_ : unit) : list (list float) :=
  match tstep with
  | [] => []
  | t_first :: _ => map (fun t => drift ics (fl_sub t t_first)) tstep
  end.

(** The progenitor's orbit: its state at each time of the grid. *)
Definition drift_orbit (_ : unit) (w0 : PhaseSpaceTimePosition float)
    (ts : list float) (_ : unit) : list (float * list float) :=
  map (fun t => (t, drift (pstp_q w0 ++ pstp_p w0) (fl_sub t (pstp_t w0)))) ts.

(** A sampler that releases, at each time of the orbit, a leading particle
    ahead of the progenitor and a trailing particle behind it; [relabel]
    orders the release times that the trailing arm records. *)
Definition offset_arm (dx : float) (relabel : list float -> list float)
    (prog_o : list (float * list float)) : MockStream float :=
  mkMockStream
    (map (fun s => match take 3 s.2 with
                   | x :: yz => fl_add x dx :: yz
                   | [] => []
                   end) prog_o)
    (map (fun s => drop 3 s.2) prog_o)
    (map fst prog_o)
    (relabel (map fst prog_o)).

Definition offset_sample (relabel : list float -> list float) (_ : unit)
    (prog_o : list (float * list float)) (_ : float) (_ : Z)
  : MockStream float * MockStream float :=
  (offset_arm 1%float id prog_o, offset_arm (-1)%float relabel prog_o).

Definition offset_df (lead trail : bool) (relabel : list float -> list float)
  : AbstractStreamDF float unit (list (float * list float)) :=
  mkStreamDF lead trail (offset_sample relabel).

Definition offset_generator (lead trail : bool)
    (relabel : list float -> list float)
  : MockStreamGenerator float unit unit (list (float * list float)) :=
  mkMockStreamGenerator (offset_df lead trail relabel) tt tt tt.

Definition fl_run :=
  run fl_add fl_mul 1%float fl_bump fl_lt fl_le drift_integrate drift_orbit.

Definition coasting_progenitor : progenitor float :=
  Raw [0; 0; 0; 1; 0; 0]%float.

(** ** Constant parameters over binary64 floats *)

Definition scalar_mass : ConstantParameter float :=
  mkConstantParameter (mkArray [] [1e12%float]).

Definition three_times : array float := mkArray [3] [0; 1; 2]%float.

Definition fl_integrate_stage :=
  integrate_stage fl_add fl_mul 1%float fl_bump fl_lt fl_le drift_integrate
    drift_orbit.

Definition fl_released :=
  released_particle (Potential := unit) (Integrator := unit)
    (Orbit := list (float * list float)) fl_add fl_bump drift_integrate.

Definition demo_generator := offset_generator true true id.
Definition demo_ts : list float := [0; 1; 2]%float.

(** The stream and the progenitor's orbit that [run] returns on the demo. *)
Definition demo_pair : MockStream float * list (float * list float) :=
  Eval vm_compute in
    match fl_run "cpu" demo_generator demo_ts coasting_progenitor 1%float 0%Z None
    with
    | Ok r => r
    | Raise _ => (mkMockStream [] [] [] [], [])
    end.

(** A sampler whose trailing arm records its release times in reverse. *)
Definition relabelled_generator := offset_generator true true reverse.

(** ** More composites *)

Definition solar_body : potential string Z := uniform_potential solarsystem 9.

Definition solar_disk_halo : CompositePotential string Z :=
  mkCompositePotential
    [("disk", uniform_potential solarsystem 8);
     ("halo", uniform_potential solarsystem 9)]
    solarsystem.

(** [disk_halo | disk_thick]. *)
Definition disk_halo_thick : CompositePotential string Z :=
  mkCompositePotential
    [("disk", uniform_potential galactic 7); ("halo", uniform_potential galactic 2);
     ("thick", uniform_potential galactic 5)]
    galactic.

(** ** More generators *)

Definition lead_only_generator := offset_generator true false id.

Definition lead_only_pair : MockStream float * list (float * list float) :=
  Eval vm_compute in
    match fl_run "cpu" lead_only_generator demo_ts coasting_progenitor 1%float
            0%Z None
    with
    | Ok r => r
    | Raise _ => (mkMockStream [] [] [] [], [])
    end.

(** A progenitor of batch rank 1. *)
Definition batched_progenitor : progenitor float :=
  Timed (mkPhaseSpaceTimePosition [0; 0; 0] [1; 0; 0] 0)%float 1.

(** A sampler whose trailing arm lacks the particle of the last time. *)
Definition lagging_sample (_ : unit) (prog_o : list (float * list float))
    (_ : float) (_ : Z) : MockStream float * MockStream float :=
  (offset_arm 1%float id prog_o,
   offset_arm (-1)%float id (take (length prog_o - 1) prog_o)).

Definition lagging_generator
  : MockStreamGenerator float unit unit (list (float * list float)) :=
  mkMockStreamGenerator (mkStreamDF true true lagging_sample) tt tt tt.

(** The initial conditions that [lagging_sample] releases along the orbit of
    the coasting progenitor: three leading particles, two trailing ones. *)
Definition lagging_ics : MockStream float * MockStream float :=
  lagging_sample tt
    (drift_orbit tt (mkPhaseSpaceTimePosition [0; 0; 0] [1; 0; 0] 0)%float
       demo_ts tt)
    1%float 0%Z.

Definition lagging_arms : list (list float) * list (list float) :=
  Eval vm_compute in
    match _run_scan fl_add fl_bump drift_integrate lagging_generator demo_ts
            lagging_ics.1 lagging_ics.2
    with
    | Ok r => r
    | Raise _ => ([], [])
    end.

(** ** Parameters over the integers *)

Definition mass_loss : LinearParameter Z :=
  mkLinearParameter (-1)%Z 0%Z 1000%Z.

Definition five_times : array Z := mkArray [5] [0; 10; 20; 500; 1000]%Z.

Definition integer_mass : ConstantParameter Z :=
  mkConstantParameter (mkArray [2] [3; 4]%Z).

(** ** A composite of two tracks *)

(** A component that holds one coordinate per point of a track. *)
Definition track_getitem (w : list Z) (i : nat) : result (list Z) :=
  match w !! i with
  | Some x => Ok [x]
  | None => Raise IndexError
  end.

Definition track_to_units (w : list Z) (factor : Z) : result (list Z) :=
  Ok (map (Z.mul factor) w).

Definition track_represent_as (w : list Z) (position_cls velocity_cls : string)
  : result (list Z) :=
  Ok w.

Definition two_tracks : AbstractCompositePhaseSpacePosition (list Z) :=
  mkCompositePSP [("w1", [1; 2; 3]%Z); ("w2", [4; 5; 6]%Z)].

(** ** A rotation by a quarter turn per unit of time *)

(** Angles in quarter turns over the integers: cosine and sine are exact. *)
Definition quarter_cos (n : Z) : Z :=
  match (n mod 4)%Z with
  | 0%Z => 1%Z
  | 2%Z => (-1)%Z
  | _ => 0%Z
  end.

Definition quarter_sin (n : Z) : Z :=
  match (n mod 4)%Z with
  | 1%Z => 1%Z
  | 3%Z => (-1)%Z
  | _ => 0%Z
  end.

Definition quarter_call :=
  ConstantRotationZOperator__call__ 0%Z 1%Z Z.add Z.mul Z.opp quarter_cos
    quarter_sin.

Definition quarter_turn : ConstantRotationZOperator Z :=
  mkConstantRotationZOperator 1%Z.

(** * Properties *)

(** ** Dictionaries *)

Section DictFacts.
Context {V : Type}.
Implicit Types (d : dict V) (k : string) (v : V).

Lemma dict_keys_app d1 d2 :
  dict_keys (d1 ++ d2) = dict_keys d1 ++ dict_keys d2.
Proof. apply fmap_app. Qed.

Lemma dict_keys_cons k v d : dict_keys ((k, v) :: d) = k :: dict_keys d.
Proof. done. Qed.

Lemma length_dict_keys d : length (dict_keys d) = length d.
Proof. apply length_fmap. Qed.

Lemma dict_setitem_fresh k v d :
  k ∉ dict_keys d -> dict_setitem k v d = d ++ [(k, v)].
Proof.
  unfold dict_keys. induction d as [|[k' v'] d IH]; simpl; intros Hk; [done|].
  apply not_elem_of_cons in Hk as [Hne Hk].
  rewrite decide_False by done. by rewrite IH.
Qed.

Lemma dict_keys_setitem_in k v d :
  k ∈ dict_keys d -> dict_keys (dict_setitem k v d) = dict_keys d.
Proof.
  unfold dict_keys. induction d as [|[k' v'] d IH]; simpl; intros Hk.
  - by apply elem_of_nil in Hk.
  - destruct (decide (k = k')) as [->|Hne]; simpl; [done|].
    apply elem_of_cons in Hk as [?|Hk]; [done|]. f_equal. by apply IH.
Qed.

Lemma dict_getitem_None k d : dict_getitem k d = None <-> k ∉ dict_keys d.
Proof.
  unfold dict_keys. induction d as [|[k' v'] d IH]; simpl.
  - split; [intros _; apply not_elem_of_nil | done].
  - rewrite not_elem_of_cons. destruct (decide (k = k')) as [Heq|Hne].
    + split; [done|by intros [? _]].
    + rewrite IH. split; [done|by intros [_ ?]].
Qed.

Lemma dict_getitem_setitem k k' v d :
  dict_getitem k (dict_setitem k' v d)
  = if decide (k = k') then Some v else dict_getitem k d.
Proof.
  induction d as [|[k0 v0] d IH]; simpl.
  - by destruct (decide (k = k')).
  - destruct (decide (k' = k0)) as [->|Hne]; simpl.
    + by destruct (decide (k = k0)).
    + destruct (decide (k = k0)) as [->|?]; [by rewrite decide_False|done].
Qed.

Lemma filter_fresh_snoc (ks l : list string) k :
  k ∉ l ->
  filter (fun x => x ∉ ks ++ [k]) l = filter (fun x => x ∉ ks) l.
Proof.
  induction l as [|x l IH]; intros Hk; [done|].
  apply not_elem_of_cons in Hk as [Hne Hk].
  rewrite !filter_cons, IH by done.
  destruct (decide (x ∉ ks ++ [k])) as [H1|H1], (decide (x ∉ ks)) as [H2|H2];
    try done; exfalso.
  - apply H2. intros Hin. apply H1, elem_of_app. by left.
  - apply H1. by intros [?|?%list_elem_of_singleton]%elem_of_app.
Qed.

(** Without repeated keys on the right, [d1 | d2] lists the keys of [d1] and
    then the keys of [d2] that are new. *)
Lemma dict_keys_or d1 d2 :
  NoDup (dict_keys d2) ->
  dict_keys (dict_or d1 d2)
  = dict_keys d1 ++ filter (fun k => k ∉ dict_keys d1) (dict_keys d2).
Proof.
  unfold dict_or. revert d1.
  induction d2 as [|[k v] d2 IH]; intros d1 Hnd; simpl.
  - by rewrite filter_nil, app_nil_r.
  - apply NoDup_cons in Hnd as [Hk Hnd]. rewrite IH by done.
    rewrite filter_cons. destruct (decide (k ∈ dict_keys d1)) as [Hin|Hnin].
    + rewrite dict_keys_setitem_in by done. by rewrite decide_False by naive_solver.
    + rewrite dict_setitem_fresh by done. rewrite decide_True by done.
      rewrite dict_keys_app, dict_keys_cons. simpl dict_keys at 2.
      rewrite filter_fresh_snoc by done. by rewrite <- app_assoc.
Qed.

Lemma dict_or_disjoint d1 d2 :
  NoDup (dict_keys d2) ->
  (forall k, k ∈ dict_keys d1 -> k ∉ dict_keys d2) ->
  dict_or d1 d2 = d1 ++ d2.
Proof.
  unfold dict_or. revert d1.
  induction d2 as [|[k v] d2 IH]; intros d1 Hnd Hdisj; simpl.
  - by rewrite app_nil_r.
  - apply NoDup_cons in Hnd as [Hk Hnd].
    assert (k ∉ dict_keys d1) as Hfresh.
    { intros Hin. apply (Hdisj _ Hin). rewrite dict_keys_cons.
      apply elem_of_cons. by left. }
    rewrite dict_setitem_fresh by done. rewrite IH; [by rewrite <- app_assoc|done|].
    intros k'. rewrite dict_keys_app.
    intros [Hin| ->%list_elem_of_singleton]%elem_of_app; [|done].
    specialize (Hdisj _ Hin). rewrite dict_keys_cons in Hdisj.
    by apply not_elem_of_cons in Hdisj as [_ ?].
Qed.

(** Without repeated keys on the right, the right operand wins a lookup. *)
Lemma dict_getitem_or k d1 d2 :
  NoDup (dict_keys d2) ->
  dict_getitem k (dict_or d1 d2)
  = match dict_getitem k d2 with
    | Some v => Some v
    | None => dict_getitem k d1
    end.
Proof.
  unfold dict_or. revert d1.
  induction d2 as [|[k' v'] d2 IH]; intros d1 Hnd; simpl; [done|].
  apply NoDup_cons in Hnd as [Hk Hnd]. rewrite IH by done.
  rewrite dict_getitem_setitem. cbn [fst snd].
  destruct (decide (k = k')) as [->|Hne]; [|done].
  cbn [fst] in Hk. apply dict_getitem_None in Hk. by rewrite Hk.
Qed.

Lemma key_index_app_l k (l1 l2 : list string) :
  k ∈ l1 -> key_index k (l1 ++ l2) = key_index k l1.
Proof.
  induction l1 as [|x l1 IH]; simpl; intros Hk.
  - by apply elem_of_nil in Hk.
  - destruct (decide (k = x)); [done|].
    apply elem_of_cons in Hk as [?|Hk]; [done|]. by rewrite IH.
Qed.

Lemma filter_split_length (P : string -> Prop) `{!forall x, Decision (P x)}
    (l : list string) :
  length (filter (fun x => ¬ P x) l) + length (filter P l) = length l.
Proof.
  induction l as [|x l IH]; [done|]. rewrite !filter_cons.
  destruct (decide (P x)) as [H1|H1].
  - rewrite decide_False by naive_solver. simpl. lia.
  - rewrite decide_True by done. simpl. lia.
Qed.

End DictFacts.

(** ** Composite potentials *)

Section PotentialFacts.
Context {UnitSystem : Type} `{EqDecision UnitSystem} {F : Type}.
Implicit Types (data : dict (potential UnitSystem F)).
Implicit Types (c A B : CompositePotential UnitSystem F).
Implicit Types (o : potential UnitSystem F) (u : UnitSystem).

Lemma forallb_units_false (l : list (potential UnitSystem F)) u :
  forallb (fun p => bool_decide (potential_units p = u)) l = false ->
  exists p, p ∈ l ∧ potential_units p ≠ u.
Proof.
  induction l as [|p l IH]; simpl; [done|].
  destruct (decide (potential_units p = u)) as [Heq|Hne].
  - rewrite bool_decide_eq_true_2 by done. simpl. intros [p' [? ?]]%IH.
    exists p'. split; [apply elem_of_cons; by right|done].
  - intros _. exists p. split; [apply elem_of_cons; by left|done].
Qed.

Lemma forallb_units_true (l : list (potential UnitSystem F)) u :
  forallb (fun p => bool_decide (potential_units p = u)) l = true <->
  Forall (fun p => potential_units p = u) l.
Proof.
  induction l as [|p l IH]; simpl.
  - split; [constructor|done].
  - rewrite Forall_cons, andb_true_iff, bool_decide_eq_true. by rewrite IH.
Qed.

Lemma init_ok data u :
  data ≠ [] ->
  Forall (fun p => potential_units p = u) (dict_values data) ->
  CompositePotential_init data = Ok (mkCompositePotential data u).
Proof.
  unfold CompositePotential_init, __post_init__.
  destruct data as [|[k p0] rest]; [done|]. intros _ Hall.
  cbn [dict_values fmap list_fmap snd].
  assert (potential_units p0 = u) as -> by (by inversion Hall).
  apply forallb_units_true in Hall. cbn [dict_values fmap list_fmap snd] in Hall.
  by rewrite Hall.
Qed.

Lemma init_inv data c :
  CompositePotential_init data = Ok c ->
  _data c = data
  ∧ (exists k p0 rest, data = (k, p0) :: rest ∧ units c = potential_units p0)
  ∧ Forall (fun p => potential_units p = units c) (dict_values data).
Proof.
  unfold CompositePotential_init, __post_init__.
  destruct data as [|[k p0] rest]; [done|].
  cbn [dict_values fmap list_fmap snd].
  destruct (forallb _ _) eqn:Hall; [|done]. intros [= <-]. simpl.
  split; [done|]. split; [by eauto|].
  by apply (forallb_units_true (p0 :: rest.*2)).
Qed.

Lemma init_raise data e :
  CompositePotential_init data = Raise e ->
  (data = [] ∧ e = StopIteration)
  ∨ (e = ValueError units_msg
     ∧ exists p1 p2, p1 ∈ dict_values data ∧ p2 ∈ dict_values data
                     ∧ potential_units p1 ≠ potential_units p2).
Proof.
  unfold CompositePotential_init, __post_init__.
  destruct data as [|[k p0] rest]; [intros [= <-]; by left|].
  cbn [dict_values fmap list_fmap snd].
  destruct (forallb _ _) eqn:Hall; [done|]. intros [= <-]. right.
  split; [done|].
  apply forallb_units_false in Hall as [p [Hp Hne]].
  exists p, p0. split; [done|]. split; [apply elem_of_cons; by left|done].
Qed.

Lemma dict_values_setitem_Forall (P : potential UnitSystem F -> Prop) k o data :
  P o -> Forall P (dict_values data) -> Forall P (dict_values (dict_setitem k o data)).
Proof.
  intros Ho. unfold dict_values.
  induction data as [|[k' o'] data IH]; simpl; intros Hall.
  - by constructor.
  - apply Forall_cons in Hall as [Ho' Hall].
    destruct (decide (k = k')); simpl; constructor; auto.
Qed.

Lemma dict_values_or_Forall (P : potential UnitSystem F -> Prop) data1 data2 :
  Forall P (dict_values data1) -> Forall P (dict_values data2) ->
  Forall P (dict_values (dict_or data1 data2)).
Proof.
  unfold dict_or. revert data1.
  induction data2 as [|[k o] data2 IH]; intros data1 H1 H2; simpl; [done|].
  apply Forall_cons in H2 as [Ho H2].
  apply IH; [|done]. by apply dict_values_setitem_Forall.
Qed.

Lemma dict_setitem_nonempty k o data : dict_setitem k o data ≠ [].
Proof. destruct data as [|[k' o'] data]; simpl; [done|]. by destruct (decide (k = k')). Qed.

Lemma dict_or_nonempty data1 data2 : data1 ≠ [] -> dict_or data1 data2 ≠ [].
Proof.
  unfold dict_or. revert data1.
  induction data2 as [|[k o] data2 IH]; intros data1 Hne; simpl; [done|].
  apply IH, dict_setitem_nonempty.
Qed.

Lemma constructed_inv c :
  constructed c ->
  NoDup (dict_keys (_data c)) ∧ _data c ≠ []
  ∧ Forall (fun p => potential_units p = units c) (dict_values (_data c)).
Proof.
  intros [Hnd Hinit]. apply init_inv in Hinit as (_ & (k & p0 & rest & Hd & _) & Hall).
  split; [done|]. split; [by rewrite Hd|done].
Qed.

(** The operands of [|] as dictionaries. *)
Lemma compatible_dict_spec uuid4 o :
  constructed_potential o ->
  NoDup (dict_keys (compatible_dict uuid4 o))
  ∧ compatible_dict uuid4 o ≠ []
  ∧ Forall (fun p => potential_units p = potential_units o)
      (dict_values (compatible_dict uuid4 o)).
Proof.
  destruct o as [u phi|data u]; simpl.
  - intros _. split; [apply NoDup_singleton|]. split; [done|]. by repeat constructor.
  - intros Hc. by apply constructed_inv in Hc.
Qed.

(** The union of two operands with one unit system is accepted. *)
Lemma init_dict_or data1 data2 u :
  data1 ≠ [] ->
  Forall (fun p => potential_units p = u) (dict_values data1) ->
  Forall (fun p => potential_units p = u) (dict_values data2) ->
  CompositePotential_init (dict_or data1 data2)
  = Ok (mkCompositePotential (dict_or data1 data2) u).
Proof.
  intros Hne H1 H2. apply init_ok; [by apply dict_or_nonempty|].
  by apply dict_values_or_Forall.
Qed.

End PotentialFacts.

Section CompositeTheorems.
Context {UnitSystem : Type} `{EqDecision UnitSystem} {F : Type}.
Implicit Types (data : dict (potential UnitSystem F)).
Implicit Types (A B : CompositePotential UnitSystem F).
Implicit Types (o : potential UnitSystem F) (u : UnitSystem).

(** C4.  A mapping in which two sub-potentials differ in their unit system is
    refused with the [ValueError] of [__post_init__] (the spec's
    ConfigurationError), and that error has no other cause; a composite that
    is built keeps the mapping and has the unit system of its first
    sub-potential, which every sub-potential shares. *)
Theorem C4_unit_system_invariant data :
  ((exists p1 p2, p1 ∈ dict_values data ∧ p2 ∈ dict_values data
                  ∧ potential_units p1 ≠ potential_units p2)
   <-> CompositePotential_init data = Raise (ValueError units_msg))
  ∧ (forall c, CompositePotential_init data = Ok c ->
       exists k p0 rest,
         data = (k, p0) :: rest
         ∧ units c = potential_units p0
         ∧ _data c = data
         ∧ Forall (fun p => potential_units p = units c) (dict_values data)).
Proof.
  split; [split|].
  - intros (p1 & p2 & H1 & H2 & Hne).
    destruct (CompositePotential_init data) as [c|e] eqn:Hinit.
    + apply init_inv in Hinit as (_ & _ & Hall).
      rewrite Forall_forall in Hall.
      destruct Hne. by rewrite (Hall _ H1), (Hall _ H2).
    + apply init_raise in Hinit as [[-> _]|[-> _]]; [|done].
      by apply elem_of_nil in H1.
  - intros Hinit. by apply init_raise in Hinit as [[_ [=]]|[_ ?]].
  - intros c Hinit. apply init_inv in Hinit as (Hd & (k & p0 & rest & ? & ?) & Hall).
    by exists k, p0, rest.
Qed.

(** C9.  For constructed composites [A] and [B] of one unit system with
    disjoint keys, [A | B] holds the items of [A] in their order followed by
    the items of [B] in theirs, and [B | A] (by [B.__or__] or by [A.__ror__])
    those of [B] before those of [A]; a non-composite operand enters under
    the key that [uuid4] generated, last for [__or__] and first for
    [__ror__], provided the key is new; both operators answer
    [NotImplemented] to an operand that is not a potential. *)
Theorem C9_or_key_order (uuid4 : string) A B u (phi : list F -> F -> F) :
  constructed A -> constructed B -> units A = units B ->
  (forall k, k ∈ dict_keys (_data A) -> k ∉ dict_keys (_data B)) ->
  u = units A -> uuid4 ∉ dict_keys (_data A) ->
  __or__ uuid4 A (PyPotential (as_potential B))
    = Returned (Ok (mkCompositePotential (_data A ++ _data B) (units A)))
  ∧ __or__ uuid4 B (PyPotential (as_potential A))
    = Returned (Ok (mkCompositePotential (_data B ++ _data A) (units B)))
  ∧ __ror__ uuid4 A (PyPotential (as_potential B))
    = Returned (Ok (mkCompositePotential (_data B ++ _data A) (units B)))
  ∧ __or__ uuid4 A (PyPotential (SimplePotential u phi))
    = Returned (Ok (mkCompositePotential
                      (_data A ++ [(uuid4, SimplePotential u phi)]) (units A)))
  ∧ __ror__ uuid4 A (PyPotential (SimplePotential u phi))
    = Returned (Ok (mkCompositePotential
                      ((uuid4, SimplePotential u phi) :: _data A) u))
  ∧ (forall n, __or__ uuid4 A (PyOther n) = NotImplemented
               ∧ __ror__ uuid4 A (PyOther n) = NotImplemented).
Proof.
  intros HA HB Hu Hdisj -> Hfresh.
  apply constructed_inv in HA as (HndA & HneA & HallA).
  apply constructed_inv in HB as (HndB & HneB & HallB).
  assert (forall k, k ∈ dict_keys (_data B) -> k ∉ dict_keys (_data A)) as Hdisj'.
  { intros k Hk Hk'. by apply (Hdisj k). }
  unfold __or__, __ror__. cbn [as_potential compatible_dict].
  repeat split.
  - rewrite <- (dict_or_disjoint (_data A) (_data B)) by done.
    f_equal. apply init_dict_or; [done..|]. by rewrite Hu.
  - rewrite <- (dict_or_disjoint (_data B) (_data A)) by done.
    f_equal. apply init_dict_or; [done..|]. by rewrite <- Hu.
  - rewrite <- (dict_or_disjoint (_data B) (_data A)) by done.
    f_equal. apply init_dict_or; [done..|]. by rewrite <- Hu.
  - rewrite <- (dict_or_disjoint (_data A) [(uuid4, SimplePotential (units A) phi)]).
    + f_equal. apply init_dict_or; [done..|]. by repeat constructor.
    + apply NoDup_singleton.
    + intros k Hk ->%list_elem_of_singleton. done.
  - change ((uuid4, SimplePotential (units A) phi) :: _data A)
      with ([(uuid4, SimplePotential (units A) phi)] ++ _data A).
    rewrite <- (dict_or_disjoint [(uuid4, SimplePotential (units A) phi)] (_data A)).
    + f_equal. apply init_dict_or; [done| |done]. by repeat constructor.
    + done.
    + intros k ->%list_elem_of_singleton. done.
Qed.

(** C10.  For constructed composites [A] and [B] of one unit system, [A | B]
    is built; a key of both maps to the sub-potential of [B] and stays at the
    position it has in [A]; the keys are those of [A] followed by the new
    keys of [B]; and the number of components is [len(A) + len(B)] less the
    number of shared keys. *)
Theorem C10_or_shared_keys (uuid4 : string) A B :
  constructed A -> constructed B -> units A = units B ->
  exists C,
    __or__ uuid4 A (PyPotential (as_potential B)) = Returned (Ok C)
    ∧ (forall k, k ∈ dict_keys (_data A) -> k ∈ dict_keys (_data B) ->
         dict_getitem k (_data C) = dict_getitem k (_data B)
         ∧ key_index k (dict_keys (_data C)) = key_index k (dict_keys (_data A)))
    ∧ dict_keys (_data C)
      = dict_keys (_data A)
        ++ filter (fun k => k ∉ dict_keys (_data A)) (dict_keys (_data B))
    ∧ length (_data C)
      = length (_data A) + length (_data B)
        - length (filter (fun k => k ∈ dict_keys (_data A)) (dict_keys (_data B))).
Proof.
  intros HA HB Hu.
  apply constructed_inv in HA as (HndA & HneA & HallA).
  apply constructed_inv in HB as (HndB & HneB & HallB).
  exists (mkCompositePotential (dict_or (_data A) (_data B)) (units A)).
  unfold __or__. cbn [as_potential compatible_dict _data].
  split; [|split; [|split]].
  - f_equal. apply init_dict_or; [done..|]. by rewrite Hu.
  - intros k HkA HkB. rewrite dict_getitem_or by done. split.
    + destruct (dict_getitem k (_data B)) eqn:Hget; [done|].
      by apply dict_getitem_None in Hget.
    + rewrite dict_keys_or by done. by apply key_index_app_l.
  - by apply dict_keys_or.
  - pose proof (dict_keys_or (_data A) (_data B) HndB) as Hkeys.
    apply (f_equal length) in Hkeys.
    rewrite length_app, !length_dict_keys in Hkeys.
    pose proof (filter_split_length (fun k => k ∈ dict_keys (_data A))
                  (dict_keys (_data B))) as Hsplit.
    rewrite length_dict_keys in Hsplit. rewrite Hkeys. lia.
Qed.

End CompositeTheorems.

Section EnergyTheorems.
Context {UnitSystem : Type} `{EqDecision UnitSystem} {F : Type}.
Variable fadd : F -> F -> F.
Variable fzero : F.
Implicit Types (A : CompositePotential UnitSystem F).
Implicit Types (o : potential UnitSystem F).

Lemma xp_sum_app (l1 l2 : list F) :
  xp_sum fadd fzero (l1 ++ l2) = fold_left fadd l2 (xp_sum fadd fzero l1).
Proof. unfold xp_sum. apply fold_left_app. Qed.

Lemma fold_left_from_zero (l : list F) (acc : F) :
  (forall x y z, fadd x (fadd y z) = fadd (fadd x y) z) ->
  (forall x, fadd fzero x = x) ->
  (forall x, fadd x fzero = x) ->
  fold_left fadd l acc = fadd acc (fold_left fadd l fzero).
Proof.
  intros Hassoc Hleft Hright. revert acc.
  induction l as [|x l IH]; intros acc; simpl; [by rewrite Hright|].
  rewrite (IH (fadd acc x)), (IH (fadd fzero x)), Hleft. by rewrite Hassoc.
Qed.

(** The energy of [A + o] when the keys do not collide: the accumulation over
    the components of [A] continued over those of [o]. *)
Lemma add_energy_unfold (uuid4 : string) A o q t :
  composite_energy fadd fzero
    (mkCompositePotential (_data A ++ compatible_dict uuid4 o) (units A)) q t
  = fold_left fadd
      (map (fun kv => potential_energy fadd fzero (snd kv) q t)
         (compatible_dict uuid4 o))
      (composite_energy fadd fzero A q t).
Proof.
  unfold composite_energy, as_potential. cbn [potential_energy _data].
  by rewrite map_app, xp_sum_app.
Qed.

(** C5, as amended.  For a constructed composite [A] and an operand [o] of the
    same unit system whose keys (the generated key, when [o] is not a
    composite) do not occur in [A], [A + o] is built and its energy at
    [(q, t)] is the energy of [A] plus the energy of [o], in any arithmetic
    whose addition is associative with neutral zero. *)
Theorem C5_additivity_disjoint (uuid4 : string) A o (q : list F) (t : F) :
  (forall x y z, fadd x (fadd y z) = fadd (fadd x y) z) ->
  (forall x, fadd fzero x = x) ->
  (forall x, fadd x fzero = x) ->
  constructed A -> constructed_potential o ->
  potential_units o = units A ->
  (forall k, k ∈ dict_keys (_data A) ->
             k ∉ dict_keys (compatible_dict uuid4 o)) ->
  exists C,
    __add__ uuid4 A o = Ok C
    ∧ _data C = _data A ++ compatible_dict uuid4 o
    ∧ composite_energy fadd fzero C q t
      = fadd (composite_energy fadd fzero A q t)
             (potential_energy fadd fzero o q t).
Proof.
  intros Hassoc Hleft Hright HA Ho Hu Hdisj.
  apply constructed_inv in HA as (HndA & HneA & HallA).
  destruct (compatible_dict_spec uuid4 o Ho) as (Hnd & Hne & Hall).
  exists (mkCompositePotential (_data A ++ compatible_dict uuid4 o) (units A)).
  split; [|split; [done|]].
  - unfold __add__. rewrite <- (dict_or_disjoint (_data A)) by done.
    apply init_dict_or; [done..|]. by rewrite <- Hu.
  - rewrite add_energy_unfold. destruct o as [u phi|data u]; [done|].
    cbn [compatible_dict potential_energy].
    by apply fold_left_from_zero.
Qed.

(** When the right operand is not a composite the sum is exact: no law of
    arithmetic is used. *)
Lemma add_simple_energy (uuid4 : string) A u phi (q : list F) (t : F) :
  composite_energy fadd fzero
    (mkCompositePotential (_data A ++ [(uuid4, SimplePotential u phi)]) (units A))
    q t
  = fadd (composite_energy fadd fzero A q t) (phi q t).
Proof. by rewrite (add_energy_unfold uuid4 A (SimplePotential u phi)). Qed.

End EnergyTheorems.

(** ** Arrays *)

Section ArrayFacts.
Context {A : Type}.
Implicit Types (x a b : list A).

Lemma jnp_getitem_lookup x i v : x !! i = Some v -> jnp_getitem x i = Ok v.
Proof.
  intros Hi. unfold jnp_getitem.
  pose proof (lookup_lt_Some _ _ _ Hi).
  replace (i `min` (length x - 1)) with i by lia. by rewrite Hi.
Qed.

Lemma jnp_getitem_nil i : jnp_getitem (@nil A) i = Raise IndexError.
Proof. unfold jnp_getitem. by rewrite lookup_nil. Qed.

Lemma jnp_getitem_nonempty x i : x ≠ [] -> exists v, jnp_getitem x i = Ok v.
Proof.
  intros Hne. unfold jnp_getitem.
  destruct (lookup_lt_is_Some_2 x (i `min` (length x - 1))) as [v Hv].
  - destruct x; [done|]. simpl. lia.
  - exists v. by rewrite Hv.
Qed.

Lemma jnp_getitem_raise x i e :
  jnp_getitem x i = Raise e -> e = IndexError ∧ x = [].
Proof.
  intros Hr. destruct x as [|v x]; [by rewrite jnp_getitem_nil in Hr; inversion Hr|].
  destruct (jnp_getitem_nonempty (v :: x) i) as [w Hw]; [done|]. congruence.
Qed.

Lemma interleave_concat_length a b :
  length a = length b -> length (interleave_concat a b) = 2 * length a.
Proof.
  revert b. induction a as [|v a IH]; intros [|w b] Hlen; simpl in *; try done.
  rewrite IH by lia. lia.
Qed.

(** Entry [2k] of the interleaving is entry [k] of the first array, entry
    [2k+1] is entry [k] of the second. *)
Lemma interleave_concat_lookup a b k :
  length a = length b ->
  interleave_concat a b !! (2 * k) = a !! k
  ∧ interleave_concat a b !! (2 * k + 1) = b !! k.
Proof.
  revert b k. induction a as [|v a IH]; intros [|w b] k Hlen; try done.
  destruct k as [|k]; [done|].
  replace (2 * S k + 1) with (S (S (2 * k + 1))) by lia.
  replace (2 * S k) with (S (S (2 * k))) by lia.
  cbn -[Nat.mul Nat.add]. apply IH. simpl in Hlen. lia.
Qed.

Lemma columns_lookup lo hi (x : list (list A)) k :
  columns lo hi x !! k = (fun row => take (hi - lo) (drop lo row)) <$> x !! k.
Proof. unfold columns. apply list_lookup_fmap. Qed.

Lemma columns_length lo hi (x : list (list A)) : length (columns lo hi x) = length x.
Proof. unfold columns. apply length_map. Qed.

End ArrayFacts.

Lemma lax_scan_raise {C X Y : Type} (P : exn -> Prop)
    (f : C -> X -> result (C * Y)) xs c e :
  (forall c x e, f c x = Raise e -> P e) ->
  lax_scan f c xs = Raise e -> P e.
Proof.
  intros Hf. revert c. induction xs as [|x xs IH]; intros c; simpl; [done|].
  destruct (f c x) as [[c1 y]|e1] eqn:Hstep; simpl.
  - destruct (lax_scan f c1 xs) as [[c2 ys]|e2] eqn:Hscan; simpl; [done|].
    intros [= <-]. by eapply IH.
  - intros [= <-]. by eapply Hf.
Qed.

Lemma vmap_rows_raise {X Y Z U V : Type} (P : exn -> Prop)
    (f : X -> Y -> Z -> result (U * V)) xs ys zs e :
  (forall x y z e, f x y z = Raise e -> P e) ->
  vmap_rows f xs ys zs = Raise e -> P e.
Proof.
  intros Hf. revert ys zs.
  induction xs as [|x xs IH]; intros [|y ys] [|z zs]; simpl; try done.
  destruct (f x y z) as [[u v]|e1] eqn:Hstep; simpl.
  - destruct (vmap_rows f xs ys zs) as [[us vs]|e2] eqn:Hrows; simpl; [done|].
    intros [= <-]. by eapply IH.
  - intros [= <-]. by eapply Hf.
Qed.

(** The stacked outputs of a [vmap]: row [k] of each output is the image of
    the rows [k] of the inputs. *)
Lemma vmap_rows_lookup {X Y Z U V : Type}
    (f : X -> Y -> Z -> result (U * V)) xs ys zs us vs :
  length xs = length ys -> length ys = length zs ->
  vmap_rows f xs ys zs = Ok (us, vs) ->
  length us = length xs ∧ length vs = length xs
  ∧ forall k x y z,
      xs !! k = Some x -> ys !! k = Some y -> zs !! k = Some z ->
      exists u v, f x y z = Ok (u, v) ∧ us !! k = Some u ∧ vs !! k = Some v.
Proof.
  revert ys zs us vs.
  induction xs as [|x xs IH]; intros [|y ys] [|z zs] us vs Hl1 Hl2; simpl in *;
    try done.
  - intros [= <- <-]. by repeat split.
  - destruct (f x y z) as [[u v]|e1] eqn:Hstep; simpl; [|done].
    destruct (vmap_rows f xs ys zs) as [[us' vs']|e2] eqn:Hrows; simpl; [|done].
    intros [= <- <-].
    destruct (IH ys zs us' vs') as (Hus & Hvs & Hk); [lia|lia|done|].
    repeat split; simpl; [lia|lia|].
    intros [|k] x' y' z'; simpl.
    + intros [= <-] [= <-] [= <-]. by exists u, v.
    + apply Hk.
Qed.

(** ** The two integration strategies *)

Section StrategyFacts.
Context {F : Type}.
Variable fadd : F -> F -> F.
Variable bump : F.
Context {Potential Integrator Orbit : Type}.
Variable integrate_orbit :
  Potential -> @Vec6 F -> list F -> Integrator -> list (@Vec6 F).
Implicit Types (self : MockStreamGenerator F Potential Integrator Orbit).
Implicit Types (ts : list F) (w0_lead w0_trail : list (@Vec6 F)).
Implicit Types (mock0_lead mock0_trail : MockStream F).

Local Abbreviation scan_step := (scan_step integrate_orbit).
Local Abbreviation vmap_step := (vmap_step integrate_orbit).

Lemma scan_step_unfold self ts t_f w0_lead w0_trail i w0_l_i w0_t_i n :
  scan_step self ts t_f w0_lead w0_trail (i, w0_l_i, w0_t_i) n
  = (ts_i ← jnp_getitem ts i;
     w_l ← integ_final integrate_orbit self w0_l_i [ts_i; t_f];
     w_t ← integ_final integrate_orbit self w0_t_i [ts_i; t_f];
     next_l ← jnp_getitem w0_lead (i + 1);
     next_t ← jnp_getitem w0_trail (i + 1);
     Ok ((i + 1, next_l, next_t), (w_l, w_t))).
Proof. reflexivity. Qed.

Lemma vmap_step_unfold self ts t_f i w0_l_i w0_t_i :
  vmap_step self ts t_f i w0_l_i w0_t_i
  = (ts_i ← jnp_getitem ts i;
     w_lead ← integ_final integrate_orbit self w0_l_i [ts_i; t_f];
     w_trail ← integ_final integrate_orbit self w0_t_i [ts_i; t_f];
     Ok (w_lead, w_trail)).
Proof. reflexivity. Qed.

Lemma _run_scan_unfold self ts mock0_lead mock0_trail :
  _run_scan fadd bump integrate_orbit self ts mock0_lead mock0_trail
  = (ts_end ← jnp_last ts;
     first_l ← jnp_getitem (MockStream_w mock0_lead) 0;
     first_t ← jnp_getitem (MockStream_w mock0_trail) 0;
     '(_, ys) ← lax_scan
                  (scan_step self ts (fadd ts_end bump)
                     (MockStream_w mock0_lead) (MockStream_w mock0_trail))
                  (0, first_l, first_t)
                  (seq 0 (length (MockStream_w mock0_lead)));
     Ok (ys.*1, ys.*2)).
Proof. reflexivity. Qed.

Lemma _run_vmap_unfold self ts mock0_lead mock0_trail :
  _run_vmap fadd bump integrate_orbit self ts mock0_lead mock0_trail
  = (ts_end ← jnp_last ts;
     jax_vmap3 (vmap_step self ts (fadd ts_end bump))
       (seq 0 (length (MockStream_w mock0_lead)))
       (MockStream_w mock0_lead) (MockStream_w mock0_trail)).
Proof. reflexivity. Qed.

(** The scan from index [i] over the remaining [m] particles computes what
    the vmap computes on the rows from [i] on: the carried index is the
    scanned one, and the carried initial conditions are the rows [i]. *)
Lemma scan_vmap_rows self ts t_f w0_lead w0_trail m i l_i t_i :
  i + m = length w0_lead -> length w0_lead = length w0_trail ->
  (0 < m -> w0_lead !! i = Some l_i ∧ w0_trail !! i = Some t_i) ->
  ('(_, ys) ← lax_scan (scan_step self ts t_f w0_lead w0_trail)
                (i, l_i, t_i) (seq i m);
   Ok (ys.*1, ys.*2))
  = vmap_rows (vmap_step self ts t_f) (seq i m) (drop i w0_lead) (drop i w0_trail).
Proof.
  revert i l_i t_i. induction m as [|m IH]; intros i l_i t_i Hlen Heq Hrow; [done|].
  destruct (Hrow ltac:(lia)) as [Hl Ht].
  rewrite (drop_S _ _ _ Hl), (drop_S _ _ _ Ht). cbn [seq lax_scan vmap_rows].
  rewrite scan_step_unfold, vmap_step_unfold.
  destruct (jnp_getitem ts i) as [ts_i|e]; simpl; [|done].
  destruct (integ_final integrate_orbit self l_i [ts_i; t_f]) as [w_l|e]; simpl;
    [|done].
  destruct (integ_final integrate_orbit self t_i [ts_i; t_f]) as [w_t|e]; simpl;
    [|done].
  destruct (jnp_getitem_nonempty w0_lead (i + 1)) as [next_l Hnl];
    [by intros ->|].
  destruct (jnp_getitem_nonempty w0_trail (i + 1)) as [next_t Hnt];
    [by intros ->|].
  rewrite Hnl, Hnt. simpl. rewrite Nat.add_1_r.
  assert (0 < m -> w0_lead !! S i = Some next_l ∧ w0_trail !! S i = Some next_t)
    as Hnext.
  { intros Hm.
    destruct (lookup_lt_is_Some_2 w0_lead (S i)) as [x Hx]; [lia|].
    destruct (lookup_lt_is_Some_2 w0_trail (S i)) as [y Hy]; [lia|].
    rewrite Nat.add_1_r in Hnl, Hnt.
    rewrite (jnp_getitem_lookup _ _ _ Hx) in Hnl.
    rewrite (jnp_getitem_lookup _ _ _ Hy) in Hnt.
    by injection Hnl as <-; injection Hnt as <-. }
  specialize (IH (S i) next_l next_t ltac:(lia) Heq Hnext).
  destruct (lax_scan _ _ (seq (S i) m)) as [[c ys]|e]; simpl in *;
    by rewrite <- IH.
Qed.

(** The sequential and the batched strategy agree on arms of one non-zero
    size. *)
Lemma run_scan_vmap self ts mock0_lead mock0_trail :
  length (MockStream_w mock0_lead) = length (MockStream_w mock0_trail) ->
  MockStream_w mock0_lead ≠ [] ->
  _run_scan fadd bump integrate_orbit self ts mock0_lead mock0_trail
  = _run_vmap fadd bump integrate_orbit self ts mock0_lead mock0_trail.
Proof.
  intros Hlen Hne. rewrite _run_scan_unfold, _run_vmap_unfold.
  destruct (jnp_last ts) as [ts_end|e]; simpl; [|done].
  destruct (MockStream_w mock0_lead) as [|l0 w0_lead] eqn:Hl; [done|].
  destruct (MockStream_w mock0_trail) as [|t0 w0_trail] eqn:Ht; [done|].
  rewrite (jnp_getitem_lookup (l0 :: w0_lead) 0 l0) by done.
  rewrite (jnp_getitem_lookup (t0 :: w0_trail) 0 t0) by done. simpl mbind.
  unfold jax_vmap3. rewrite decide_True by (by rewrite length_seq).
  by apply (scan_vmap_rows self ts (fadd ts_end bump) (l0 :: w0_lead)
              (t0 :: w0_trail) (length (l0 :: w0_lead)) 0 l0 t0).
Qed.

(** With no leading particle the scan cannot start. *)
Lemma run_scan_empty self ts mock0_lead mock0_trail :
  MockStream_w mock0_lead = [] ->
  _run_scan fadd bump integrate_orbit self ts mock0_lead mock0_trail
  = Raise IndexError.
Proof.
  intros Hl. rewrite _run_scan_unfold, Hl.
  destruct (jnp_last ts) as [ts_end|e] eqn:Hlast; simpl.
  - done.
  - by apply jnp_getitem_raise in Hlast as [-> _].
Qed.

End StrategyFacts.

(** ** The pipeline of [run] *)

(** Case analysis on the next computation that a bind runs. *)
Ltac bind_step :=
  match goal with
  | |- context [mbind _ ?m] =>
      lazymatch m with
      | Ok _ => fail
      | Raise _ => fail
      | mbind _ _ => fail
      | _ => destruct m eqn:?; simpl
      end
  | |- context [if ?b then _ else _] =>
      lazymatch b with
      | decide _ => destruct b; simpl
      end
  end.

Section GeneratorFacts.
Context {F : Type}.
Variable fadd fmul : F -> F -> F.
Variable fone bump : F.
Variable flt fle : F -> F -> bool.
Context {Potential Integrator Orbit : Type}.
Variable integrate_orbit :
  Potential -> @Vec6 F -> list F -> Integrator -> list (@Vec6 F).
Variable solve_orbit :
  Potential -> PhaseSpaceTimePosition F -> list F -> Integrator -> Orbit.
Implicit Types (self : MockStreamGenerator F Potential Integrator Orbit).
Implicit Types (ts : list F).

Local Abbreviation stream_stage :=
  (stream_stage fadd fmul fone bump integrate_orbit).
Local Abbreviation integrate_stage :=
  (integrate_stage fadd fmul fone bump flt fle integrate_orbit solve_orbit).
Local Abbreviation released_particle :=
  (released_particle fadd bump integrate_orbit).
Local Abbreviation one_particle_per_time := (one_particle_per_time solve_orbit).

Local Abbreviation trace_stage :=
  (trace_stage fadd fmul fone bump flt integrate_orbit solve_orbit).
Local Abbreviation accepted_grid := (accepted_grid fle).

(** [run] is the trace of its integration stages and of the assembly,
    followed by the execution, where [evaluate_orbit] looks at the oriented
    grid. *)
Lemma run_stages platform self ts (prog_w0 : progenitor F) prog_mass seed_num
    vmapped :
  run fadd fmul fone bump flt fle integrate_orbit solve_orbit platform self ts
    prog_w0 prog_mass seed_num vmapped
  = (x ← trace_stage (use_vmap_of platform vmapped) self ts prog_w0 prog_mass
           seed_num;
     r ← assemble (df self) x;
     if accepted_grid (grid x) then Ok r else Raise InvalidTimeGrid).
Proof.
  unfold run, trace_stage, stream_stage, normalise_progenitor, assemble,
    use_vmap_of.
  destruct (match vmapped with
            | Some b => b
            | None => bool_decide (platform = "gpu")
            end);
    destruct (lead (df self)), (trail (df self));
    destruct prog_w0 as [w rank|pos vel rank|w]; simpl.
  all: repeat first
         [ match goal with
           | |- context [sample ?d ?a ?b ?c ?e] =>
               destruct (sample d a b c e); simpl
           | x : (_ * _)%type |- _ => destruct x; simpl
           | |- context [mbind _ ?m] =>
               lazymatch m with
               | evaluate_orbit _ _ _ _ _ _ => fail
               | _ => bind_step
               end
           | |- context [if decide _ then _ else _] => bind_step
           end ];
       try done.
  all: unfold evaluate_orbit, accepted_grid; by destruct (_ || _).
Qed.

(** *** Time grids *)

Lemma monotone_decreasing_flip (R : F -> F -> bool) ts :
  monotone_decreasing R ts = monotone_increasing (fun a b => R b a) ts.
Proof.
  induction ts as [|a ts IH]; [done|]. destruct ts as [|b ts]; [done|].
  simpl in *. by rewrite IH.
Qed.

Lemma monotone_increasing_snoc (R : F -> F -> bool) ts x y :
  monotone_increasing R (ts ++ [x; y])
  = monotone_increasing R (ts ++ [x]) && R x y.
Proof.
  induction ts as [|a ts IH]; simpl.
  - by destruct (R x y).
  - destruct ts as [|b ts]; simpl in *.
    + by destruct (R a x), (R x y).
    + rewrite IH. by rewrite andb_assoc.
Qed.

Lemma monotone_increasing_reverse (R : F -> F -> bool) ts :
  monotone_increasing R (reverse ts) = monotone_increasing (fun a b => R b a) ts.
Proof.
  induction ts as [|a ts IH]; [done|]. destruct ts as [|b ts]; [done|].
  rewrite reverse_cons, reverse_cons, <- app_assoc. simpl app.
  rewrite monotone_increasing_snoc, <- reverse_cons, IH.
  simpl. apply andb_comm.
Qed.

(** Reversing a grid exchanges increasing and decreasing. *)
Lemma monotone_reverse ts :
  monotone_increasing fle (reverse ts) = monotone_decreasing fle ts
  ∧ monotone_decreasing fle (reverse ts) = monotone_increasing fle ts.
Proof.
  split.
  - by rewrite monotone_increasing_reverse, monotone_decreasing_flip.
  - rewrite monotone_decreasing_flip, monotone_increasing_reverse.
    clear. induction ts as [|a ts IH]; [done|]. destruct ts as [|b ts]; [done|].
    simpl in *. by rewrite IH.
Qed.

Lemma length_cond_reverse (c : bool) ts : length (cond_reverse c ts) = length ts.
Proof. destruct c; [apply length_reverse|done]. Qed.

(** Orienting a grid does not change whether the integrator accepts it. *)
Lemma monotone_cond_reverse (c : bool) ts :
  monotone_increasing fle (cond_reverse c ts)
  || monotone_decreasing fle (cond_reverse c ts)
  = monotone_increasing fle ts || monotone_decreasing fle ts.
Proof.
  destruct c; [|done]. simpl.
  destruct (monotone_reverse ts) as [-> ->]. apply orb_comm.
Qed.

Lemma normalise_progenitor_ok ts (prog_w0 : progenitor F) :
  ts ≠ [] -> progenitor_rank prog_w0 = 0 ->
  exists w0, normalise_progenitor ts prog_w0 = Ok w0.
Proof.
  intros Hne Hrank. destruct (jnp_getitem_nonempty ts 0 Hne) as [ts_0 Hts].
  destruct prog_w0 as [w rank|pos vel rank|w]; simpl in *; subst;
    rewrite ?Hts; simpl; eauto.
Qed.

(** *** Errors of the trace *)

(** An index error of a stage that has failed. *)
Ltac raise_index :=
  unfold integ_final, jnp_last in *;
  match goal with
  | H : jnp_getitem _ _ = Raise _ |- _ => apply jnp_getitem_raise in H as [-> _]
  end.

Lemma scan_step_raise self ts t_f (w0_lead w0_trail : list (@Vec6 F)) c n e :
  scan_step integrate_orbit self ts t_f w0_lead w0_trail c n = Raise e ->
  e = IndexError.
Proof.
  destruct c as [[i w0_l_i] w0_t_i]. rewrite scan_step_unfold.
  repeat bind_step; intros [= <-]; by raise_index.
Qed.

Lemma vmap_step_raise self ts t_f i (w0_l_i w0_t_i : @Vec6 F) e :
  vmap_step integrate_orbit self ts t_f i w0_l_i w0_t_i = Raise e ->
  e = IndexError.
Proof.
  rewrite vmap_step_unfold. repeat bind_step; intros [= <-]; by raise_index.
Qed.

Lemma run_scan_raise self ts mock0_lead mock0_trail e :
  _run_scan fadd bump integrate_orbit self ts mock0_lead mock0_trail = Raise e ->
  e = IndexError.
Proof.
  rewrite _run_scan_unfold.
  destruct (jnp_last ts) as [ts_end|e0] eqn:Hlast; simpl;
    [|intros [= <-]; by raise_index].
  destruct (jnp_getitem (MockStream_w mock0_lead) 0) as [first_l|e0] eqn:Hl;
    simpl; [|intros [= <-]; by raise_index].
  destruct (jnp_getitem (MockStream_w mock0_trail) 0) as [first_t|e0] eqn:Ht;
    simpl; [|intros [= <-]; by raise_index].
  destruct (lax_scan _ _ _) as [[c ys]|e0] eqn:Hscan; simpl; [done|].
  intros [= <-].
  apply (lax_scan_raise (fun e => e = IndexError)) in Hscan; [done|].
  intros c x e1. apply scan_step_raise.
Qed.

Lemma run_vmap_raise self ts mock0_lead mock0_trail e :
  _run_vmap fadd bump integrate_orbit self ts mock0_lead mock0_trail = Raise e ->
  e = IndexError ∨ e = ValueError vmap_msg.
Proof.
  rewrite _run_vmap_unfold.
  destruct (jnp_last ts) as [ts_end|e0] eqn:Hlast; simpl;
    [|intros [= <-]; left; by raise_index].
  unfold jax_vmap3. case_decide; [|intros [= <-]; by right].
  intros Hrows. left.
  apply (vmap_rows_raise (fun e => e = IndexError)) in Hrows; [done|].
  intros x y z e1. apply vmap_step_raise.
Qed.

(** The trace of the integration stages raises neither the error of the
    assembly nor the error of the integrator. *)
Lemma trace_stage_raise use_vmap self ts (prog_w0 : progenitor F)
    prog_mass seed_num e :
  trace_stage use_vmap self ts prog_w0 prog_mass seed_num = Raise e ->
  e ≠ ValueError no_arm_msg ∧ e ≠ InvalidTimeGrid.
Proof.
  unfold trace_stage, stream_stage.
  destruct (normalise_progenitor ts prog_w0) as [w0|e0] eqn:Hnorm; simpl.
  2:{ intros [= <-]. unfold normalise_progenitor in Hnorm.
      destruct prog_w0; repeat case_decide; try done;
        revert Hnorm; repeat bind_step; intros [= <-]; try done; by raise_index. }
  destruct (jnp_getitem ts 1) as [ts_1|e0] eqn:H1; simpl;
    [|intros [= <-]; by raise_index].
  destruct (jnp_getitem ts 0) as [ts_0|e0] eqn:H0; simpl;
    [|intros [= <-]; by raise_index].
  destruct (if use_vmap then _ else _) as [[la ta]|e0] eqn:Harms; simpl.
  - destruct (jnp_last _) as [ts_end|e0] eqn:Hlast; simpl; [done|].
    intros [= <-]. by raise_index.
  - intros [= <-]. destruct use_vmap.
    + by apply run_vmap_raise in Harms as [->| ->].
    + by apply run_scan_raise in Harms as ->.
Qed.

(** *** From the trace to the call that returns *)

Lemma trace_stage_inv use_vmap self ts (prog_w0 : progenitor F) prog_mass
    seed_num x :
  trace_stage use_vmap self ts prog_w0 prog_mass seed_num = Ok x ->
  exists w0 ts',
    length ts' = length ts ∧ ts ≠ []
    ∧ accepted_grid ts' = accepted_grid ts
    ∧ stream_stage use_vmap self ts'
        (solve_orbit (potential_ self) w0 ts' (progenitor_integrator self))
        prog_mass seed_num = Ok x.
Proof.
  unfold trace_stage.
  destruct (normalise_progenitor ts prog_w0) as [w0|e]; simpl; [|done].
  destruct (jnp_getitem ts 1) as [ts_1|e] eqn:H1; simpl; [|done].
  destruct (jnp_getitem ts 0) as [ts_0|e]; simpl; [|done].
  intros Hstream. exists w0, (cond_reverse (flt ts_1 ts_0) ts).
  split; [apply length_cond_reverse|]. split; [|split; [|done]].
  - intros ->. by rewrite jnp_getitem_nil in H1.
  - apply monotone_cond_reverse.
Qed.

Lemma stream_stage_inv use_vmap self ts prog_o prog_mass seed_num x mocks :
  mocks = sample (df self) (potential_ self) prog_o prog_mass seed_num ->
  stream_stage use_vmap self ts prog_o prog_mass seed_num = Ok x ->
  grid x = ts ∧ prog_orbit x = prog_o
  ∧ ics_lead x = mocks.1 ∧ ics_trail x = mocks.2
  ∧ (if use_vmap
     then _run_vmap fadd bump integrate_orbit self ts mocks.1 mocks.2
     else _run_scan fadd bump integrate_orbit self ts mocks.1 mocks.2)
    = Ok (lead_arm x, trail_arm x).
Proof.
  intros ->. unfold stream_stage. cbv zeta. intros Hx.
  destruct (if use_vmap then _ else _) as [[la ta]|e]; simpl in Hx; [|done].
  destruct (jnp_last ts) as [ts_end|e]; simpl in Hx; [|done].
  by injection Hx as <-.
Qed.

(** The grid of a trace is accepted when the grid of the call is. *)
Lemma trace_stage_grid use_vmap self ts (prog_w0 : progenitor F) prog_mass
    seed_num x :
  trace_stage use_vmap self ts prog_w0 prog_mass seed_num = Ok x ->
  accepted_grid (grid x) = accepted_grid ts.
Proof.
  intros Htrace.
  destruct (trace_stage_inv _ _ _ _ _ _ _ Htrace) as (w0 & ts' & _ & _ & Hacc & Hstream).
  by destruct (stream_stage_inv _ _ _ _ _ _ _ _ eq_refl Hstream) as (-> & _).
Qed.

(** A call goes through all its stages when its trace is built and its grid
    is accepted. *)
Lemma integrate_stage_traced use_vmap self ts (prog_w0 : progenitor F)
    prog_mass seed_num x :
  integrate_stage use_vmap self ts prog_w0 prog_mass seed_num = Ok x
  <-> trace_stage use_vmap self ts prog_w0 prog_mass seed_num = Ok x
      ∧ accepted_grid ts = true.
Proof.
  unfold integrate_stage, trace_stage.
  destruct (normalise_progenitor ts prog_w0) as [w0|e]; simpl; [|by split; [|intros []]].
  destruct (jnp_getitem ts 1) as [ts_1|e]; simpl; [|by split; [|intros []]].
  destruct (jnp_getitem ts 0) as [ts_0|e]; simpl; [|by split; [|intros []]].
  unfold evaluate_orbit. rewrite monotone_cond_reverse. fold (accepted_grid ts).
  destruct (accepted_grid ts); simpl; [by split; [|intros []]|].
  by split; [|intros []].
Qed.

(** [run] returns what the assembly returns after all the stages. *)
Lemma run_ok platform self ts (prog_w0 : progenitor F) prog_mass seed_num
    vmapped r :
  run fadd fmul fone bump flt fle integrate_orbit solve_orbit platform self ts
    prog_w0 prog_mass seed_num vmapped = Ok r
  <-> exists x,
        integrate_stage (use_vmap_of platform vmapped) self ts prog_w0 prog_mass
          seed_num = Ok x
        ∧ assemble (df self) x = Ok r.
Proof.
  rewrite run_stages.
  destruct (trace_stage _ _ _ _ _ _) as [x|e] eqn:Htrace; simpl.
  - rewrite (trace_stage_grid _ _ _ _ _ _ _ Htrace). split.
    + destruct (assemble (df self) x) as [r'|e] eqn:Hasm; simpl; [|done].
      destruct (accepted_grid ts) eqn:Hacc; [|done].
      intros [= <-]. exists x. split; [|done].
      by apply integrate_stage_traced.
    + intros (x' & Hstage & Hasm).
      apply integrate_stage_traced in Hstage as [Htrace' Hacc].
      rewrite Htrace in Htrace'. injection Htrace' as <-.
      by rewrite Hasm, Hacc.
  - split; [done|]. intros (x' & Hstage & _).
    apply integrate_stage_traced in Hstage as [Htrace' _]. congruence.
Qed.

Lemma integrate_stage_inv use_vmap self ts (prog_w0 : progenitor F) prog_mass
    seed_num x :
  integrate_stage use_vmap self ts prog_w0 prog_mass seed_num = Ok x ->
  exists w0 ts',
    length ts' = length ts ∧ ts ≠ []
    ∧ stream_stage use_vmap self ts'
        (solve_orbit (potential_ self) w0 ts' (progenitor_integrator self))
        prog_mass seed_num = Ok x.
Proof.
  intros Hstage. apply integrate_stage_traced in Hstage as [Htrace _].
  destruct (trace_stage_inv _ _ _ _ _ _ _ Htrace) as (w0 & ts' & ? & ? & _ & ?).
  by exists w0, ts'.
Qed.

(** Either strategy returns as many leading as trailing final states. *)
Lemma arms_same_length (use_vmap : bool) self ts mock0_lead mock0_trail la ta :
  (if use_vmap
   then _run_vmap fadd bump integrate_orbit self ts mock0_lead mock0_trail
   else _run_scan fadd bump integrate_orbit self ts mock0_lead mock0_trail)
  = Ok (la, ta) ->
  length la = length ta.
Proof.
  destruct use_vmap.
  - rewrite _run_vmap_unfold.
    destruct (jnp_last ts) as [ts_end|e]; simpl; [|done].
    unfold jax_vmap3. case_decide as Hsz; [|done]. destruct Hsz as [Hsz1 Hsz2].
    intros Hrows.
    apply vmap_rows_lookup in Hrows as (Hla & Hta & _); [congruence|done..].
  - rewrite _run_scan_unfold.
    destruct (jnp_last ts) as [ts_end|e]; simpl; [|done].
    destruct (jnp_getitem (MockStream_w mock0_lead) 0) as [first_l|e]; simpl;
      [|done].
    destruct (jnp_getitem (MockStream_w mock0_trail) 0) as [first_t|e]; simpl;
      [|done].
    destruct (lax_scan _ _ _) as [[c ys]|e]; simpl; [|done].
    intros [= <- <-]. by rewrite !length_fmap.
Qed.

Lemma integrate_stage_arms use_vmap self ts (prog_w0 : progenitor F) prog_mass
    seed_num x :
  integrate_stage use_vmap self ts prog_w0 prog_mass seed_num = Ok x ->
  length (lead_arm x) = length (trail_arm x).
Proof.
  intros Hstage.
  destruct (integrate_stage_inv _ _ _ _ _ _ _ Hstage) as (w0 & ts' & _ & _ & Hstream).
  destruct (stream_stage_inv _ _ _ _ _ _ _ _ eq_refl Hstream)
    as (_ & _ & _ & _ & Harms).
  by apply arms_same_length in Harms.
Qed.

(** C6, as amended.  With the integrator of section 4.3 of the specification,
    which refuses a grid that is neither increasing nor decreasing: on such a
    grid [run] never returns; it raises what the trace raises (a progenitor
    that is not scalar, an array without entries, arms of two sizes, no arm
    enabled) and, when the trace is built, [InvalidTimeGrid].  A decreasing
    grid is accepted, and [run] goes on with the progenitor's orbit on the
    oriented grid: the grid reversed when [ts[1] < ts[0]], the grid as it is
    given when its first two times are equal. *)
Theorem C6_time_grid platform self ts (prog_w0 : progenitor F) prog_mass
    seed_num vmapped :
  (monotone_increasing fle ts = false -> monotone_decreasing fle ts = false ->
   (forall r,
      run fadd fmul fone bump flt fle integrate_orbit solve_orbit platform self
        ts prog_w0 prog_mass seed_num vmapped ≠ Ok r)
   ∧ (forall x r,
        trace_stage (use_vmap_of platform vmapped) self ts prog_w0 prog_mass
          seed_num = Ok x ->
        assemble (df self) x = Ok r ->
        run fadd fmul fone bump flt fle integrate_orbit solve_orbit platform
          self ts prog_w0 prog_mass seed_num vmapped
        = Raise InvalidTimeGrid)
   ∧ (forall e,
        trace_stage (use_vmap_of platform vmapped) self ts prog_w0 prog_mass
          seed_num ≫= assemble (df self) = Raise e ->
        run fadd fmul fone bump flt fle integrate_orbit solve_orbit platform
          self ts prog_w0 prog_mass seed_num vmapped
        = Raise e))
  ∧ (forall a b rest,
       ts = a :: b :: rest -> monotone_decreasing fle ts = true ->
       progenitor_rank prog_w0 = 0 ->
       exists w0,
         normalise_progenitor ts prog_w0 = Ok w0
         ∧ (flt b a = true ->
            run fadd fmul fone bump flt fle integrate_orbit solve_orbit platform
              self ts prog_w0 prog_mass seed_num vmapped
            = stream_stage (use_vmap_of platform vmapped) self (reverse ts)
                (solve_orbit (potential_ self) w0 (reverse ts)
                   (progenitor_integrator self))
                prog_mass seed_num
              ≫= assemble (df self))
         ∧ (flt b a = false ->
            run fadd fmul fone bump flt fle integrate_orbit solve_orbit platform
              self ts prog_w0 prog_mass seed_num vmapped
            = stream_stage (use_vmap_of platform vmapped) self ts
                (solve_orbit (potential_ self) w0 ts
                   (progenitor_integrator self))
                prog_mass seed_num
              ≫= assemble (df self))).
Proof.
  split.
  - intros Hinc Hdec.
    assert (accepted_grid ts = false) as Hacc
      by (unfold accepted_grid; by rewrite Hinc, Hdec).
    rewrite run_stages.
    destruct (trace_stage _ _ _ _ _ _) as [x|e] eqn:Htrace; simpl.
    + rewrite (trace_stage_grid _ _ _ _ _ _ _ Htrace), Hacc.
      split; [|split].
      * intros r. by destruct (assemble (df self) x).
      * intros x' r [= <-] ->. done.
      * intros e. by destruct (assemble (df self) x); [|intros [= <-]].
    + split; [done|]. split; [done|]. by intros e' [= <-].
  - intros a b rest -> Hdec Hrank.
    destruct (normalise_progenitor_ok (a :: b :: rest) prog_w0) as [w0 Hw0];
      [done..|].
    exists w0. split; [done|].
    assert (forall c : bool,
              flt b a = c ->
              run fadd fmul fone bump flt fle integrate_orbit solve_orbit platform
                self (a :: b :: rest) prog_w0 prog_mass seed_num vmapped
              = stream_stage (use_vmap_of platform vmapped) self
                  (cond_reverse c (a :: b :: rest))
                  (solve_orbit (potential_ self) w0
                     (cond_reverse c (a :: b :: rest))
                     (progenitor_integrator self))
                  prog_mass seed_num
                ≫= assemble (df self)) as Hrun.
    { intros c Hc. rewrite run_stages. unfold trace_stage. rewrite Hw0.
      cbn [mbind result_bind].
      rewrite (jnp_getitem_lookup (a :: b :: rest) 1 b) by done.
      rewrite (jnp_getitem_lookup (a :: b :: rest) 0 a) by done.
      cbn [mbind result_bind]. rewrite Hc.
      destruct (stream_stage _ _ _ _ _ _) as [x|e] eqn:Hstream; [|done].
      cbn [mbind result_bind].
      destruct (stream_stage_inv _ _ _ _ _ _ _ _ eq_refl Hstream) as (-> & _).
      unfold accepted_grid. rewrite monotone_cond_reverse, Hdec, orb_true_r.
      by destruct (assemble (df self) x). }
    split; intros Hlt; by rewrite (Hrun _ Hlt).
Qed.

(** C7.  [run] raises the [ValueError] of the assembly (the spec's
    ConfigurationError) exactly when its body is traced as far as the
    assembly and both arm flags are false: the error is raised while the body
    is traced, whatever the times of the grid.  When all the stages have
    succeeded and one arm is enabled, [run] returns the particles of that
    arm; with both arms enabled, the two arms hold as many final states as
    each other and, when they record as many release times as each other,
    [run] returns the stream that interleaves them. *)
Theorem C7_arm_selection platform self ts (prog_w0 : progenitor F) prog_mass
    seed_num vmapped :
  (run fadd fmul fone bump flt fle integrate_orbit solve_orbit platform self ts
     prog_w0 prog_mass seed_num vmapped
   = Raise (ValueError no_arm_msg)
   <-> (exists x, trace_stage (use_vmap_of platform vmapped) self ts prog_w0
                    prog_mass seed_num = Ok x)
       ∧ lead (df self) = false ∧ trail (df self) = false)
  ∧ (forall x,
       integrate_stage (use_vmap_of platform vmapped) self ts prog_w0 prog_mass
         seed_num = Ok x ->
       (lead (df self) = true -> trail (df self) = false ->
        run fadd fmul fone bump flt fle integrate_orbit solve_orbit platform
          self ts prog_w0 prog_mass seed_num vmapped
        = Ok (mkMockStream (columns 0 3 (lead_arm x)) (columns 3 6 (lead_arm x))
                (eval_time x) (release_time (ics_lead x)),
              prog_orbit x))
       ∧ (lead (df self) = false -> trail (df self) = true ->
          run fadd fmul fone bump flt fle integrate_orbit solve_orbit platform
            self ts prog_w0 prog_mass seed_num vmapped
          = Ok (mkMockStream (columns 0 3 (trail_arm x))
                  (columns 3 6 (trail_arm x)) (eval_time x)
                  (release_time (ics_trail x)),
                prog_orbit x))
       ∧ (lead (df self) = true -> trail (df self) = true ->
          length (lead_arm x) = length (trail_arm x)
          ∧ (length (release_time (ics_lead x))
             = length (release_time (ics_trail x)) ->
             run fadd fmul fone bump flt fle integrate_orbit solve_orbit platform
               self ts prog_w0 prog_mass seed_num vmapped
             = Ok (mkMockStream
                     (interleave_concat (columns 0 3 (trail_arm x))
                        (columns 0 3 (lead_arm x)))
                     (interleave_concat (columns 3 6 (trail_arm x))
                        (columns 3 6 (lead_arm x)))
                     (interleave_concat (eval_time x) (eval_time x))
                     (interleave_concat (release_time (ics_lead x))
                        (release_time (ics_trail x))),
                   prog_orbit x)))).
Proof.
  split; [split|].
  - rewrite run_stages.
    destruct (trace_stage _ _ _ _ _ _) as [x|e] eqn:Htrace; simpl.
    + unfold assemble.
      destruct (lead (df self)), (trail (df self)); simpl;
        try (by destruct (accepted_grid (grid x))).
      intros _. by eauto.
    + intros [= ->]. by apply trace_stage_raise in Htrace as [? _].
  - intros ([x Htrace] & Hl & Ht). rewrite run_stages, Htrace. simpl.
    unfold assemble. by rewrite Hl, Ht.
  - intros x Hstage.
    assert (forall r, assemble (df self) x = Ok r ->
              run fadd fmul fone bump flt fle integrate_orbit solve_orbit
                platform self ts prog_w0 prog_mass seed_num vmapped = Ok r)
      as Hrun by (intros r Hasm; apply run_ok; eauto).
    unfold assemble in Hrun.
    split; [|split]; intros Hl Ht; rewrite Hl, Ht in Hrun; simpl in Hrun.
    + by apply Hrun.
    + by apply Hrun.
    + split; [by apply integrate_stage_arms in Hstage|]. intros _. by apply Hrun.
Qed.

(** *** The released particles *)

Lemma stream_stage_strategy self ts prog_o prog_mass seed_num :
  let mocks := sample (df self) (potential_ self) prog_o prog_mass seed_num in
  length (MockStream_w mocks.1) = length (MockStream_w mocks.2) ->
  MockStream_w mocks.1 ≠ [] ->
  stream_stage true self ts prog_o prog_mass seed_num
  = stream_stage false self ts prog_o prog_mass seed_num.
Proof.
  intros mocks Hlen Hne. unfold stream_stage. fold mocks.
  by rewrite (run_scan_vmap fadd bump integrate_orbit self ts mocks.1 mocks.2).
Qed.

Lemma trace_stage_strategy self ts (prog_w0 : progenitor F) prog_mass
    seed_num :
  one_particle_per_time self prog_mass seed_num ->
  trace_stage true self ts prog_w0 prog_mass seed_num
  = trace_stage false self ts prog_w0 prog_mass seed_num.
Proof.
  intros Hdf. unfold trace_stage.
  destruct (normalise_progenitor ts prog_w0) as [w0|e]; simpl; [|done].
  destruct (jnp_getitem ts 1) as [ts_1|e] eqn:H1; simpl; [|done].
  destruct (jnp_getitem ts 0) as [ts_0|e]; simpl; [|done].
  destruct (Hdf w0 (cond_reverse (flt ts_1 ts_0) ts)) as [Hl Ht].
  rewrite length_cond_reverse in Hl, Ht.
  apply stream_stage_strategy; [congruence|].
  intros Hnil. rewrite Hnil in Hl. destruct ts; [|done].
  by rewrite jnp_getitem_nil in H1.
Qed.

(** C1.  The sequential strategy and the batched strategy return the same
    leading and trailing final states on arms of one non-zero size (exactly:
    both apply one integrator to the same initial conditions and time
    steps); and with a sampler that releases one particle per arm and
    stripping time, [run] returns the same result, or raises the same error,
    whatever the platform and the requested strategy. *)
Theorem C1_strategy_equivalence self ts (prog_w0 : progenitor F) prog_mass
    seed_num :
  one_particle_per_time self prog_mass seed_num ->
  (forall ts' mock0_lead mock0_trail,
     length (MockStream_w mock0_lead) = length (MockStream_w mock0_trail) ->
     MockStream_w mock0_lead ≠ [] ->
     _run_scan fadd bump integrate_orbit self ts' mock0_lead mock0_trail
     = _run_vmap fadd bump integrate_orbit self ts' mock0_lead mock0_trail)
  ∧ (forall platform platform' vmapped vmapped',
       run fadd fmul fone bump flt fle integrate_orbit solve_orbit platform
         self ts prog_w0 prog_mass seed_num vmapped
       = run fadd fmul fone bump flt fle integrate_orbit solve_orbit platform'
           self ts prog_w0 prog_mass seed_num vmapped').
Proof.
  intros Hdf. split; [intros; by apply run_scan_vmap|].
  intros platform platform' vmapped vmapped'. rewrite !run_stages.
  pose proof (trace_stage_strategy self ts prog_w0 prog_mass seed_num Hdf) as Hs.
  destruct (use_vmap_of platform vmapped), (use_vmap_of platform' vmapped');
    by rewrite ?Hs.
Qed.

(** The arms that either strategy returns: row [k] of each is the released
    particle of index [k]. *)
Lemma arms_spec (use_vmap : bool) self ts mock0_lead mock0_trail la ta :
  length (MockStream_w mock0_lead) = length (MockStream_w mock0_trail) ->
  (if use_vmap
   then _run_vmap fadd bump integrate_orbit self ts mock0_lead mock0_trail
   else _run_scan fadd bump integrate_orbit self ts mock0_lead mock0_trail)
  = Ok (la, ta) ->
  length la = length (MockStream_w mock0_lead)
  ∧ length ta = length (MockStream_w mock0_lead)
  ∧ forall k, k < length (MockStream_w mock0_lead) ->
      exists w_lead w_trail,
        released_particle self ts (MockStream_w mock0_lead) k = Ok w_lead
        ∧ released_particle self ts (MockStream_w mock0_trail) k = Ok w_trail
        ∧ la !! k = Some w_lead ∧ ta !! k = Some w_trail.
Proof.
  intros Hlen Harms.
  assert (_run_vmap fadd bump integrate_orbit self ts mock0_lead mock0_trail
          = Ok (la, ta)) as Hvmap.
  { destruct use_vmap; [done|].
    destruct (decide (MockStream_w mock0_lead = [])) as [Hnil|Hne].
    - by rewrite run_scan_empty in Harms.
    - by rewrite <- run_scan_vmap. }
  clear Harms. rewrite _run_vmap_unfold in Hvmap. unfold released_particle.
  destruct (jnp_last ts) as [ts_end|e]; simpl in Hvmap; [|done].
  unfold jax_vmap3 in Hvmap. case_decide as Hsz; [|done].
  destruct Hsz as [Hsz1 Hsz2]. rewrite length_seq in Hsz1.
  apply vmap_rows_lookup in Hvmap as (Hla & Hta & Hrow); [|by rewrite length_seq|done].
  rewrite length_seq in Hla, Hta. repeat split; [done..|].
  intros k Hk.
  destruct (lookup_lt_is_Some_2 (MockStream_w mock0_lead) k) as [y Hy]; [lia|].
  destruct (lookup_lt_is_Some_2 (MockStream_w mock0_trail) k) as [z Hz]; [lia|].
  destruct (Hrow k k y z) as (u & v & Hstep & Hu & Hv);
    [by rewrite lookup_seq_lt|done..|].
  exists u, v. rewrite vmap_step_unfold in Hstep.
  rewrite (jnp_getitem_lookup _ _ _ Hy), (jnp_getitem_lookup _ _ _ Hz).
  cbn [mbind result_bind].
  destruct (jnp_getitem ts k) as [ts_k|e]; simpl in *; [|done].
  destruct (integ_final integrate_orbit self y _) as [w_l|e]; simpl in *; [|done].
  destruct (integ_final integrate_orbit self z _) as [w_t|e]; simpl in *; [|done].
  by injection Hstep as <- <-.
Qed.

(** What [run] returns with both arms enabled. *)
Lemma run_both_arms platform self ts (prog_w0 : progenitor F) prog_mass
    seed_num vmapped stream prog_o :
  lead (df self) = true -> trail (df self) = true ->
  run fadd fmul fone bump flt fle integrate_orbit solve_orbit platform self ts
    prog_w0 prog_mass seed_num vmapped = Ok (stream, prog_o) ->
  exists x,
    integrate_stage (use_vmap_of platform vmapped) self ts prog_w0 prog_mass
      seed_num = Ok x
    ∧ prog_o = prog_orbit x
    ∧ q stream
      = interleave_concat (columns 0 3 (trail_arm x)) (columns 0 3 (lead_arm x))
    ∧ p stream
      = interleave_concat (columns 3 6 (trail_arm x)) (columns 3 6 (lead_arm x))
    ∧ release_time stream
      = interleave_concat (release_time (ics_lead x)) (release_time (ics_trail x)).
Proof.
  intros Hl Ht Hrun. apply run_ok in Hrun as (x & Hstage & Hasm).
  revert Hasm. unfold assemble. rewrite Hl, Ht. simpl. intros [= <- <-].
  by exists x.
Qed.

(** C2.  With both arms enabled and a sampler that releases one particle per
    arm and stripping time, the stream that [run] returns has two particles
    per stripping time: for every index [k], position and velocity [2k] are
    those of the trailing particle released at index [k], position and
    velocity [2k+1] those of the leading particle released at index [k]. *)
Theorem C2_interleaved_particles platform self ts (prog_w0 : progenitor F)
    prog_mass seed_num vmapped stream prog_o :
  one_particle_per_time self prog_mass seed_num ->
  lead (df self) = true -> trail (df self) = true ->
  run fadd fmul fone bump flt fle integrate_orbit solve_orbit platform self ts
    prog_w0 prog_mass seed_num vmapped = Ok (stream, prog_o) ->
  exists x,
    integrate_stage (use_vmap_of platform vmapped) self ts prog_w0 prog_mass
      seed_num = Ok x
    ∧ length (q stream) = 2 * length (grid x)
    ∧ length (p stream) = 2 * length (grid x)
    ∧ forall k, k < length (grid x) ->
        exists w_trail w_lead,
          released_particle self (grid x) (MockStream_w (ics_trail x)) k
            = Ok w_trail
          ∧ released_particle self (grid x) (MockStream_w (ics_lead x)) k
            = Ok w_lead
          ∧ q stream !! (2 * k) = Some (take 3 w_trail)
          ∧ q stream !! (2 * k + 1) = Some (take 3 w_lead)
          ∧ p stream !! (2 * k) = Some (take 3 (drop 3 w_trail))
          ∧ p stream !! (2 * k + 1) = Some (take 3 (drop 3 w_lead)).
Proof.
  intros Hdf Hl Ht Hrun.
  destruct (run_both_arms _ _ _ _ _ _ _ _ _ Hl Ht Hrun)
    as (x & Hstage & _ & Hq & Hp & _).
  exists x. split; [done|].
  destruct (integrate_stage_inv _ _ _ _ _ _ _ Hstage) as (w0 & ts' & _ & _ & Hstream).
  destruct (stream_stage_inv _ _ _ _ _ _ _ _ eq_refl Hstream)
    as (Hgrid & _ & Hil & Hit & Harms).
  destruct (Hdf w0 ts') as [Hnl Hnt].
  rewrite <- Hil in Harms, Hnl. rewrite <- Hit in Harms, Hnt.
  rewrite <- Hgrid in Harms, Hnl, Hnt.
  apply arms_spec in Harms as (Hla & Hta & Hrow); [|congruence].
  unfold Vec6 in *.
  assert (length (columns 0 3 (trail_arm x)) = length (columns 0 3 (lead_arm x)))
    as Hc03 by (by rewrite !columns_length, Hla, Hta).
  assert (length (columns 3 6 (trail_arm x)) = length (columns 3 6 (lead_arm x)))
    as Hc36 by (by rewrite !columns_length, Hla, Hta).
  rewrite Hq, Hp, !interleave_concat_length, !columns_length by done.
  split; [by rewrite Hta, Hnl|]. split; [by rewrite Hta, Hnl|].
  intros k Hk. destruct (Hrow k) as (w_lead & w_trail & Hrl & Hrt & Hlk & Htk);
    [by rewrite Hnl|].
  exists w_trail, w_lead. split; [done|]. split; [done|].
  destruct (interleave_concat_lookup _ _ k Hc03) as [-> ->].
  destruct (interleave_concat_lookup _ _ k Hc36) as [-> ->].
  rewrite !columns_lookup, Hlk, Htk. by repeat split.
Qed.

(** The release times of the stream that [run] returns with both arms
    enabled: entry [2k] is the release time of the leading particle [k],
    entry [2k+1] that of the trailing particle [k]. *)
Lemma run_release_time_order platform self ts (prog_w0 : progenitor F)
    prog_mass seed_num vmapped stream prog_o :
  lead (df self) = true -> trail (df self) = true ->
  run fadd fmul fone bump flt fle integrate_orbit solve_orbit platform self ts
    prog_w0 prog_mass seed_num vmapped = Ok (stream, prog_o) ->
  exists x,
    integrate_stage (use_vmap_of platform vmapped) self ts prog_w0 prog_mass
      seed_num = Ok x
    ∧ (length (release_time (ics_lead x)) = length (release_time (ics_trail x)) ->
       forall k,
         release_time stream !! (2 * k) = release_time (ics_lead x) !! k
         ∧ release_time stream !! (2 * k + 1) = release_time (ics_trail x) !! k).
Proof.
  intros Hl Ht Hrun.
  destruct (run_both_arms _ _ _ _ _ _ _ _ _ Hl Ht Hrun)
    as (x & Hstage & _ & _ & _ & Hrt).
  exists x. split; [done|]. intros Hlen k. rewrite Hrt.
  by apply interleave_concat_lookup.
Qed.

End GeneratorFacts.

(** ** Constant parameters *)

Section ParameterTheorems.
Context {F : Type}.
Variable fzero : F.

(** C8, as amended.  galax's [ConstantParameter] returns the stored value
    with one singleton axis put in front for each axis of [t] and with its
    entries unchanged; galdynamix's returns the stored value itself, whatever
    the rank of [t]; the two agree for a scalar [t]. *)
Theorem C8_constant_parameter (self : ConstantParameter F) (t : option (array F)) :
  let rank := ndim (default (t0 fzero) t) in
  (entries (galax_ConstantParameter__call__ fzero self t) = entries (value self)
   ∧ shape (galax_ConstantParameter__call__ fzero self t)
     = replicate rank 1 ++ shape (value self)
   ∧ ndim (galax_ConstantParameter__call__ fzero self t)
     = rank + ndim (value self))
  ∧ galdynamix_ConstantParameter__call__ self t = value self
  ∧ (rank = 0 ->
     galax_ConstantParameter__call__ fzero self t
     = galdynamix_ConstantParameter__call__ self t).
Proof.
  unfold galax_ConstantParameter__call__, galdynamix_ConstantParameter__call__,
    expand_batch_dims, ndim.
  cbn [shape entries]. repeat split.
  - by rewrite length_app, length_replicate.
  - intros ->. by destruct (value self).
Qed.

End ParameterTheorems.

(** * The theorems at the concrete instances *)

(** ** Composites *)

Lemma constructed_disk_halo : constructed disk_halo.
Proof. split; [by apply (bool_decide_unpack _)|done]. Defined.

Lemma constructed_bulge_nucleus : constructed bulge_nucleus.
Proof. split; [by apply (bool_decide_unpack _)|done]. Defined.

Lemma constructed_disk_thick : constructed disk_thick.
Proof. split; [by apply (bool_decide_unpack _)|done]. Defined.

Lemma disjoint_disk_halo_bulge_nucleus k :
  k ∈ dict_keys (_data disk_halo) -> k ∉ dict_keys (_data bulge_nucleus).
Proof.
  cbn. rewrite !elem_of_cons, !elem_of_nil. intros [->|[->|[]]]; intros [?|[?|[]]]; done.
Defined.

(** [disk_halo | bulge_nucleus] lists disk, halo, bulge, nucleus. *)
Lemma C9_witness :
  __or__ a_uuid disk_halo (PyPotential (as_potential bulge_nucleus))
  = Returned (Ok (mkCompositePotential
                    (_data disk_halo ++ _data bulge_nucleus) galactic))
  ∧ dict_keys (_data disk_halo ++ _data bulge_nucleus)
    = ["disk"; "halo"; "bulge"; "nucleus"].
Proof.
  split; [|done].
  apply (C9_or_key_order a_uuid disk_halo bulge_nucleus galactic (fun _ _ => 0%Z)
           constructed_disk_halo constructed_bulge_nucleus eq_refl
           disjoint_disk_halo_bulge_nucleus eq_refl).
  by apply (bool_decide_unpack _).
Defined.

(** C10 at [disk_halo | disk_thick], which share the key ["disk"]: three
    components, the shared key first as in [disk_halo], with the
    sub-potential of [disk_thick]. *)
Lemma C10_witness :
  exists C,
    __or__ a_uuid disk_halo (PyPotential (as_potential disk_thick))
    = Returned (Ok C)
    ∧ dict_keys (_data C) = ["disk"; "halo"; "thick"]
    ∧ length (_data C) = 3
    ∧ dict_getitem "disk" (_data C) = Some (uniform_potential galactic 7).
Proof.
  destruct (C10_or_shared_keys a_uuid disk_halo disk_thick
              constructed_disk_halo constructed_disk_thick eq_refl)
    as (C & Hor & Hshared & Hkeys & Hlen).
  exists C. split; [done|]. split; [by rewrite Hkeys|]. split; [by rewrite Hlen|].
  destruct (Hshared "disk") as [-> _]; [by apply (bool_decide_unpack _)..|done].
Defined.

(** C5, as amended, at [disk_halo + bulge_nucleus] over the integers: the
    energy is [(1 + 2) + (3 + 4)]. *)
Lemma C5_witness :
  exists C,
    __add__ a_uuid disk_halo (as_potential bulge_nucleus) = Ok C
    ∧ _data C = _data disk_halo ++ _data bulge_nucleus
    ∧ composite_energy Z.add 0%Z C [] 0%Z
      = (composite_energy Z.add 0%Z disk_halo [] 0
         + composite_energy Z.add 0%Z bulge_nucleus [] 0)%Z.
Proof.
  exact (C5_additivity_disjoint Z.add 0%Z a_uuid disk_halo
           (as_potential bulge_nucleus) [] 0%Z Z.add_assoc Z.add_0_l Z.add_0_r
           constructed_disk_halo constructed_bulge_nucleus eq_refl
           disjoint_disk_halo_bulge_nucleus).
Defined.

(** C5 as stated fails when the operands share keys: [disk_halo + disk_halo]
    is [disk_halo] again, of energy 3, while the energies of the operands add
    up to 6; and in [disk_halo + disk_thick] the disk of [disk_thick]
    replaces the disk of [disk_halo]: energy 14, not [3 + 12]. *)
Lemma C5_counterexample :
  potential_units (as_potential disk_halo) = units disk_halo
  ∧ __add__ a_uuid disk_halo (as_potential disk_halo) = Ok disk_halo
  ∧ composite_energy Z.add 0%Z disk_halo [] 0%Z = 3%Z
  ∧ (composite_energy Z.add 0%Z disk_halo [] 0
     + potential_energy Z.add 0%Z (as_potential disk_halo) [] 0)%Z = 6%Z
  ∧ exists C,
      __add__ a_uuid disk_halo (as_potential disk_thick) = Ok C
      ∧ composite_energy Z.add 0%Z C [] 0%Z = 14%Z
      ∧ (composite_energy Z.add 0%Z disk_halo [] 0
         + potential_energy Z.add 0%Z (as_potential disk_thick) [] 0)%Z = 15%Z.
Proof.
  repeat split. eexists. repeat split.
Qed.

(** ** Constant parameters *)

(** C8 as stated fails for galdynamix's [ConstantParameter]: at a time array
    of rank 1 it returns the scalar value as it is, of rank 0, where one
    singleton axis would match the rank of [t]; galax's returns shape [(1,)]. *)
Lemma C8_counterexample :
  ndim three_times = 1
  ∧ shape (galdynamix_ConstantParameter__call__ scalar_mass (Some three_times))
    = []
  ∧ replicate (ndim three_times) 1 ++ shape (value scalar_mass) = [1]
  ∧ shape (galax_ConstantParameter__call__ 0%float scalar_mass (Some three_times))
    = [1].
Proof. by repeat split. Qed.

(** ** The generator *)

Lemma offset_one_per_time lead trail relabel prog_mass seed_num :
  one_particle_per_time drift_orbit (offset_generator lead trail relabel)
    prog_mass seed_num.
Proof.
  intros w0 ts. cbn. unfold MockStream_w, drift_orbit. cbn.
  by rewrite !length_zip_with, !length_map, Nat.min_id.
Defined.

(** C1 on the demo: the vmap requested on a GPU and the scan requested on a
    CPU return the same. *)
Lemma C1_witness :
  fl_run "gpu" demo_generator demo_ts coasting_progenitor 1%float 0%Z (Some true)
  = fl_run "cpu" demo_generator demo_ts coasting_progenitor 1%float 0%Z
      (Some false).
Proof.
  exact (proj2 (C1_strategy_equivalence fl_add fl_mul 1%float fl_bump fl_lt
                  fl_le drift_integrate drift_orbit demo_generator demo_ts
                  coasting_progenitor 1%float 0%Z
                  (offset_one_per_time true true id 1%float 0%Z))
           "gpu" "cpu" (Some true) (Some false)).
Defined.

(** C2 on the demo: three stripping times, six particles, trailing first. *)
Lemma C2_witness :
  exists x,
    fl_integrate_stage (use_vmap_of "cpu" None) demo_generator demo_ts
      coasting_progenitor 1%float 0%Z = Ok x
    ∧ length (q demo_pair.1) = 2 * length (grid x)
    ∧ length (p demo_pair.1) = 2 * length (grid x)
    ∧ forall k, k < length (grid x) ->
        exists w_trail w_lead,
          fl_released demo_generator (grid x) (MockStream_w (ics_trail x)) k
            = Ok w_trail
          ∧ fl_released demo_generator (grid x) (MockStream_w (ics_lead x)) k
            = Ok w_lead
          ∧ q demo_pair.1 !! (2 * k) = Some (take 3 w_trail)
          ∧ q demo_pair.1 !! (2 * k + 1) = Some (take 3 w_lead)
          ∧ p demo_pair.1 !! (2 * k) = Some (take 3 (drop 3 w_trail))
          ∧ p demo_pair.1 !! (2 * k + 1) = Some (take 3 (drop 3 w_lead)).
Proof.
  exact (C2_interleaved_particles fl_add fl_mul 1%float fl_bump fl_lt fl_le
           drift_integrate drift_orbit "cpu" demo_generator demo_ts
           coasting_progenitor 1%float 0%Z None demo_pair.1 demo_pair.2
           (offset_one_per_time true true id 1%float 0%Z) eq_refl eq_refl
           eq_refl).
Defined.

(** C6 on the demo: the grid 0, 5, 2, 10 is refused when the compiled
    function is executed, and the decreasing grid 2, 1, 0 is run on its
    reverse. *)
Lemma C6_witness :
  fl_run "cpu" demo_generator [0; 5; 2; 10]%float coasting_progenitor 1%float
    0%Z None
  = Raise InvalidTimeGrid
  ∧ exists w0,
      normalise_progenitor [2; 1; 0]%float coasting_progenitor = Ok w0
      ∧ fl_run "cpu" demo_generator [2; 1; 0]%float coasting_progenitor 1%float
          0%Z None
        = stream_stage fl_add fl_mul 1%float fl_bump drift_integrate false
            demo_generator [0; 1; 2]%float
            (drift_orbit tt w0 [0; 1; 2]%float tt) 1%float 0%Z
          ≫= assemble (df demo_generator).
Proof.
  split.
  - destruct (C6_time_grid fl_add fl_mul 1%float fl_bump fl_lt fl_le
                drift_integrate drift_orbit "cpu" demo_generator
                [0; 5; 2; 10]%float coasting_progenitor 1%float 0%Z None)
      as [Hrefused _].
    destruct (Hrefused eq_refl eq_refl) as (_ & Hraise & _).
    eapply Hraise; vm_compute; reflexivity.
  - destruct (C6_time_grid fl_add fl_mul 1%float fl_bump fl_lt fl_le
                drift_integrate drift_orbit "cpu" demo_generator
                [2; 1; 0]%float coasting_progenitor 1%float 0%Z None)
      as [_ Haccepted].
    destruct (Haccepted 2%float 1%float [0%float] eq_refl eq_refl eq_refl)
      as (w0 & Hw0 & Hreversed & _).
    exists w0. split; [exact Hw0|]. exact (Hreversed eq_refl).
Defined.

(** C6 as stated fails twice.  With both arms disabled the grid 0, 5, 2, 10,
    which is neither increasing nor decreasing, raises the [ValueError] of the
    assembly, which is raised while the body is traced.  The grid 5, 5, 2 is
    decreasing and is accepted, and it is not reversed: the progenitor's
    orbit is sampled at 5, 5, 2 and the particles are given the time 2. *)
Lemma C6_counterexample :
  (monotone_increasing fl_le [0; 5; 2; 10]%float = false
   ∧ monotone_decreasing fl_le [0; 5; 2; 10]%float = false
   ∧ fl_run "cpu" (offset_generator false false id) [0; 5; 2; 10]%float
       coasting_progenitor 1%float 0%Z None
     = Raise (ValueError no_arm_msg))
  ∧ (monotone_decreasing fl_le [5; 5; 2]%float = true
     ∧ exists stream orbit,
         fl_run "cpu" demo_generator [5; 5; 2]%float coasting_progenitor 1%float
           0%Z None = Ok (stream, orbit)
         ∧ map fst orbit = [5; 5; 2]%float
         ∧ t stream = replicate 6 2%float).
Proof.
  split; [by vm_compute|]. split; [done|].
  do 2 eexists. split; [vm_compute; reflexivity|]. by vm_compute.
Qed.

(** C7 at the grid 0, 5, 2, 10 with both arms disabled: the trace reaches the
    assembly, which raises its error before any time of the grid is looked
    at. *)
Lemma C7_witness :
  fl_run "cpu" (offset_generator false false id) [0; 5; 2; 10]%float
    coasting_progenitor 1%float 0%Z None
  = Raise (ValueError no_arm_msg).
Proof.
  apply (C7_arm_selection fl_add fl_mul 1%float fl_bump fl_lt fl_le
           drift_integrate drift_orbit "cpu" (offset_generator false false id)
           [0; 5; 2; 10]%float coasting_progenitor 1%float 0%Z None).
  split; [|done]. eexists. vm_compute. reflexivity.
Defined.

(** A decreasing grid is run on its reverse: the progenitor's orbit is
    sampled at 0, 1, 2. *)
Example run_decreasing_grid :
  exists stream orbit,
    fl_run "cpu" demo_generator [2; 1; 0]%float coasting_progenitor 1%float 0%Z
      None = Ok (stream, orbit)
    ∧ map fst orbit = [0; 1; 2]%float.
Proof. do 2 eexists. split; [vm_compute; reflexivity|done]. Qed.

(** The assembly error on the demo with both arms disabled. *)
Example run_no_arm :
  fl_run "cpu" (offset_generator false false id) demo_ts coasting_progenitor
    1%float 0%Z None
  = Raise (ValueError no_arm_msg).
Proof. vm_compute. reflexivity. Qed.

(** C3 at the relabelled sampler: the leading particles are released at 0, 1,
    2 and the trailing ones at 2, 1, 0; particle 0 of the stream is a trailing
    particle (C2), yet entry 0 of the stream's release times is 0, the release
    time of leading particle 0, and entry 1 is 2, that of trailing
    particle 0. *)
Theorem C3_release_time_order_swapped :
  exists stream orbit x,
    fl_run "cpu" relabelled_generator demo_ts coasting_progenitor 1%float 0%Z
      None = Ok (stream, orbit)
    ∧ fl_integrate_stage false relabelled_generator demo_ts coasting_progenitor
        1%float 0%Z = Ok x
    ∧ release_time (ics_lead x) = [0; 1; 2]%float
    ∧ release_time (ics_trail x) = [2; 1; 0]%float
    ∧ release_time stream = [0; 2; 1; 1; 2; 0]%float
    ∧ q stream = interleave_concat (columns 0 3 (trail_arm x))
                   (columns 0 3 (lead_arm x)).
Proof.
  do 3 eexists. split; [vm_compute; reflexivity|].
  split; [vm_compute; reflexivity|]. by repeat split.
Qed.

(** * Further properties *)

(** ** More on dictionaries *)

Section DictUnion.
Context {V : Type}.
Implicit Types (d : dict V) (k : string) (v : V).

Lemma dict_keys_setitem_NoDup k v d :
  NoDup (dict_keys d) -> NoDup (dict_keys (dict_setitem k v d)).
Proof.
  intros Hnd. destruct (decide (k ∈ dict_keys d)) as [Hin|Hnin].
  - by rewrite dict_keys_setitem_in.
  - rewrite dict_setitem_fresh, dict_keys_app by done.
    apply NoDup_app. split; [done|]. split; [|apply NoDup_singleton].
    intros x Hx ->%list_elem_of_singleton. done.
Qed.

Lemma dict_or_NoDup d1 d2 :
  NoDup (dict_keys d1) -> NoDup (dict_keys (dict_or d1 d2)).
Proof.
  unfold dict_or. revert d1.
  induction d2 as [|[k v] d2 IH]; intros d1 Hnd; simpl; [done|].
  by apply IH, dict_keys_setitem_NoDup.
Qed.

Lemma dict_getitem_is_Some k d : is_Some (dict_getitem k d) <-> k ∈ dict_keys d.
Proof.
  rewrite <- not_eq_None_Some, dict_getitem_None.
  destruct (decide (k ∈ dict_keys d)); naive_solver.
Qed.

Lemma dict_getitem_values k v d : dict_getitem k d = Some v -> v ∈ dict_values d.
Proof.
  unfold dict_values. induction d as [|[k' v'] d IH]; simpl; [done|].
  destruct (decide (k = k')) as [->|Hne].
  - intros [= ->]. apply elem_of_cons. by left.
  - intros Hget. apply elem_of_cons. right. by apply IH.
Qed.

Lemma dict_values_getitem v d :
  NoDup (dict_keys d) -> v ∈ dict_values d -> exists k, dict_getitem k d = Some v.
Proof.
  unfold dict_values, dict_keys.
  induction d as [|[k' v'] d IH]; simpl; intros Hnd Hv.
  - by apply elem_of_nil in Hv.
  - apply NoDup_cons in Hnd as [Hk Hnd].
    apply elem_of_cons in Hv as [->|Hv].
    + exists k'. by rewrite decide_True.
    + destruct (IH Hnd Hv) as [k Hget]. exists k.
      rewrite decide_False; [done|]. intros ->.
      apply Hk. apply dict_getitem_is_Some. by rewrite Hget.
Qed.

(** Two dictionaries with the same keys in the same order and the same
    lookups are equal. *)
Lemma dict_ext d1 d2 :
  NoDup (dict_keys d1) -> dict_keys d1 = dict_keys d2 ->
  (forall k, dict_getitem k d1 = dict_getitem k d2) -> d1 = d2.
Proof.
  revert d2. induction d1 as [|[k v] d1 IH]; intros [|[k' v'] d2] Hnd Hkeys Hget;
    try done.
  rewrite !dict_keys_cons in Hkeys. injection Hkeys as <- Hkeys.
  rewrite dict_keys_cons in Hnd. apply NoDup_cons in Hnd as [Hk Hnd].
  pose proof (Hget k) as Hv. simpl in Hv. rewrite !decide_True in Hv by done.
  injection Hv as <-. f_equal. apply IH; [done..|].
  intros k0. destruct (decide (k0 = k)) as [->|Hne].
  - transitivity (@None V); [|symmetry]; apply dict_getitem_None; congruence.
  - specialize (Hget k0). simpl in Hget. by rewrite !decide_False in Hget.
Qed.

Lemma dict_setitem_same k v d : dict_getitem k d = Some v -> dict_setitem k v d = d.
Proof.
  induction d as [|[k' v'] d IH]; simpl; [done|].
  destruct (decide (k = k')) as [->|Hne]; [by intros [= ->]|].
  intros Hget. by rewrite IH.
Qed.

(** Updating a dictionary with items it already holds changes nothing. *)
Lemma dict_or_absorb d1 d2 :
  (forall k v, (k, v) ∈ d2 -> dict_getitem k d1 = Some v) -> dict_or d1 d2 = d1.
Proof.
  unfold dict_or. induction d2 as [|[k v] d2 IH]; intros Hsub; simpl; [done|].
  rewrite dict_setitem_same.
  - apply IH. intros k' v' Hin. apply Hsub, elem_of_cons. by right.
  - apply Hsub, elem_of_cons. by left.
Qed.

Lemma dict_getitem_elem k v d :
  NoDup (dict_keys d) -> (k, v) ∈ d -> dict_getitem k d = Some v.
Proof.
  induction d as [|[k' v'] d IH]; intros Hnd Hin.
  - by apply elem_of_nil in Hin.
  - rewrite dict_keys_cons in Hnd. apply NoDup_cons in Hnd as [Hk Hnd]. simpl.
    apply elem_of_cons in Hin as [[= -> ->]|Hin]; [by rewrite decide_True|].
    rewrite decide_False; [by apply IH|]. intros ->. apply Hk.
    unfold dict_keys. apply (list_elem_of_fmap_2 fst) in Hin. done.
Qed.

Lemma dict_or_idemp d : NoDup (dict_keys d) -> dict_or d d = d.
Proof. intros Hnd. apply dict_or_absorb. intros k v. by apply dict_getitem_elem. Qed.

(** Python's [dict(pairs)]: later pairs win, first positions stay. *)
Lemma dict_or_nil_l d : NoDup (dict_keys d) -> dict_or [] d = d.
Proof.
  intros Hnd. rewrite dict_or_disjoint; [done|done|].
  intros k Hk. by apply elem_of_nil in Hk.
Qed.

Lemma elem_of_dict_keys_or k d1 d2 :
  NoDup (dict_keys d2) ->
  k ∈ dict_keys (dict_or d1 d2) <-> k ∈ dict_keys d1 ∨ k ∈ dict_keys d2.
Proof.
  intros Hnd. rewrite <- !dict_getitem_is_Some, dict_getitem_or by done.
  destruct (dict_getitem k d2) as [v|]; [split; eauto|].
  split; [eauto|]. by intros [?|[? [=]]].
Qed.

(** [|] on dictionaries is associative. *)
Lemma dict_or_assoc d1 d2 d3 :
  NoDup (dict_keys d1) -> NoDup (dict_keys d2) -> NoDup (dict_keys d3) ->
  dict_or (dict_or d1 d2) d3 = dict_or d1 (dict_or d2 d3).
Proof.
  intros H1 H2 H3.
  assert (NoDup (dict_keys (dict_or d2 d3))) as H23 by by apply dict_or_NoDup.
  apply dict_ext.
  - by do 2 apply dict_or_NoDup.
  - rewrite !dict_keys_or, <- app_assoc by done. f_equal.
    rewrite filter_app. f_equal. rewrite list_filter_filter.
    apply list_filter_iff. intros k. rewrite elem_of_app, list_elem_of_filter.
    destruct (decide (k ∈ dict_keys d1)), (decide (k ∈ dict_keys d2)); tauto.
  - intros k. rewrite !dict_getitem_or by done.
    by destruct (dict_getitem k d3), (dict_getitem k d2).
Qed.

End DictUnion.

(** ** More on composite potentials *)

Section CompositeUnion.
Context {UnitSystem : Type} `{EqDecision UnitSystem} {F : Type}.
Implicit Types (data : dict (potential UnitSystem F)).
Implicit Types (A B C : CompositePotential UnitSystem F).
Implicit Types (o : potential UnitSystem F) (u : UnitSystem).

(** The constructor on a mapping whose values have the units [u1] or [u2]. *)
Lemma init_mixed_units data p1 p2 :
  p1 ∈ dict_values data -> p2 ∈ dict_values data ->
  potential_units p1 ≠ potential_units p2 ->
  CompositePotential_init data = Raise (ValueError units_msg).
Proof.
  intros H1 H2 Hne.
  destruct (CompositePotential_init data) as [c|e] eqn:Hinit.
  - apply init_inv in Hinit as (_ & _ & Hall). rewrite Forall_forall in Hall.
    destruct Hne. by rewrite (Hall _ H1), (Hall _ H2).
  - apply init_raise in Hinit as [[-> _]|[-> _]]; [|done].
    by apply elem_of_nil in H1.
Qed.

(** X1.  The constructor raises [StopIteration] exactly on an empty mapping
    ([next(iter(self.values()))] has nothing to take); it raises nothing but
    that and the [ValueError] of the unit check; and a composite that is
    built has a component. *)
Theorem init_empty_StopIteration data :
  (CompositePotential_init data = Raise StopIteration <-> data = [])
  ∧ (forall e, CompositePotential_init data = Raise e ->
       e = StopIteration ∨ e = ValueError units_msg)
  ∧ (forall c, CompositePotential_init data = Ok c -> _data c ≠ []).
Proof.
  split; [split|split].
  - intros Hinit. by apply init_raise in Hinit as [[? _]|[[=] _]].
  - by intros ->.
  - intros e Hinit. apply init_raise in Hinit as [[_ ->]|[-> _]]; auto.
  - intros c Hinit. apply init_inv in Hinit as (-> & (k & p0 & rest & -> & _) & _).
    done.
Qed.

(** The union of a mapping of units [u1] with one of units [u2]. *)
Lemma init_or_mismatch data1 data2 u1 u2 k :
  NoDup (dict_keys data2) -> data2 ≠ [] ->
  Forall (fun p => potential_units p = u1) (dict_values data1) ->
  Forall (fun p => potential_units p = u2) (dict_values data2) ->
  u1 ≠ u2 -> k ∈ dict_keys data1 -> k ∉ dict_keys data2 ->
  CompositePotential_init (dict_or data1 data2) = Raise (ValueError units_msg).
Proof.
  intros Hnd Hne H1 H2 Hu Hk1 Hk2.
  apply dict_getitem_is_Some in Hk1 as [p1 Hp1].
  destruct data2 as [|[k2 p2] rest] eqn:Hd2; [done|]. rewrite <- Hd2 in *.
  assert (dict_getitem k2 data2 = Some p2) as Hp2.
  { rewrite Hd2. simpl. by rewrite decide_True. }
  apply (init_mixed_units _ p1 p2).
  - apply (dict_getitem_values k). rewrite dict_getitem_or by done.
    apply dict_getitem_None in Hk2. by rewrite Hk2.
  - apply (dict_getitem_values k2). rewrite dict_getitem_or by done. by rewrite Hp2.
  - rewrite Forall_forall in H1, H2.
    rewrite (H1 p1), (H2 p2); [done|..]; by eapply dict_getitem_values.
Qed.

(** The union of a mapping with one that has all its keys. *)
Lemma init_or_overridden data1 data2 u2 :
  NoDup (dict_keys data1) -> NoDup (dict_keys data2) -> data1 ≠ [] ->
  Forall (fun p => potential_units p = u2) (dict_values data2) ->
  (forall k, k ∈ dict_keys data1 -> k ∈ dict_keys data2) ->
  CompositePotential_init (dict_or data1 data2)
  = Ok (mkCompositePotential (dict_or data1 data2) u2).
Proof.
  intros Hnd1 Hnd2 Hne H2 Hsub. apply init_ok; [by apply dict_or_nonempty|].
  rewrite Forall_forall in H2. apply Forall_forall. intros p Hp.
  apply dict_values_getitem in Hp as [k Hget]; [|by apply dict_or_NoDup].
  rewrite dict_getitem_or in Hget by done.
  destruct (dict_getitem k data2) as [p'|] eqn:Hget2.
  - injection Hget as ->. by eapply H2, dict_getitem_values.
  - assert (k ∈ dict_keys data1) as Hk by (apply dict_getitem_is_Some; eauto).
    apply Hsub, dict_getitem_is_Some in Hk as [? Hk]. congruence.
Qed.

(** X2.  [A | o] and [A + o] for operands of different unit systems: the
    [ValueError] of the constructor exactly when a component of [A] is not
    replaced by one of [o]; when [o] replaces every component of [A], the
    union is built and has the unit system of [o]. *)
Theorem or_units_mismatch (uuid4 : string) A o :
  constructed A -> constructed_potential o -> potential_units o ≠ units A ->
  ((exists k, k ∈ dict_keys (_data A) ∧ k ∉ dict_keys (compatible_dict uuid4 o))
   <-> __or__ uuid4 A (PyPotential o) = Returned (Raise (ValueError units_msg)))
  ∧ ((forall k, k ∈ dict_keys (_data A) -> k ∈ dict_keys (compatible_dict uuid4 o))
     <-> __or__ uuid4 A (PyPotential o)
         = Returned (Ok (mkCompositePotential
                           (dict_or (_data A) (compatible_dict uuid4 o))
                           (potential_units o))))
  ∧ Returned (__add__ uuid4 A o) = __or__ uuid4 A (PyPotential o).
Proof.
  intros HA Ho Hu.
  apply constructed_inv in HA as (HndA & HneA & HallA).
  destruct (compatible_dict_spec uuid4 o Ho) as (Hnd & Hne & Hall).
  unfold __or__, __add__.
  assert ((exists k, k ∈ dict_keys (_data A)
                     ∧ k ∉ dict_keys (compatible_dict uuid4 o))
          ∨ (forall k, k ∈ dict_keys (_data A) ->
                       k ∈ dict_keys (compatible_dict uuid4 o))) as Hcases.
  { clear. induction (dict_keys (_data A)) as [|k ks IH].
    - right. intros k Hk. by apply elem_of_nil in Hk.
    - destruct (decide (k ∈ dict_keys (compatible_dict uuid4 o))) as [Hin|Hnin].
      + destruct IH as [(k' & Hk' & Hn)|Hall].
        * left. exists k'. split; [apply elem_of_cons; by right|done].
        * right. intros k' [->|Hk']%elem_of_cons; auto.
      + left. exists k. split; [apply elem_of_cons; by left|done]. }
  assert (forall k, k ∈ dict_keys (_data A) ->
                    k ∉ dict_keys (compatible_dict uuid4 o) ->
            CompositePotential_init (dict_or (_data A) (compatible_dict uuid4 o))
            = Raise (ValueError units_msg)) as Hraise.
  { intros k Hk Hn. by eapply (init_or_mismatch _ _ (units A) (potential_units o)). }
  assert ((forall k, k ∈ dict_keys (_data A) ->
                     k ∈ dict_keys (compatible_dict uuid4 o)) ->
            CompositePotential_init (dict_or (_data A) (compatible_dict uuid4 o))
            = Ok (mkCompositePotential
                    (dict_or (_data A) (compatible_dict uuid4 o))
                    (potential_units o))) as Hok.
  { intros Hsub. by apply init_or_overridden. }
  split; [|split; [|done]].
  - split.
    + intros (k & Hk & Hn). f_equal. by eapply Hraise.
    + intros Hr. destruct Hcases as [?|Hsub]; [done|].
      rewrite (Hok Hsub) in Hr. by injection Hr.
  - split.
    + intros Hsub. f_equal. by apply Hok.
    + intros Hr. destruct Hcases as [(k & Hk & Hn)|?]; [|done].
      rewrite (Hraise k Hk Hn) in Hr. by injection Hr.
Qed.

(** X3.  A constructed composite united with itself, by [|] from either side
    or by [+], is that composite: same keys, same order, same components. *)
Theorem or_idempotent (uuid4 : string) A :
  constructed A ->
  __or__ uuid4 A (PyPotential (as_potential A)) = Returned (Ok A)
  ∧ __ror__ uuid4 A (PyPotential (as_potential A)) = Returned (Ok A)
  ∧ __add__ uuid4 A (as_potential A) = Ok A.
Proof.
  intros [Hnd Hinit]. unfold __or__, __ror__, __add__.
  cbn [as_potential compatible_dict]. by rewrite dict_or_idemp, Hinit.
Qed.

(** X4.  [|] is associative on constructed composites of one unit system:
    [(A | B) | C] and [A | (B | C)] are built and are the same composite, with
    the same order of keys, whichever keys the operands share. *)
Theorem or_associative (uuid4 : string) A B C :
  constructed A -> constructed B -> constructed C ->
  units A = units B -> units B = units C ->
  exists AB BC R,
    __or__ uuid4 A (PyPotential (as_potential B)) = Returned (Ok AB)
    ∧ __or__ uuid4 B (PyPotential (as_potential C)) = Returned (Ok BC)
    ∧ __or__ uuid4 AB (PyPotential (as_potential C)) = Returned (Ok R)
    ∧ __or__ uuid4 A (PyPotential (as_potential BC)) = Returned (Ok R)
    ∧ _data R = dict_or (_data A) (dict_or (_data B) (_data C)).
Proof.
  intros HA HB HC HuAB HuBC.
  apply constructed_inv in HA as (HndA & HneA & HallA).
  apply constructed_inv in HB as (HndB & HneB & HallB).
  apply constructed_inv in HC as (HndC & HneC & HallC).
  rewrite <- HuBC, <- HuAB in HallC. rewrite <- HuAB in HallB.
  exists (mkCompositePotential (dict_or (_data A) (_data B)) (units A)),
         (mkCompositePotential (dict_or (_data B) (_data C)) (units A)),
         (mkCompositePotential
            (dict_or (_data A) (dict_or (_data B) (_data C))) (units A)).
  unfold __or__. cbn [as_potential compatible_dict _data].
  repeat split; f_equal.
  - by apply init_dict_or.
  - by apply init_dict_or.
  - rewrite dict_or_assoc by done. apply init_dict_or; [done..|].
    by apply dict_values_or_Forall.
  - apply init_dict_or; [done..|]. by apply dict_values_or_Forall.
Qed.

(** X5.  A lookup in [A | o]: the component of [o] under the key when it has
    one, else the component of [A], else no component. *)
Theorem or_lookup (uuid4 : string) A o C :
  constructed A -> constructed_potential o ->
  __or__ uuid4 A (PyPotential o) = Returned (Ok C) ->
  constructed C
  ∧ forall k,
      dict_getitem k (_data C)
      = match dict_getitem k (compatible_dict uuid4 o) with
        | Some p => Some p
        | None => dict_getitem k (_data A)
        end
      ∧ (k ∈ dict_keys (_data C)
         <-> k ∈ dict_keys (_data A) ∨ k ∈ dict_keys (compatible_dict uuid4 o)).
Proof.
  intros HA Ho. unfold __or__. intros [= Hinit].
  apply constructed_inv in HA as (HndA & HneA & HallA).
  destruct (compatible_dict_spec uuid4 o Ho) as (Hnd & Hne & Hall).
  pose proof Hinit as Hinv. apply init_inv in Hinv as (Hdata & _ & _).
  split.
  - split; rewrite Hdata; [by apply dict_or_NoDup|done].
  - intros k. rewrite Hdata. split; [by apply dict_getitem_or|].
    by apply elem_of_dict_keys_or.
Qed.

End CompositeUnion.

(** ** More on the generator *)

Section ArrayMore.
Context {A : Type}.
Implicit Types (x : list A).

Lemma jnp_getitem_clamped x i :
  length x <= i -> jnp_getitem x i = jnp_last x.
Proof.
  intros Hi. unfold jnp_last, jnp_getitem.
  by replace (i `min` (length x - 1)) with ((length x - 1) `min` (length x - 1))
    by lia.
Qed.

Lemma jnp_getitem_inv x i v :
  jnp_getitem x i = Ok v -> x !! (i `min` (length x - 1)) = Some v.
Proof. unfold jnp_getitem. by destruct (x !! _); intros [= ->]. Qed.

Lemma jnp_last_cons (a : A) x : jnp_last (a :: x) = Ok (default a (last x)).
Proof.
  unfold jnp_last. apply jnp_getitem_lookup. simpl. rewrite Nat.sub_0_r.
  destruct x as [|b x] using rev_ind; [done|].
  rewrite last_snoc, length_app. simpl.
  replace (length x + 1) with (S (length x)) by lia. simpl.
  by rewrite lookup_app_r, Nat.sub_diag by lia.
Qed.

Lemma interleave_concat_replicate n (a : A) :
  interleave_concat (replicate n a) (replicate n a) = replicate (2 * n) a.
Proof.
  induction n as [|n IH]; [done|].
  replace (2 * S n) with (S (S (2 * n))) by lia. simpl. by rewrite IH.
Qed.

End ArrayMore.

Section GeneratorMore.
Context {F : Type}.
Variable fadd fmul : F -> F -> F.
Variable fone bump : F.
Variable flt fle : F -> F -> bool.
Context {Potential Integrator Orbit : Type}.
Variable integrate_orbit :
  Potential -> @Vec6 F -> list F -> Integrator -> list (@Vec6 F).
Variable solve_orbit :
  Potential -> PhaseSpaceTimePosition F -> list F -> Integrator -> Orbit.
Implicit Types (self : MockStreamGenerator F Potential Integrator Orbit).
Implicit Types (ts : list F).

Local Abbreviation run :=
  (run fadd fmul fone bump flt fle integrate_orbit solve_orbit).
Local Abbreviation stream_stage :=
  (stream_stage fadd fmul fone bump integrate_orbit).
Local Abbreviation integrate_stage :=
  (integrate_stage fadd fmul fone bump flt fle integrate_orbit solve_orbit).
Local Abbreviation released_particle :=
  (released_particle fadd bump integrate_orbit).
Local Abbreviation one_particle_per_time := (one_particle_per_time solve_orbit).
Local Abbreviation _run_scan := (_run_scan fadd bump integrate_orbit).
Local Abbreviation _run_vmap := (_run_vmap fadd bump integrate_orbit).
Local Abbreviation scan_step := (scan_step integrate_orbit).
Local Abbreviation final_time := (final_time flt).

Lemma normalise_progenitor_nonscalar ts (prog_w0 : progenitor F) :
  0 < progenitor_rank prog_w0 ->
  normalise_progenitor ts prog_w0 = Raise (RuntimeError "prog_w0 must be scalar").
Proof.
  destruct prog_w0 as [w rank|pos vel rank|w]; simpl; intros Hr;
    [by rewrite decide_True..|lia].
Qed.

(** X6.  [run] on a progenitor that is not scalar ([prog_w0.ndim > 0]) raises
    the error of [eqx.error_if], "prog_w0 must be scalar", whatever the grid,
    the sampler, the strategy and the arm flags: the check is the first step
    of the body and [prog_w0.ndim] is static, so that no other error comes
    before it, the errors raised while the body is traced (an empty grid, no
    arm enabled) included. *)
Theorem run_progenitor_must_be_scalar platform self ts (prog_w0 : progenitor F)
    prog_mass seed_num vmapped :
  0 < progenitor_rank prog_w0 ->
  run platform self ts prog_w0 prog_mass seed_num vmapped
  = Raise (RuntimeError "prog_w0 must be scalar").
Proof.
  intros Hr. rewrite run_stages. unfold trace_stage.
  by rewrite normalise_progenitor_nonscalar.
Qed.

(** X7.  [run] on an empty grid of stripping times raises [IndexError] (from
    [ts[0]] or [ts[1]]), unless the progenitor is not scalar, which is
    reported first. *)
Theorem run_empty_grid platform self (prog_w0 : progenitor F) prog_mass seed_num
    vmapped :
  run platform self [] prog_w0 prog_mass seed_num vmapped
  = Raise (if decide (0 < progenitor_rank prog_w0)
           then RuntimeError "prog_w0 must be scalar" else IndexError).
Proof.
  rewrite run_stages. unfold trace_stage.
  destruct prog_w0 as [w rank|pos vel rank|w]; simpl; by repeat case_decide.
Qed.

(** *** The times of the stream *)

Lemma jnp_getitem_second (a : F) rest : jnp_getitem (a :: rest) 1 = Ok (hd a rest).
Proof. by destruct rest. Qed.

Lemma jnp_last_snoc (l : list F) (a : F) : jnp_last (l ++ [a]) = Ok a.
Proof.
  unfold jnp_last. apply jnp_getitem_lookup.
  rewrite length_app. simpl.
  by rewrite lookup_app_r, Nat.add_sub, Nat.sub_diag by lia.
Qed.

Lemma ones_like_mul ts (e : F) :
  map (fun one => fmul one e) (map (fun _ => fone) ts)
  = replicate (length ts) (fmul fone e).
Proof. induction ts as [|a ts IH]; [done|]. simpl. by rewrite IH. Qed.

Lemma integrate_stage_eval_time use_vmap self ts (prog_w0 : progenitor F)
    prog_mass seed_num x :
  integrate_stage use_vmap self ts prog_w0 prog_mass seed_num = Ok x ->
  exists a rest,
    ts = a :: rest
    ∧ jnp_last (grid x) = Ok (final_time a rest)
    ∧ eval_time x = replicate (length ts) (fmul fone (final_time a rest)).
Proof.
  unfold integrate_stage.
  destruct (normalise_progenitor ts prog_w0) as [w0|e]; simpl; [|done].
  destruct ts as [|a rest]; [by rewrite jnp_getitem_nil|].
  rewrite jnp_getitem_second, (jnp_getitem_lookup (a :: rest) 0 a) by done.
  cbn [mbind result_bind]. unfold evaluate_orbit.
  destruct (_ || _); simpl; [|done].
  intros Hstream. exists a, rest. split; [done|].
  assert (jnp_last (cond_reverse (flt (hd a rest) a) (a :: rest))
          = Ok (final_time a rest)) as Hlast.
  { unfold final_time, cond_reverse. destruct (flt (hd a rest) a).
    - rewrite reverse_cons. apply jnp_last_snoc.
    - apply jnp_last_cons. }
  unfold stream_stage in Hstream. cbv zeta in Hstream.
  destruct (if use_vmap then _ else _) as [[la ta]|e]; simpl in Hstream; [|done].
  rewrite Hlast in Hstream. simpl in Hstream. injection Hstream as <-.
  cbn [grid eval_time]. split; [done|].
  by rewrite ones_like_mul, length_cond_reverse.
Qed.

(** X8.  Every entry of the field [t] of the stream that [run] returns is
    [1.0 * t_end], where [t_end] is the last time of the oriented grid: the
    last time of the grid as given, or its first time when the grid is given
    in reverse ([ts[1] < ts[0]]); there is one entry per stripping time, two
    when both arms are enabled. *)
Theorem run_stream_times platform self ts (prog_w0 : progenitor F) prog_mass
    seed_num vmapped stream prog_o :
  run platform self ts prog_w0 prog_mass seed_num vmapped = Ok (stream, prog_o) ->
  exists a rest,
    ts = a :: rest
    ∧ t stream
      = replicate
          (if lead (df self) && trail (df self) then 2 * length ts else length ts)
          (fmul fone (final_time a rest)).
Proof.
  intros Hrun. apply run_ok in Hrun as (x & Hstage & Hasm).
  apply integrate_stage_eval_time in Hstage as (a & rest & -> & _ & Ht).
  exists a, rest. split; [done|]. revert Hasm. unfold assemble.
  destruct (lead (df self)), (trail (df self)); simpl; try done;
    intros [= <- _]; cbn [t]; rewrite Ht; [|done..].
  by rewrite interleave_concat_replicate.
Qed.

(** *** One arm *)

(** X9.  With one arm enabled, particle [k] of the stream is the particle of
    that arm released at index [k]. *)
Theorem run_single_arm platform self ts (prog_w0 : progenitor F) prog_mass
    seed_num vmapped stream prog_o :
  one_particle_per_time self prog_mass seed_num ->
  lead (df self) ≠ trail (df self) ->
  run platform self ts prog_w0 prog_mass seed_num vmapped = Ok (stream, prog_o) ->
  exists x,
    integrate_stage (use_vmap_of platform vmapped) self ts prog_w0 prog_mass
      seed_num = Ok x
    ∧ let ics := if lead (df self) then ics_lead x else ics_trail x in
      release_time stream = release_time ics
      ∧ length (q stream) = length (grid x)
      ∧ length (p stream) = length (grid x)
      ∧ forall k, k < length (grid x) ->
          exists w,
            released_particle self (grid x) (MockStream_w ics) k = Ok w
            ∧ q stream !! k = Some (take 3 w)
            ∧ p stream !! k = Some (take 3 (drop 3 w)).
Proof.
  intros Hdf Harm Hrun. apply run_ok in Hrun as (x & Hstage & Hasm).
  exists x. split; [done|].
  destruct (integrate_stage_inv _ _ _ _ _ _ _ _ _ _ _ _ _ _ _ Hstage)
    as (w0 & ts' & _ & _ & Hstream).
  destruct (stream_stage_inv _ _ _ _ _ _ _ _ _ _ _ _ _ eq_refl Hstream)
    as (Hgrid & _ & Hil & Hit & Harms).
  destruct (Hdf w0 ts') as [Hnl Hnt].
  rewrite <- Hil in Harms, Hnl. rewrite <- Hit in Harms, Hnt.
  rewrite <- Hgrid in Harms, Hnl, Hnt.
  apply arms_spec in Harms as (Hla & Hta & Hrow); [|congruence].
  unfold Vec6 in *. revert Hasm. unfold assemble.
  destruct (lead (df self)), (trail (df self)); simpl; try done;
    intros [= <- _]; cbn [q p release_time]; rewrite !columns_length.
  - split; [done|]. split; [by rewrite Hla|]. split; [by rewrite Hla|].
    intros k Hk. destruct (Hrow k) as (w_lead & w_trail & Hrl & Hrt & Hlk & Htk);
      [by rewrite Hnl|].
    exists w_lead. by rewrite !columns_lookup, Hlk.
  - split; [done|]. split; [by rewrite Hta, Hnl|]. split; [by rewrite Hta, Hnl|].
    intros k Hk. destruct (Hrow k) as (w_lead & w_trail & Hrl & Hrt & Hlk & Htk);
      [by rewrite Hnl|].
    exists w_trail. by rewrite !columns_lookup, Htk.
Qed.

(** *** Arms of different sizes *)

Lemma released_particle_unfold self ts t_end (w0 : list (@Vec6 F)) k :
  jnp_last ts = Ok t_end ->
  released_particle self ts w0 k
  = (ts_k ← jnp_getitem ts k;
     w0_k ← jnp_getitem w0 k;
     integ_final integrate_orbit self w0_k [ts_k; fadd t_end bump]).
Proof. intros Hlast. unfold released_particle. by rewrite Hlast. Qed.

(** The scan from index [i] with the rows [i] in its carry: output [j] is
    integrated from the rows [i + j], read with clamped indices. *)
Lemma lax_scan_rows self ts t_f (w0_lead w0_trail : list (@Vec6 F)) m i l_i t_i c ys :
  jnp_getitem w0_lead i = Ok l_i -> jnp_getitem w0_trail i = Ok t_i ->
  lax_scan (scan_step self ts t_f w0_lead w0_trail) (i, l_i, t_i) (seq i m)
  = Ok (c, ys) ->
  length ys = m
  ∧ forall j, j < m ->
      exists ts_k l_k t_k w_l w_t,
        jnp_getitem ts (i + j) = Ok ts_k
        ∧ jnp_getitem w0_lead (i + j) = Ok l_k
        ∧ jnp_getitem w0_trail (i + j) = Ok t_k
        ∧ integ_final integrate_orbit self l_k [ts_k; t_f] = Ok w_l
        ∧ integ_final integrate_orbit self t_k [ts_k; t_f] = Ok w_t
        ∧ ys !! j = Some (w_l, w_t).
Proof.
  revert i l_i t_i c ys.
  induction m as [|m IH]; intros i l_i t_i c ys Hl Ht; cbn [seq lax_scan].
  - intros [= <- <-]. split; [done|]. intros j Hj. lia.
  - rewrite scan_step_unfold.
    destruct (jnp_getitem ts i) as [ts_i|e] eqn:Hts; simpl; [|done].
    destruct (integ_final integrate_orbit self l_i [ts_i; t_f]) as [w_l|e] eqn:Hwl;
      simpl; [|done].
    destruct (integ_final integrate_orbit self t_i [ts_i; t_f]) as [w_t|e] eqn:Hwt;
      simpl; [|done].
    destruct (jnp_getitem w0_lead (i + 1)) as [next_l|e] eqn:Hnl; simpl; [|done].
    destruct (jnp_getitem w0_trail (i + 1)) as [next_t|e] eqn:Hnt; simpl; [|done].
    rewrite Nat.add_1_r in *.
    destruct (lax_scan _ _ (seq (S i) m)) as [[c' ys']|e] eqn:Hscan; simpl; [|done].
    intros [= <- <-].
    destruct (IH (S i) next_l next_t c' ys' Hnl Hnt Hscan) as [Hlen Hrows].
    split; [simpl; by rewrite Hlen|].
    intros [|j] Hj.
    + rewrite Nat.add_0_r. by exists ts_i, l_i, t_i, w_l, w_t.
    + destruct (Hrows j ltac:(lia)) as (ts_k & l_k & t_k & w_l' & w_t' & H').
      replace (i + S j) with (S i + j) by lia.
      by exists ts_k, l_k, t_k, w_l', w_t'.
Qed.

(** X10.  The sequential strategy on arms of any two sizes: as many final states
    as leading particles; when the trailing arm is the shorter one, its last
    particle is integrated again for every missing one. *)
Theorem run_scan_clamps_rows self ts mock0_lead mock0_trail la ta :
  _run_scan self ts mock0_lead mock0_trail = Ok (la, ta) ->
  length la = length (MockStream_w mock0_lead)
  ∧ length ta = length (MockStream_w mock0_lead)
  ∧ forall k, k < length (MockStream_w mock0_lead) ->
      exists w_lead w_trail,
        released_particle self ts (MockStream_w mock0_lead) k = Ok w_lead
        ∧ released_particle self ts (MockStream_w mock0_trail) k = Ok w_trail
        ∧ la !! k = Some w_lead ∧ ta !! k = Some w_trail
        ∧ (length (MockStream_w mock0_trail) <= k ->
           jnp_getitem (MockStream_w mock0_trail) k
           = jnp_last (MockStream_w mock0_trail)).
Proof.
  rewrite _run_scan_unfold.
  destruct (jnp_last ts) as [ts_end|e] eqn:Hlast; simpl; [|done].
  destruct (jnp_getitem (MockStream_w mock0_lead) 0) as [first_l|e] eqn:Hl;
    simpl; [|done].
  destruct (jnp_getitem (MockStream_w mock0_trail) 0) as [first_t|e] eqn:Ht;
    simpl; [|done].
  destruct (lax_scan _ _ _) as [[c ys]|e] eqn:Hscan; simpl; [|done].
  intros [= <- <-].
  apply lax_scan_rows in Hscan as [Hlen Hrows]; [|done..].
  rewrite !length_fmap. split; [done|]. split; [done|].
  intros k Hk.
  destruct (Hrows k Hk) as (ts_k & l_k & t_k & w_l & w_t & Hts & Hlk & Htk & Hwl
                            & Hwt & Hys).
  simpl in Hts, Hlk, Htk.
  exists w_l, w_t. rewrite !(released_particle_unfold _ _ ts_end) by done.
  refine (conj _ (conj _ (conj _ (conj _ (jnp_getitem_clamped _ k))))).
  - by rewrite Hts, Hlk.
  - by rewrite Hts, Htk.
  - by rewrite list_lookup_fmap, Hys.
  - by rewrite list_lookup_fmap, Hys.
Qed.

(** X11.  On a grid that is not empty the batched strategy raises the
    [ValueError] of [jax.vmap] exactly when the two arms have different
    numbers of particles. *)
Theorem run_vmap_size_check self ts mock0_lead mock0_trail :
  ts ≠ [] ->
  (_run_vmap self ts mock0_lead mock0_trail = Raise (ValueError vmap_msg)
   <-> length (MockStream_w mock0_lead) ≠ length (MockStream_w mock0_trail)).
Proof.
  intros Hne. rewrite _run_vmap_unfold.
  destruct (jnp_getitem_nonempty ts (length ts - 1) Hne) as [ts_end Hlast].
  unfold jnp_last. rewrite Hlast. cbn [mbind result_bind].
  unfold jax_vmap3. rewrite length_seq. case_decide as Hsz.
  - split; [|intros Hd; by destruct Hsz].
    intros Hrows.
    by apply (vmap_rows_raise (fun e => e = IndexError)) in Hrows;
      [|intros x y z e1; apply vmap_step_raise].
  - split; [|done]. intros _ Heq. apply Hsz. by split.
Qed.

End GeneratorMore.

(** ** More on parameters *)

Section ParameterMore.
Context {F : Type}.
Variable fzero fone : F.
Variable fadd fmul fsub : F -> F -> F.
Variable fopp : F -> F.

Local Abbreviation linear := (LinearParameter__call__ fadd fmul fsub).

(** Exact arithmetic: the operations form a ring. *)
Hypothesis exact_arith : ring_theory fzero fone fadd fmul fsub fopp eq.
Add Ring F_ring : exact_arith.

(** X12.  A linear parameter in exact arithmetic: the result has the shape of
    the times; at the reference time the value is the reference value;
    between two times the value changes by the slope times the difference of
    the times; with slope zero the value is the reference value at every
    time. *)
Theorem LinearParameter_point_slope (self : LinearParameter F) (t : array F) :
  shape (linear self t) = shape t
  ∧ length (entries (linear self t)) = length (entries t)
  ∧ (forall i, entries t !! i = Some (point_time self) ->
       entries (linear self t) !! i = Some (point_value self))
  ∧ (forall i j t_i t_j,
       entries t !! i = Some t_i -> entries t !! j = Some t_j ->
       exists p_i p_j,
         entries (linear self t) !! i = Some p_i
         ∧ entries (linear self t) !! j = Some p_j
         ∧ fsub p_j p_i = fmul (slope self) (fsub t_j t_i))
  ∧ (slope self = fzero ->
     entries (linear self t)
     = replicate (length (entries t)) (point_value self)).
Proof using exact_arith.
  unfold LinearParameter__call__. cbn [shape entries].
  split; [done|]. split; [by rewrite length_map|]. split; [|split].
  - intros i Hi. rewrite list_lookup_fmap, Hi. simpl. f_equal. ring.
  - intros i j t_i t_j Hi Hj. rewrite !list_lookup_fmap, Hi, Hj. simpl.
    do 2 eexists. split; [done|]. split; [done|]. ring.
  - intros ->. induction (entries t) as [|t_i l IH]; [done|].
    simpl. rewrite IH. f_equal. ring.
Qed.

Lemma array_eq (a b : array F) :
  shape a = shape b -> entries a = entries b -> a = b.
Proof. destruct a, b. simpl. by intros -> ->. Qed.

(** X13.  Scaling a constant parameter in exact arithmetic: [c * p] is
    [p * c]; scaling twice is scaling by the product; scaling by one changes
    nothing; and the scaled parameter evaluates, at any time, to the scaled
    value of the parameter. *)
Theorem ConstantParameter_scaling (self : ConstantParameter F) (c c' : F)
    (t : option (array F)) :
  ConstantParameter__rmul__ fmul self c = ConstantParameter__mul__ fmul self c
  ∧ ConstantParameter__mul__ fmul (ConstantParameter__mul__ fmul self c) c'
    = ConstantParameter__mul__ fmul self (fmul c c')
  ∧ ConstantParameter__mul__ fmul self fone = self
  ∧ galax_ConstantParameter__call__ fzero (ConstantParameter__mul__ fmul self c) t
    = array_mul fmul (galax_ConstantParameter__call__ fzero self t) c.
Proof using exact_arith.
  unfold ConstantParameter__rmul__, ConstantParameter__mul__, array_mul,
    array_rmul. cbn [value shape entries].
  split; [|split; [|split; [|done]]].
  - do 2 f_equal. apply list_eq. intros i. rewrite !list_lookup_fmap.
    destruct (entries (value self) !! i); simpl; [f_equal; ring|done].
  - do 2 f_equal. apply list_eq. intros i. rewrite !list_lookup_fmap.
    destruct (entries (value self) !! i); simpl; [f_equal; ring|done].
  - destruct self as [[sh en]]. cbn [value shape entries]. do 2 f_equal.
    apply list_eq. intros i. rewrite !list_lookup_fmap.
    destruct (en !! i); simpl; [f_equal; ring|done].
Qed.

End ParameterMore.

(** ** Composite phase-space positions *)

Section ComprehensionFacts.
Context {V W : Type}.
Implicit Types (f : V -> result W) (items : dict V) (acc : dict W).

(** A comprehension over distinct keys that are new to the accumulator
    appends one item per key. *)
Lemma dict_comprehension_ok f items acc out :
  NoDup (dict_keys items) ->
  (forall k, k ∈ dict_keys items -> k ∉ dict_keys acc) ->
  dict_comprehension f items acc = Ok out ->
  exists ws,
    out = acc ++ ws
    ∧ dict_keys ws = dict_keys items
    ∧ Forall2 (fun kv kw => f kv.2 = Ok kw.2) items ws.
Proof.
  revert acc. induction items as [|[k v] items IH]; intros acc Hnd Hnew; simpl.
  - intros [= <-]. exists []. by rewrite app_nil_r.
  - rewrite dict_keys_cons in Hnd. apply NoDup_cons in Hnd as [Hk Hnd].
    destruct (f v) as [w|e] eqn:Hf; simpl; [|done].
    rewrite dict_setitem_fresh.
    2:{ apply Hnew. rewrite dict_keys_cons. apply elem_of_cons. by left. }
    intros Hout. apply IH in Hout as (ws & -> & Hkeys & Hall); [|done|].
    + exists ((k, w) :: ws). rewrite <- app_assoc. split; [done|].
      split; [by rewrite !dict_keys_cons, Hkeys|]. by constructor.
    + intros k' Hk'. rewrite dict_keys_app.
      intros [Hin| ->%list_elem_of_singleton]%elem_of_app; [|done].
      eapply Hnew; [|done]. rewrite dict_keys_cons. apply elem_of_cons. by right.
Qed.

Lemma dict_comprehension_raise f items acc e :
  dict_comprehension f items acc = Raise e ->
  exists k v, (k, v) ∈ items ∧ f v = Raise e.
Proof.
  revert acc. induction items as [|[k v] items IH]; intros acc; simpl; [done|].
  destruct (f v) as [w|e'] eqn:Hf; simpl.
  - intros (k' & v' & Hin & Hr)%IH. exists k', v'.
    split; [apply elem_of_cons; by right|done].
  - intros [= <-]. exists k, v. split; [apply elem_of_cons; by left|done].
Qed.

Lemma dict_comprehension_total f items acc :
  (forall k v, (k, v) ∈ items -> exists w, f v = Ok w) ->
  exists out, dict_comprehension f items acc = Ok out.
Proof.
  revert acc. induction items as [|[k v] items IH]; intros acc Hall; simpl; [eauto|].
  destruct (Hall k v) as [w ->]; [apply elem_of_cons; by left|]. simpl.
  apply IH. intros k' v' Hin. apply (Hall k'), elem_of_cons. by right.
Qed.

Lemma Forall2_getitem f items (ws : dict W) k :
  dict_keys ws = dict_keys items ->
  Forall2 (fun kv kw => f kv.2 = Ok kw.2) items ws ->
  match dict_getitem k items with
  | Some v => exists w, f v = Ok w ∧ dict_getitem k ws = Some w
  | None => dict_getitem k ws = None
  end.
Proof.
  intros Hkeys Hall. revert Hkeys.
  induction Hall as [|[k1 v] [k2 w] items ws Hf Hall IH]; [done|].
  rewrite !dict_keys_cons. intros [= <- Hkeys]. simpl in *.
  destruct (decide (k = k2)); [by exists w|]. by apply IH.
Qed.

End ComprehensionFacts.

Section DictMore.
Context {V : Type}.
Implicit Types (d : dict V) (k : string) (v : V).

Lemma dict_setitem_setitem k v v' d :
  dict_setitem k v (dict_setitem k v' d) = dict_setitem k v d.
Proof.
  induction d as [|[k0 v0] d IH]; simpl.
  - by rewrite decide_True.
  - destruct (decide (k = k0)) as [->|Hne]; simpl.
    + by rewrite decide_True.
    + by rewrite decide_False, IH.
Qed.

Lemma filter_none (P : string -> Prop) `{!forall x, Decision (P x)}
    (l : list string) :
  (forall x, x ∈ l -> ¬ P x) -> filter P l = [].
Proof.
  induction l as [|x l IH]; intros Hall; [done|].
  rewrite filter_cons, decide_False by (apply Hall, elem_of_cons; by left).
  apply IH. intros y Hy. apply Hall, elem_of_cons. by right.
Qed.

Lemma dict_or_singleton d k v : dict_or d [(k, v)] = dict_setitem k v d.
Proof. done. Qed.

End DictMore.

Section CompositePSPFacts.
Context {PSP Index Units PosCls VelCls : Type}.
Variable psp_len : PSP -> nat.
Variable psp_getitem : PSP -> Index -> result PSP.
Variable psp_to_units : PSP -> Units -> result PSP.
Variable psp_represent_as : PSP -> PosCls -> VelCls -> result PSP.
Variable differential_cls : PosCls -> VelCls.
Implicit Types (self obj : AbstractCompositePhaseSpacePosition PSP).
Implicit Types (kwargs : dict PSP).

Local Abbreviation len := (CompositePSP__len__ psp_len).
Local Abbreviation getitem := (CompositePSP__getitem__ psp_getitem).
Local Abbreviation to_units := (CompositePSP_to_units psp_to_units).
Local Abbreviation represent := (represent_as psp_represent_as differential_cls).

Lemma CompositePSP__init__distinct (psps : list (string * PSP)) kwargs :
  distinct_keys (CompositePSP__init__ psps kwargs).
Proof. unfold distinct_keys. simpl. do 2 apply dict_or_NoDup. constructor. Qed.

Lemma CompositePSP__init__kwargs kwargs :
  NoDup (dict_keys kwargs) -> CompositePSP__init__ [] kwargs = mkCompositePSP kwargs.
Proof. intros Hnd. unfold CompositePSP__init__. simpl. by rewrite dict_or_nil_l. Qed.

(** X14.  The length of a composite is at least its number of components and
    at least the sum of the lengths of its components; it is zero only for a
    composite without components; it is the number of components when every
    component has length at most one (a scalar component counts as one),
    and the sum of the lengths when no component has length zero. *)
Theorem CompositePSP_len_bounds self :
  length (psp_data self) <= len self
  ∧ sum_list (map psp_len (dict_values (psp_data self))) <= len self
  ∧ (len self = 0 <-> psp_data self = [])
  ∧ (Forall (fun w => psp_len w <= 1) (dict_values (psp_data self)) ->
     len self = length (psp_data self))
  ∧ (Forall (fun w => 0 < psp_len w) (dict_values (psp_data self)) ->
     len self = sum_list (map psp_len (dict_values (psp_data self)))).
Proof.
  unfold CompositePSP__len__, dict_values. destruct self as [data]. simpl.
  induction data as [|[k w] data (IH1 & IH2 & IH3 & IH4 & IH5)]; simpl.
  - by repeat split.
  - change (list_fmap (string * PSP)%type PSP snd data) with (data.*2).
    set (n := sum_list (map _ data.*2)) in *.
    set (m := sum_list (map psp_len data.*2)) in *.
    repeat split.
    + case_decide; lia.
    + case_decide; lia.
    + intros Hz. exfalso. case_decide; lia.
    + done.
    + intros [Hw Hall]%Forall_cons. specialize (IH4 Hall). case_decide; lia.
    + intros [Hw Hall]%Forall_cons. specialize (IH5 Hall). case_decide; lia.
Qed.

(** What the three componentwise methods share. *)
Lemma componentwise_spec (f : PSP -> result PSP) self :
  distinct_keys self ->
  (forall c',
     (kwargs ← dict_comprehension f (psp_data self) [];
      Ok (CompositePSP__init__ [] kwargs)) = Ok c' ->
     dict_keys (psp_data c') = dict_keys (psp_data self)
     ∧ forall k,
         match CompositePSP__getitem__str self k with
         | Some w => exists w', f w = Ok w' ∧ CompositePSP__getitem__str c' k = Some w'
         | None => CompositePSP__getitem__str c' k = None
         end)
  ∧ (forall e,
       (kwargs ← dict_comprehension f (psp_data self) [];
        Ok (CompositePSP__init__ [] kwargs)) = Raise e ->
       exists k w, CompositePSP__getitem__str self k = Some w ∧ f w = Raise e)
  ∧ ((forall k w, CompositePSP__getitem__str self k = Some w ->
                  exists w', f w = Ok w') ->
     exists c',
       (kwargs ← dict_comprehension f (psp_data self) [];
        Ok (CompositePSP__init__ [] kwargs)) = Ok c').
Proof.
  intros Hnd. unfold CompositePSP__getitem__str. split; [|split].
  - intros c'.
    destruct (dict_comprehension _ _ _) as [out|e] eqn:Hcomp; simpl; [|done].
    intros [= <-].
    apply dict_comprehension_ok in Hcomp as (ws & -> & Hkeys & Hall);
      [|done|intros k _; apply not_elem_of_nil].
    rewrite app_nil_l, CompositePSP__init__kwargs by (by rewrite Hkeys).
    split; [done|]. intros k. by apply Forall2_getitem.
  - intros e.
    destruct (dict_comprehension _ _ _) as [out|e'] eqn:Hcomp; simpl; [done|].
    intros [= <-]. apply dict_comprehension_raise in Hcomp as (k & w & Hin & Hf).
    exists k, w. split; [by apply dict_getitem_elem|done].
  - intros Hall.
    destruct (dict_comprehension_total f (psp_data self) []) as [out ->]; [|by eexists].
    intros k v Hin. apply (Hall k). by apply dict_getitem_elem.
Qed.

(** X15.  Indexing a composite indexes every component: the keys stay, the
    component under a key is the indexed component, an error is the error of
    a component, and there is no other error. *)
Theorem CompositePSP_getitem_componentwise self (key : Index) :
  distinct_keys self ->
  (forall c',
     getitem self key = Ok c' ->
     dict_keys (psp_data c') = dict_keys (psp_data self)
     ∧ forall k,
         match CompositePSP__getitem__str self k with
         | Some w =>
             exists w', psp_getitem w key = Ok w'
                        ∧ CompositePSP__getitem__str c' k = Some w'
         | None => CompositePSP__getitem__str c' k = None
         end)
  ∧ (forall e,
       getitem self key = Raise e ->
       exists k w, CompositePSP__getitem__str self k = Some w
                   ∧ psp_getitem w key = Raise e)
  ∧ ((forall k w, CompositePSP__getitem__str self k = Some w ->
                  exists w', psp_getitem w key = Ok w') ->
     exists c', getitem self key = Ok c').
Proof. apply (componentwise_spec (fun v => psp_getitem v key)). Qed.

(** X16.  [to_units] and [represent_as] keep the keys and convert every
    component; without a velocity class, [represent_as] uses the one of the
    position class. *)
Theorem CompositePSP_conversions self (units : Units) (position_cls : PosCls)
    (velocity_cls : option VelCls) :
  distinct_keys self ->
  (forall c',
     to_units self units = Ok c' ->
     dict_keys (psp_data c') = dict_keys (psp_data self)
     ∧ forall k,
         match CompositePSP__getitem__str self k with
         | Some w =>
             exists w', psp_to_units w units = Ok w'
                        ∧ CompositePSP__getitem__str c' k = Some w'
         | None => CompositePSP__getitem__str c' k = None
         end)
  ∧ (forall c',
       represent self position_cls velocity_cls = Ok c' ->
       dict_keys (psp_data c') = dict_keys (psp_data self)
       ∧ forall k,
           match CompositePSP__getitem__str self k with
           | Some w =>
               exists w',
                 psp_represent_as w position_cls
                   (default (differential_cls position_cls) velocity_cls) = Ok w'
                 ∧ CompositePSP__getitem__str c' k = Some w'
           | None => CompositePSP__getitem__str c' k = None
           end)
  ∧ represent self position_cls None
    = represent self position_cls (Some (differential_cls position_cls)).
Proof.
  intros Hnd. split; [|split; [|done]].
  - apply (componentwise_spec (fun v => psp_to_units v units) self Hnd).
  - destruct velocity_cls as [c|];
      apply (componentwise_spec (fun v => psp_represent_as v position_cls _)
               self Hnd).
Qed.

(** *** [replace] *)

Lemma replace_raises obj kwargs :
  existsb (fun k => negb (bool_decide (k = "")))
    (filter (fun k => k ∉ dict_keys (psp_data obj)) (dict_keys kwargs)) = true
  <-> exists k, k ∈ dict_keys kwargs ∧ (k ∉ dict_keys (psp_data obj)) ∧ k ≠ "".
Proof.
  rewrite existsb_exists. split.
  - intros (k & Hin & Hk). apply list_elem_of_In in Hin.
    apply list_elem_of_filter in Hin as [? ?]. exists k. split; [done|]. split; [done|].
    apply negb_true_iff, bool_decide_eq_false in Hk. done.
  - intros (k & Hin & Hnew & Hne). exists k. split.
    + apply list_elem_of_In. by apply list_elem_of_filter.
    + by apply negb_true_iff, bool_decide_eq_false.
Qed.

Lemma replace_accepts obj kwargs :
  distinct_keys obj ->
  (forall k, k ∈ dict_keys kwargs -> k ∈ dict_keys (psp_data obj) ∨ k = "") ->
  replace obj kwargs = Ok (mkCompositePSP (dict_or (psp_data obj) kwargs)).
Proof.
  intros Hnd Hall. unfold replace.
  rewrite CompositePSP__init__kwargs by (by apply dict_or_NoDup).
  destruct (existsb _ _) eqn:Hex; [|done].
  apply replace_raises in Hex as (k & Hin & Hnew & Hne). by destruct (Hall k Hin).
Qed.

(** X17.  [replace(obj, **kwargs)] raises exactly when a keyword that is not
    the empty string names no component; a keyword that is the empty string
    and names no component is accepted and becomes a component. *)
Theorem replace_invalid_keys obj kwargs :
  distinct_keys obj ->
  ((exists k, k ∈ dict_keys kwargs ∧ (k ∉ dict_keys (psp_data obj)) ∧ k ≠ "")
   <-> replace obj kwargs = Raise (RuntimeError invalid_keys_msg))
  ∧ ((forall k, k ∈ dict_keys kwargs -> k ∈ dict_keys (psp_data obj) ∨ k = "")
     <-> replace obj kwargs = Ok (mkCompositePSP (dict_or (psp_data obj) kwargs)))
  ∧ (forall w, "" ∉ dict_keys (psp_data obj) ->
       replace obj [("", w)] = Ok (mkCompositePSP (psp_data obj ++ [("", w)]))).
Proof.
  intros Hnd.
  assert (forall w, "" ∉ dict_keys (psp_data obj) ->
            replace obj [("", w)]
            = Ok (mkCompositePSP (psp_data obj ++ [("", w)]))) as Hempty.
  { intros w Hnew. unfold replace. cbn [dict_keys fmap list_fmap fst].
    rewrite filter_cons, decide_True, filter_nil by done. cbn [existsb].
    rewrite bool_decide_eq_true_2 by done. cbn [negb orb].
    rewrite CompositePSP__init__kwargs by (by apply dict_or_NoDup).
    by rewrite dict_or_singleton, dict_setitem_fresh. }
  split; [|split; [|done]]; unfold replace;
    rewrite CompositePSP__init__kwargs by (by apply dict_or_NoDup);
    destruct (existsb _ _) eqn:Hex.
  - apply replace_raises in Hex as (k & Hin & Hnew & Hne).
    split; [done|]. intros _. by exists k.
  - split; [|done]. intros (k & Hin & Hnew & Hne).
    assert (existsb (fun k => negb (bool_decide (k = "")))
              (filter (fun k => k ∉ dict_keys (psp_data obj)) (dict_keys kwargs))
            = true) as Ht by (apply replace_raises; by exists k).
    congruence.
  - apply replace_raises in Hex as (k & Hin & Hnew & Hne).
    split; [|done]. intros Hall. by destruct (Hall k Hin).
  - split; [done|]. intros _ k Hin.
    destruct (decide (k ∈ dict_keys (psp_data obj))); [by left|].
    destruct (decide (k = "")); [by right|].
    assert (existsb (fun k => negb (bool_decide (k = "")))
              (filter (fun k => k ∉ dict_keys (psp_data obj)) (dict_keys kwargs))
            = true) as Ht by (apply replace_raises; by exists k).
    congruence.
Qed.

(** X18.  [replace] with keywords that all name components: the keys and their
    order stay; a lookup gives the replacement when there is one and the old
    component otherwise; no keyword at all gives the composite back. *)
Theorem replace_components obj kwargs :
  distinct_keys obj -> NoDup (dict_keys kwargs) ->
  (forall k, k ∈ dict_keys kwargs -> k ∈ dict_keys (psp_data obj)) ->
  exists c',
    replace obj kwargs = Ok c'
    ∧ dict_keys (psp_data c') = dict_keys (psp_data obj)
    ∧ (forall k,
         CompositePSP__getitem__str c' k
         = match dict_getitem k kwargs with
           | Some w => Some w
           | None => CompositePSP__getitem__str obj k
           end)
    ∧ replace obj [] = Ok obj.
Proof.
  intros Hnd Hkw Hsub.
  exists (mkCompositePSP (dict_or (psp_data obj) kwargs)).
  split; [apply replace_accepts; [done|]; intros k Hk; left; by apply Hsub|].
  split; [|split].
  - simpl. rewrite dict_keys_or by done.
    rewrite filter_none; [by rewrite app_nil_r|].
    intros k Hk Hn. by apply Hn, Hsub.
  - intros k. unfold CompositePSP__getitem__str. simpl. by apply dict_getitem_or.
  - unfold replace. simpl. rewrite CompositePSP__init__kwargs by done.
    by destruct obj.
Qed.

(** X19.  Replacing a component and putting the old one back gives the
    composite back. *)
Theorem replace_round_trip obj (k : string) (w w' : PSP) :
  distinct_keys obj -> CompositePSP__getitem__str obj k = Some w ->
  exists c',
    replace obj [(k, w')] = Ok c'
    ∧ CompositePSP__getitem__str c' k = Some w'
    ∧ replace c' [(k, w)] = Ok obj.
Proof.
  intros Hnd Hget. unfold CompositePSP__getitem__str in Hget.
  assert (k ∈ dict_keys (psp_data obj)) as Hk
    by (apply dict_getitem_is_Some; eauto).
  assert (forall v : PSP, forall k0, k0 ∈ dict_keys [(k, v)] ->
            k0 ∈ dict_keys (psp_data obj) ∨ k0 = "") as Hsub.
  { intros v k0 ->%list_elem_of_singleton. by left. }
  exists (mkCompositePSP (dict_setitem k w' (psp_data obj))).
  split; [apply replace_accepts; [done|apply Hsub]|].
  split.
  { unfold CompositePSP__getitem__str. simpl.
    by rewrite dict_getitem_setitem, decide_True. }
  assert (distinct_keys (mkCompositePSP (dict_setitem k w' (psp_data obj))))
    as Hnd' by (by apply dict_keys_setitem_NoDup).
  rewrite replace_accepts; [|done|].
  - rewrite dict_or_singleton. simpl.
    rewrite dict_setitem_setitem, dict_setitem_same by done. by destruct obj.
  - intros k0 ->%list_elem_of_singleton. left. simpl.
    by rewrite dict_keys_setitem_in.
Qed.

End CompositePSPFacts.

(** ** The corotating frame *)

Section RotationFacts.
Context {F : Type}.
Variable fzero fone : F.
Variable fadd fmul fsub : F -> F -> F.
Variable fopp : F -> F.
Variable fcos fsin : F -> F.
Variable feqb : F -> F -> bool.

Local Abbreviation call :=
  (ConstantRotationZOperator__call__ fzero fone fadd fmul fopp fcos fsin).
Local Abbreviation inv := (inverse fopp).
Local Abbreviation simplify := (_simplify_op_rotz fzero feqb).
Local Abbreviation op_call :=
  (AbstractOperator__call__ fzero fone fadd fmul fopp fcos fsin).

(** X20.  The operator acts on positions of three components only: on such a
    position it returns three components and the time it was given; on any
    other it raises the [ValueError] of the vectorized product; and the frame
    is never inertial. *)
Theorem rotation_core_dimension (self : ConstantRotationZOperator F)
    (q : list F) (t : F) :
  (length q = 3 ->
   exists q', call self q t = Ok (q', t) ∧ length q' = 3)
  ∧ (length q ≠ 3 -> call self q t = Raise (ValueError core_dimension_msg))
  ∧ (forall q' t', call self q t = Ok (q', t') -> length q = 3 ∧ t' = t)
  ∧ is_inertial self = false.
Proof.
  unfold ConstantRotationZOperator__call__, vec_matmul.
  split; [|split; [|split; [|done]]].
  - intros Hq. rewrite decide_True by done. simpl. by eexists.
  - intros Hq. by rewrite decide_False.
  - intros q' t'. case_decide; simpl; [|done]. by intros [= _ <-].
Qed.

(** Exact arithmetic: the operations form a ring, and cosine and sine obey
    their laws. *)
Hypothesis exact_arith : ring_theory fzero fone fadd fmul fsub fopp eq.
Hypothesis trig : trigonometry fzero fone fadd fmul fopp fcos fsin.
Add Ring F_ring : exact_arith.

Lemma call_three (self : ConstantRotationZOperator F) (x y z t : F) :
  call self [x; y; z] t
  = Ok ([fsub (fmul (fcos (fmul (Omega_z self) t)) x)
              (fmul (fsin (fmul (Omega_z self) t)) y);
         fadd (fmul (fsin (fmul (Omega_z self) t)) x)
              (fmul (fcos (fmul (Omega_z self) t)) y);
         z], t).
Proof using exact_arith.
  unfold ConstantRotationZOperator__call__, vec_matmul, matmul, rot_z, xp_sum.
  simpl. do 2 f_equal. f_equal; [ring|]. f_equal; [ring|]. f_equal. ring.
Qed.

Lemma three_components (q : list F) :
  length q = 3 -> exists x y z, q = [x; y; z].
Proof. destruct q as [|x [|y [|z [|? ?]]]]; try done. by exists x, y, z. Qed.

(** X21.  In exact arithmetic the rotation keeps the component along the axis
    and the distance from it. *)
Theorem rotation_keeps_axis_and_radius (self : ConstantRotationZOperator F)
    (x y z t : F) :
  exists x' y',
    call self [x; y; z] t = Ok ([x'; y'; z], t)
    ∧ fadd (fmul x' x') (fmul y' y') = fadd (fmul x x) (fmul y y).
Proof using exact_arith trig.
  rewrite call_three. do 2 eexists. split; [done|].
  set (c := fcos _). set (s := fsin _).
  transitivity (fmul (fadd (fmul c c) (fmul s s)) (fadd (fmul x x) (fmul y y)));
    [ring|].
  subst c s. rewrite (cos_sin_one _ _ _ _ _ _ _ trig). ring.
Qed.

(** X22.  In exact arithmetic the inverse operator undoes the operator at the
    same time, and the inverse of the inverse is the operator. *)
Theorem rotation_inverse_round_trip (self : ConstantRotationZOperator F)
    (q : list F) (t : F) :
  length q = 3 ->
  (call self q t ≫= fun qt => call (inv self) qt.1 qt.2) = Ok (q, t)
  ∧ (call (inv self) q t ≫= fun qt => call self qt.1 qt.2) = Ok (q, t)
  ∧ inv (inv self) = self.
Proof using exact_arith trig.
  intros (x & y & z & ->)%three_components.
  assert (forall a : F, fmul (fopp a) t = fopp (fmul a t)) as Hopp
    by (intros a; ring).
  pose proof (cos_sin_one _ _ _ _ _ _ _ trig (fmul (Omega_z self) t)) as Hone.
  rewrite !call_three. cbn [mbind result_bind fst snd]. rewrite !call_three.
  unfold inverse. cbn [Omega_z].
  rewrite !Hopp, !(cos_opp _ _ _ _ _ _ _ trig), !(sin_opp _ _ _ _ _ _ _ trig).
  set (c := fcos _) in *. set (s := fsin _) in *.
  split; [|split].
  - do 2 f_equal. f_equal; [|f_equal].
    + transitivity (fmul (fadd (fmul c c) (fmul s s)) x); [ring|].
      rewrite Hone. ring.
    + transitivity (fmul (fadd (fmul c c) (fmul s s)) y); [ring|].
      rewrite Hone. ring.
  - do 2 f_equal. f_equal; [|f_equal].
    + transitivity (fmul (fadd (fmul c c) (fmul s s)) x); [ring|].
      rewrite Hone. ring.
    + transitivity (fmul (fadd (fmul c c) (fmul s s)) y); [ring|].
      rewrite Hone. ring.
  - destruct self as [w]. simpl. f_equal. ring.
Qed.

(** [==] decides equality. *)
Hypothesis feqb_eq : forall x y, feqb x y = true <-> x = y.

(** X23.  In exact arithmetic [simplify_op] keeps the action of the operator: a
    rotation of angular speed zero is replaced by the identity, which it
    is, and any other rotation is kept. *)
Theorem simplify_op_keeps_action (frame : ConstantRotationZOperator F)
    (q : list F) (t : F) :
  length q = 3 ->
  op_call (simplify frame) q t = call frame q t
  ∧ (simplify frame = IdentityOperator <-> Omega_z frame = fzero)
  ∧ (Omega_z frame ≠ fzero -> simplify frame = RotationZ frame).
Proof using exact_arith trig feqb_eq.
  intros (x & y & z & ->)%three_components. unfold _simplify_op_rotz.
  destruct (feqb (Omega_z frame) fzero) eqn:Heq.
  - apply feqb_eq in Heq. split; [|split; [done|done]].
    cbn [AbstractOperator__call__]. rewrite call_three, Heq.
    assert (fmul fzero t = fzero) as -> by ring.
    rewrite (cos_zero _ _ _ _ _ _ _ trig), (sin_zero _ _ _ _ _ _ _ trig).
    do 2 f_equal. f_equal; [|f_equal]; ring.
  - split; [done|]. split; [|done]. split; [done|].
    intros Hz. apply feqb_eq in Hz. congruence.
Qed.

End RotationFacts.

(** The quarter turns obey the laws of cosine and sine. *)
Lemma quarter_trigonometry :
  trigonometry 0%Z 1%Z Z.add Z.mul Z.opp quarter_cos quarter_sin.
Proof.
  assert (forall n : Z, (n mod 4 = 0 ∨ n mod 4 = 1 ∨ n mod 4 = 2 ∨ n mod 4 = 3)%Z)
    as Hcases by (intros n; pose proof (Z.mod_pos_bound n 4 ltac:(lia)); lia).
  assert (forall n : Z, ((- n) mod 4 = (4 - n mod 4) mod 4)%Z) as Hneg.
  { intros n. Z.to_euclidean_division_equations. lia. }
  split; unfold quarter_cos, quarter_sin.
  - intros n. by destruct (Hcases n) as [->|[->|[->| ->]]].
  - intros n. rewrite Hneg. by destruct (Hcases n) as [->|[->|[->| ->]]].
  - intros n. rewrite Hneg. by destruct (Hcases n) as [->|[->|[->| ->]]].
  - done.
  - done.
Qed.

(** * The further properties at the concrete instances *)

Lemma constructed_solar_disk_halo : constructed solar_disk_halo.
Proof. split; [by apply (bool_decide_unpack _)|done]. Defined.

Lemma distinct_two_tracks : distinct_keys two_tracks.
Proof. by apply (bool_decide_unpack _). Defined.

(** [disk_halo | solar_body] is refused; [disk_halo | solar_disk_halo], where
    every component is replaced, is built in the other unit system. *)
Lemma or_units_mismatch_witness :
  __or__ a_uuid disk_halo (PyPotential solar_body)
  = Returned (Raise (ValueError units_msg))
  ∧ __or__ a_uuid disk_halo (PyPotential (as_potential solar_disk_halo))
    = Returned (Ok (mkCompositePotential
                      (dict_or (_data disk_halo) (_data solar_disk_halo))
                      solarsystem)).
Proof.
  split.
  - destruct (or_units_mismatch a_uuid disk_halo solar_body constructed_disk_halo
                I ltac:(done)) as ([Hraise _] & _ & _).
    apply Hraise. exists "disk". split; by apply (bool_decide_unpack _).
  - destruct (or_units_mismatch a_uuid disk_halo (as_potential solar_disk_halo)
                constructed_disk_halo constructed_solar_disk_halo ltac:(done))
      as (_ & [Hok _] & _).
    apply Hok. intros k Hk. exact Hk.
Defined.

Lemma or_idempotent_witness :
  __or__ a_uuid disk_halo (PyPotential (as_potential disk_halo))
  = Returned (Ok disk_halo)
  ∧ __ror__ a_uuid disk_halo (PyPotential (as_potential disk_halo))
    = Returned (Ok disk_halo)
  ∧ __add__ a_uuid disk_halo (as_potential disk_halo) = Ok disk_halo.
Proof. exact (or_idempotent a_uuid disk_halo constructed_disk_halo). Defined.

Lemma or_associative_witness :
  exists AB BC R,
    __or__ a_uuid disk_halo (PyPotential (as_potential bulge_nucleus))
    = Returned (Ok AB)
    ∧ __or__ a_uuid bulge_nucleus (PyPotential (as_potential disk_thick))
      = Returned (Ok BC)
    ∧ __or__ a_uuid AB (PyPotential (as_potential disk_thick)) = Returned (Ok R)
    ∧ __or__ a_uuid disk_halo (PyPotential (as_potential BC)) = Returned (Ok R)
    ∧ _data R
      = dict_or (_data disk_halo)
          (dict_or (_data bulge_nucleus) (_data disk_thick)).
Proof.
  exact (or_associative a_uuid disk_halo bulge_nucleus disk_thick
           constructed_disk_halo constructed_bulge_nucleus constructed_disk_thick
           eq_refl eq_refl).
Defined.

(** In [disk_halo | disk_thick] the halo is that of [disk_halo], the disk
    that of [disk_thick], and there is no bulge. *)
Lemma or_lookup_witness :
  dict_getitem "halo" (_data disk_halo_thick) = Some (uniform_potential galactic 2)
  ∧ dict_getitem "disk" (_data disk_halo_thick)
    = Some (uniform_potential galactic 7)
  ∧ dict_getitem "bulge" (_data disk_halo_thick) = None.
Proof.
  destruct (or_lookup a_uuid disk_halo (as_potential disk_thick) disk_halo_thick
              constructed_disk_halo constructed_disk_thick eq_refl) as [_ Hget].
  split; [|split].
  - by destruct (Hget "halo") as [-> _].
  - by destruct (Hget "disk") as [-> _].
  - by destruct (Hget "bulge") as [-> _].
Defined.

(** The progenitor of batch rank 1 is refused before the empty grid and the
    disabled arms are. *)
Lemma run_progenitor_must_be_scalar_witness :
  0 < progenitor_rank batched_progenitor
  ∧ fl_run "cpu" (offset_generator false false id) [] batched_progenitor 1%float
      0%Z None
    = Raise (RuntimeError "prog_w0 must be scalar").
Proof.
  split; [simpl; lia|].
  apply (run_progenitor_must_be_scalar fl_add fl_mul 1%float fl_bump fl_lt fl_le
           drift_integrate drift_orbit "cpu" (offset_generator false false id) []
           batched_progenitor 1%float 0%Z None).
  simpl. lia.
Defined.

(** Every particle of the demo is given the last stripping time. *)
Lemma run_stream_times_witness :
  exists a rest,
    demo_ts = a :: rest
    ∧ t demo_pair.1
      = replicate
          (if lead (df demo_generator) && trail (df demo_generator)
           then 2 * length demo_ts else length demo_ts)
          (fl_mul 1%float (final_time fl_lt a rest)).
Proof.
  exact (run_stream_times fl_add fl_mul 1%float fl_bump fl_lt fl_le
           drift_integrate drift_orbit "cpu" demo_generator demo_ts
           coasting_progenitor 1%float 0%Z None demo_pair.1 demo_pair.2 eq_refl).
Defined.

Lemma run_single_arm_witness :
  exists x,
    fl_integrate_stage (use_vmap_of "cpu" None) lead_only_generator demo_ts
      coasting_progenitor 1%float 0%Z = Ok x
    ∧ let ics := if lead (df lead_only_generator) then ics_lead x else ics_trail x in
      release_time lead_only_pair.1 = release_time ics
      ∧ length (q lead_only_pair.1) = length (grid x)
      ∧ length (p lead_only_pair.1) = length (grid x)
      ∧ forall k, k < length (grid x) ->
          exists w,
            fl_released lead_only_generator (grid x) (MockStream_w ics) k = Ok w
            ∧ q lead_only_pair.1 !! k = Some (take 3 w)
            ∧ p lead_only_pair.1 !! k = Some (take 3 (drop 3 w)).
Proof.
  exact (run_single_arm fl_add fl_mul 1%float fl_bump fl_lt fl_le drift_integrate
           drift_orbit "cpu" lead_only_generator demo_ts coasting_progenitor
           1%float 0%Z None lead_only_pair.1 lead_only_pair.2
           (offset_one_per_time true false id 1%float 0%Z) ltac:(done) eq_refl).
Defined.

(** The scan on three leading and two trailing particles returns three final
    states for each arm. *)
Lemma run_scan_clamps_rows_witness :
  length (MockStream_w lagging_ics.1) = 3
  ∧ length (MockStream_w lagging_ics.2) = 2
  ∧ length lagging_arms.1 = length (MockStream_w lagging_ics.1)
  ∧ length lagging_arms.2 = length (MockStream_w lagging_ics.1).
Proof.
  destruct (run_scan_clamps_rows fl_add fl_bump drift_integrate lagging_generator
              demo_ts lagging_ics.1 lagging_ics.2 lagging_arms.1 lagging_arms.2
              eq_refl) as (Hl & Ht & _).
  by repeat split.
Defined.

Lemma run_vmap_size_check_witness :
  _run_vmap fl_add fl_bump drift_integrate lagging_generator demo_ts lagging_ics.1
    lagging_ics.2
  = Raise (ValueError vmap_msg).
Proof.
  apply (run_vmap_size_check fl_add fl_bump drift_integrate lagging_generator
           demo_ts lagging_ics.1 lagging_ics.2 ltac:(done)).
  by vm_compute.
Defined.

(** A mass of 1000 that falls by 1 per unit of time, at the reference time. *)
Lemma LinearParameter_point_slope_witness :
  entries (LinearParameter__call__ Z.add Z.mul Z.sub mass_loss five_times) !! 0
  = Some 1000%Z.
Proof.
  exact (proj1 (proj2 (proj2 (LinearParameter_point_slope 0%Z 1%Z Z.add Z.mul
                                Z.sub Z.opp Zth mass_loss five_times)))
           0 eq_refl).
Defined.

Lemma ConstantParameter_scaling_witness :
  ConstantParameter__rmul__ Z.mul integer_mass 5%Z
  = ConstantParameter__mul__ Z.mul integer_mass 5%Z.
Proof.
  exact (proj1 (ConstantParameter_scaling 0%Z 1%Z Z.add Z.mul Z.sub Z.opp Zth
                  integer_mass 5%Z 7%Z None)).
Defined.

(** Point 1 of the two tracks. *)
Lemma CompositePSP_getitem_componentwise_witness :
  CompositePSP__getitem__ track_getitem two_tracks 1
  = Ok (mkCompositePSP [("w1", [2%Z]); ("w2", [5%Z])])
  ∧ dict_keys [("w1", [2%Z]); ("w2", [5%Z])] = dict_keys (psp_data two_tracks).
Proof.
  split; [done|].
  exact (proj1 (proj1 (CompositePSP_getitem_componentwise track_getitem two_tracks
                         1 distinct_two_tracks)
                  (mkCompositePSP [("w1", [2%Z]); ("w2", [5%Z])]) eq_refl)).
Defined.

Lemma CompositePSP_conversions_witness :
  CompositePSP_to_units track_to_units two_tracks 10%Z
  = Ok (mkCompositePSP [("w1", [10; 20; 30]%Z); ("w2", [40; 50; 60]%Z)])
  ∧ dict_keys [("w1", [10; 20; 30]%Z); ("w2", [40; 50; 60]%Z)]
    = dict_keys (psp_data two_tracks).
Proof.
  split; [done|].
  exact (proj1 (proj1 (CompositePSP_conversions track_to_units track_represent_as
                         (fun c => c) two_tracks 10%Z "cylindrical" None
                         distinct_two_tracks)
                  (mkCompositePSP
                     [("w1", [10; 20; 30]%Z); ("w2", [40; 50; 60]%Z)])
                  eq_refl)).
Defined.

(** A keyword that names no track is refused, unless it is the empty
    string. *)
Lemma replace_invalid_keys_witness :
  replace two_tracks [("w3", [7%Z])] = Raise (RuntimeError invalid_keys_msg)
  ∧ replace two_tracks [("", [7%Z])]
    = Ok (mkCompositePSP (psp_data two_tracks ++ [("", [7%Z])])).
Proof.
  destruct (replace_invalid_keys two_tracks [("w3", [7%Z])] distinct_two_tracks)
    as ([Hraise _] & _ & Hempty).
  split.
  - apply Hraise. exists "w3". repeat split; by apply (bool_decide_unpack _).
  - apply Hempty. by apply (bool_decide_unpack _).
Defined.

Lemma replace_components_witness :
  exists c',
    replace two_tracks [("w2", [9%Z])] = Ok c'
    ∧ dict_keys (psp_data c') = dict_keys (psp_data two_tracks)
    ∧ (forall k,
         CompositePSP__getitem__str c' k
         = match dict_getitem k [("w2", [9%Z])] with
           | Some w => Some w
           | None => CompositePSP__getitem__str two_tracks k
           end)
    ∧ replace two_tracks [] = Ok two_tracks.
Proof.
  apply (replace_components two_tracks [("w2", [9%Z])] distinct_two_tracks).
  - by apply (bool_decide_unpack _).
  - intros k ->%list_elem_of_singleton. by apply (bool_decide_unpack _).
Defined.

Lemma replace_round_trip_witness :
  exists c',
    replace two_tracks [("w1", [0%Z])] = Ok c'
    ∧ CompositePSP__getitem__str c' "w1" = Some [0%Z]
    ∧ replace c' [("w1", [1; 2; 3]%Z)] = Ok two_tracks.
Proof.
  exact (replace_round_trip two_tracks "w1" [1; 2; 3]%Z [0%Z] distinct_two_tracks
           eq_refl).
Defined.

(** A quarter turn takes [(3, 4, 5)] to [(-4, 3, 5)]: the same height, the
    same distance from the axis. *)
Lemma rotation_keeps_axis_and_radius_witness :
  exists x' y',
    quarter_call quarter_turn [3; 4; 5]%Z 1%Z = Ok ([x'; y'; 5%Z], 1%Z)
    ∧ (x' * x' + y' * y' = 3 * 3 + 4 * 4)%Z.
Proof.
  exact (rotation_keeps_axis_and_radius 0%Z 1%Z Z.add Z.mul Z.sub Z.opp
           quarter_cos quarter_sin Zth quarter_trigonometry quarter_turn
           3%Z 4%Z 5%Z 1%Z).
Defined.

Lemma rotation_inverse_round_trip_witness :
  (quarter_call quarter_turn [3; 4; 5]%Z 1%Z
   ≫= fun qt => quarter_call (inverse Z.opp quarter_turn) qt.1 qt.2)
  = Ok ([3; 4; 5]%Z, 1%Z)
  ∧ (quarter_call (inverse Z.opp quarter_turn) [3; 4; 5]%Z 1%Z
     ≫= fun qt => quarter_call quarter_turn qt.1 qt.2)
    = Ok ([3; 4; 5]%Z, 1%Z)
  ∧ inverse Z.opp (inverse Z.opp quarter_turn) = quarter_turn.
Proof.
  exact (rotation_inverse_round_trip 0%Z 1%Z Z.add Z.mul Z.sub Z.opp quarter_cos
           quarter_sin Zth quarter_trigonometry quarter_turn [3; 4; 5]%Z 1%Z
           eq_refl).
Defined.

Lemma simplify_op_keeps_action_witness :
  AbstractOperator__call__ 0%Z 1%Z Z.add Z.mul Z.opp quarter_cos quarter_sin
    (_simplify_op_rotz 0%Z Z.eqb (mkConstantRotationZOperator 0%Z))
    [3; 4; 5]%Z 2%Z
  = quarter_call (mkConstantRotationZOperator 0%Z) [3; 4; 5]%Z 2%Z
  ∧ (_simplify_op_rotz 0%Z Z.eqb (mkConstantRotationZOperator 0%Z)
     = IdentityOperator
     <-> Omega_z (mkConstantRotationZOperator 0%Z) = 0%Z)
  ∧ (Omega_z (mkConstantRotationZOperator 0%Z) ≠ 0%Z ->
     _simplify_op_rotz 0%Z Z.eqb (mkConstantRotationZOperator 0%Z)
     = RotationZ (mkConstantRotationZOperator 0%Z)).
Proof.
  exact (simplify_op_keeps_action 0%Z 1%Z Z.add Z.mul Z.sub Z.opp quarter_cos
           quarter_sin Z.eqb Zth quarter_trigonometry Z.eqb_eq
           (mkConstantRotationZOperator 0%Z) [3; 4; 5]%Z 2%Z eq_refl).
Defined.

(** The examples of the documentation of the operator: a quarter turn per
    unit of time takes [(1, 0, 0)] to [(0, 1, 0)] at time 1 and to
    [(-1, 0, 0)] at time 2. *)
Example quarter_turn_documented :
  quarter_call quarter_turn [1; 0; 0]%Z 1%Z = Ok ([0; 1; 0]%Z, 1%Z)
  ∧ quarter_call quarter_turn [1; 0; 0]%Z 2%Z = Ok ([-1; 0; 0]%Z, 2%Z).
Proof. by split. Qed.
